(** * p5.beaker: particles, the proton/conjugate-base bond and the beaker loop

    A shallow embedding of [particles.js] (Particle, ConjugateBase, Proton and
    the Strong/Weak variants) and of [beaker/beaker.js] (Beaker), followed by
    the properties stated about them.

    JavaScript numbers are idealised as exact rationals ([Q]), except where
    the rounding of a double decides a property: there the arithmetic is
    written with an explicit rounding operator ([randomPoint_fl]).  [null] is
    [None]; an object reference is a key into a store, so that two references
    to one object alias it.  A [TypeError] (reading a property of [null] or
    [undefined]) is the failure of the error monad. *)

From Stdlib Require Import QArith Qabs Qround Qpower Lqa.
From stdpp Require Import gmap strings list fin_maps.

Local Open Scope Q_scope.

(** ** Objects *)

(** A p5.play sprite, restricted to the properties the code reads or writes. *)
Record Sprite := mkSprite {
  position_x : Q;
  position_y : Q;
  velocity_x : Q;
  velocity_y : Q;
  depth : option Q;                 (* a number; the code may store null *)
  collider : Q * Q * Q;             (* setCollider('circle', offset x, offset y, radius) *)
  sprite_particle : option nat      (* sprite.particle; absent after [delete] *)
}.

(** [this.proton] of a conjugate base. *)
Record ProtonHash := mkProtonHash {
  particle : option nat;
  offset_x : Q;
  offset_y : Q;
  restore_depth : option Q;
  release_after_range : Q * Q;
  post_release_duration : Q;
  release_after : option Q
}.

(** [this.base] of a proton. *)
Record BaseHash := mkBaseHash { base_particle : option nat }.

(** The prototype an instance was built from; it selects the inherited
    constants, [reacts_with] and [update]. *)
Inductive ParticleClass :=
  | Particle_
  | ConjugateBase_
  | Proton_
  | StrongConjugateBase_
  | WeakConjugateBase_.

Global Instance ParticleClass_eq_dec : EqDecision ParticleClass.
Proof. solve_decision. Defined.

(** The own properties a constructor adds to an instance: a plain Particle
    has none, a conjugate base has [this.proton], a proton has [this.base]. *)
Inductive OwnProps :=
  | NoProps
  | HasProton (h : ProtonHash)
  | HasBase (b : BaseHash).

Record Particle := mkParticle {
  proto : ParticleClass;
  sprite : option nat;              (* this.sprite *)
  props : OwnProps
}.

(** [this.proton] and [this.base]; [None] is undefined. *)
Definition proton (p : Particle) : option ProtonHash :=
  match props p with HasProton h => Some h | _ => None end.
Definition base (p : Particle) : option BaseHash :=
  match props p with HasBase b => Some b | _ => None end.

(** [beaker.solution]. *)
Record Solution := mkSolution {
  sol_x : Q; sol_y : Q; sol_width : Q; sol_height : Q; sol_max_x : Q; sol_max_y : Q
}.

Record Beaker := mkBeaker {
  bk_x : Q; bk_y : Q; fg_x : Q; fg_y : Q;
  all_particle_sprites : list nat;
  particles : gmap string (list nat);   (* particles[key].sprites *)
  solution : Solution
}.

(** The state of a sketch: one beaker, the sprite and particle stores, and how
    many times the clock and the random source have been read. *)
Record World := mkWorld {
  beaker : Beaker;
  sprites : gmap nat Sprite;
  heap : gmap nat Particle;
  clock_reads : nat;
  random_reads : nat
}.

(** ** The error-and-state monad *)

Definition M (A : Type) : Type := World -> option (A * World).

Definition ret {A} (a : A) : M A := fun w => Some (a, w).
Definition bind {A B} (m : M A) (f : A -> M B) : M B :=
  fun w => match m w with Some (a, w') => f a w' | None => None end.
Definition throw {A} : M A := fun _ => None.

Notation "'do' x <- e ; k" := (bind e (fun x => k))
  (at level 10, x name, e at level 100, k at level 200).
Notation "'exec' e ; k" := (bind e (fun _ => k))
  (at level 10, e at level 100, k at level 200).

(** Reading a property that may be [null]/[undefined] before dereferencing it. *)
Definition deref {A} (o : option A) : M A :=
  match o with Some a => ret a | None => throw end.

Definition get_sprite (s : nat) : M Sprite := fun w =>
  match sprites w !! s with Some v => Some (v, w) | None => None end.
Definition get_particle (p : nat) : M Particle := fun w =>
  match heap w !! p with Some v => Some (v, w) | None => None end.
Definition get_beaker : M Beaker := fun w => Some (beaker w, w).

Definition put_sprite (s : nat) (v : Sprite) : M unit := fun w =>
  Some (tt, mkWorld (beaker w) (<[s:=v]> (sprites w)) (heap w)
                    (clock_reads w) (random_reads w)).
Definition put_particle (p : nat) (v : Particle) : M unit := fun w =>
  Some (tt, mkWorld (beaker w) (sprites w) (<[p:=v]> (heap w))
                    (clock_reads w) (random_reads w)).
Definition put_beaker (b : Beaker) : M unit := fun w =>
  Some (tt, mkWorld b (sprites w) (heap w) (clock_reads w) (random_reads w)).

(** Assignments to one property of a stored object. *)
Definition modify_sprite (s : nat) (f : Sprite -> Sprite) : M unit :=
  do v <- get_sprite s; put_sprite s (f v).
Definition modify_particle (p : nat) (f : Particle -> Particle) : M unit :=
  do v <- get_particle p; put_particle p (f v).

Definition set_position_x (v : Q) (s : Sprite) : Sprite :=
  mkSprite v (position_y s) (velocity_x s) (velocity_y s) (depth s)
           (collider s) (sprite_particle s).
Definition set_position_y (v : Q) (s : Sprite) : Sprite :=
  mkSprite (position_x s) v (velocity_x s) (velocity_y s) (depth s)
           (collider s) (sprite_particle s).
Definition set_velocity_x (v : Q) (s : Sprite) : Sprite :=
  mkSprite (position_x s) (position_y s) v (velocity_y s) (depth s)
           (collider s) (sprite_particle s).
Definition set_velocity_y (v : Q) (s : Sprite) : Sprite :=
  mkSprite (position_x s) (position_y s) (velocity_x s) v (depth s)
           (collider s) (sprite_particle s).
Definition set_depth (v : option Q) (s : Sprite) : Sprite :=
  mkSprite (position_x s) (position_y s) (velocity_x s) (velocity_y s) v
           (collider s) (sprite_particle s).
Definition set_sprite_particle (v : option nat) (s : Sprite) : Sprite :=
  mkSprite (position_x s) (position_y s) (velocity_x s) (velocity_y s) (depth s)
           (collider s) v.

Definition set_particle (v : option nat) (h : ProtonHash) : ProtonHash :=
  mkProtonHash v (offset_x h) (offset_y h) (restore_depth h)
               (release_after_range h) (post_release_duration h) (release_after h).
Definition set_restore_depth (v : option Q) (h : ProtonHash) : ProtonHash :=
  mkProtonHash (particle h) (offset_x h) (offset_y h) v
               (release_after_range h) (post_release_duration h) (release_after h).
Definition set_release_after_range (v : Q * Q) (h : ProtonHash) : ProtonHash :=
  mkProtonHash (particle h) (offset_x h) (offset_y h) (restore_depth h)
               v (post_release_duration h) (release_after h).
Definition set_release_after (v : option Q) (h : ProtonHash) : ProtonHash :=
  mkProtonHash (particle h) (offset_x h) (offset_y h) (restore_depth h)
               (release_after_range h) (post_release_duration h) v.

Definition set_sprite (v : option nat) (p : Particle) : Particle :=
  mkParticle (proto p) v (props p).
Definition set_proton (v : ProtonHash) (p : Particle) : Particle :=
  mkParticle (proto p) (sprite p) (HasProton v).
Definition set_base (v : BaseHash) (p : Particle) : Particle :=
  mkParticle (proto p) (sprite p) (HasBase v).

(** [obj.proton.field = v]: a TypeError when [obj.proton] is undefined. *)
Definition modify_proton (p : nat) (f : ProtonHash -> ProtonHash) : M unit :=
  do v <- get_particle p;
  do h <- deref (proton v);
  put_particle p (set_proton (f h) v).

(** [obj.base.particle = v]: a TypeError when [obj.base] is undefined. *)
Definition assign_base_particle (p : nat) (r : option nat) : M unit :=
  do v <- get_particle p;
  exec deref (base v);
  put_particle p (set_base (mkBaseHash r) v).

(** ** JavaScript coercions *)

(** Truthiness of an object reference or null. *)
Definition truthy_ref {A} (o : option A) : bool :=
  match o with Some _ => true | None => false end.

(** Truthiness of a number or null: null and 0 are falsy. *)
Definition truthy_num (o : option Q) : bool :=
  match o with Some q => negb (Qeq_bool q 0) | None => false end.

(** ToNumber on a number or null. *)
Definition to_number (o : option Q) : Q :=
  match o with Some q => q | None => 0 end.

Definition Qltb (a b : Q) : bool := negb (Qle_bool b a).
Definition Qgeb (a b : Q) : bool := Qle_bool b a.

(** Where a sprite's collider is: its position and its collider. *)
Definition geometry (s : Sprite) : Q * Q * (Q * Q * Q) :=
  (position_x s, position_y s, collider s).

(** Prototype constants ([Particle.prototype.*] and its overrides). *)
Definition collider_offset_x (c : ParticleClass) : Q := 0.
Definition collider_offset_y (c : ParticleClass) : Q := 0.

Definition collider_radius (c : ParticleClass) : Q :=
  match c with
  | Particle_ => 1
  | Proton_ => 6
  | ConjugateBase_ | StrongConjugateBase_ | WeakConjugateBase_ => 16
  end.

Definition max_velocity (c : ParticleClass) : Q :=
  match c with
  | Particle_ => 0
  | Proton_ => 3
  | ConjugateBase_ | StrongConjugateBase_ | WeakConjugateBase_ => 1 # 2
  end.

Section Sketch.

(** ** The environment of a sketch

    The clock and the random source are read through [Date.now()] and
    [Math.random()]: the [n]-th read returns [Date_now n], [Math_random n].
    The sprite engine (p5.play) supplies the drawing depth of a new sprite
    and the two overlap tests; [sprite.overlapPoint(x, y)] tests the point
    against the sprite's collider placed at the sprite's position, so it is
    a function of the sprite's [geometry]. *)
Variable Date_now : nat -> Q.
Variable Math_random : nat -> Q.
Variable createSprite_depth : nat -> Q.
Variable overlapPoint : Q * Q * (Q * Q * Q) -> Q -> Q -> bool.
Variable overlap_test : Sprite -> Sprite -> bool.

Definition Date_now_ : M Q := fun w =>
  Some (Date_now (clock_reads w),
        mkWorld (beaker w) (sprites w) (heap w) (S (clock_reads w)) (random_reads w)).

Definition Math_random_ : M Q := fun w =>
  Some (Math_random (random_reads w),
        mkWorld (beaker w) (sprites w) (heap w) (clock_reads w) (S (random_reads w))).

(** ** particles.js *)

(** [Particle.prototype.randomVelocity] *)
Definition randomVelocity (c : ParticleClass) : M Q :=
  do r <- Math_random_;
  ret (max_velocity c - r * 2 * max_velocity c).

(** [Particle.prototype.createSprite]: the engine allocates the sprite, the
    particle sets its collider and velocity and ties the two together.  The
    engine's [p.createSprite(x, y)] gives the new sprite a random shape
    colour, which takes three reads of the random source before the two
    reads of [randomVelocity]. *)
Definition createSprite (this : nat) (x y : Q) : M unit :=
  do p <- get_particle this;
  do s <- (fun w => Some (fresh (dom (sprites w)), w));
  exec put_sprite s (mkSprite x y 0 0 (Some (createSprite_depth s)) (0, 0, 0) None);
  exec Math_random_; exec Math_random_; exec Math_random_;
  exec modify_particle this (set_sprite (Some s));
  exec modify_sprite s (fun v =>
    mkSprite (position_x v) (position_y v) (velocity_x v) (velocity_y v) (depth v)
             (collider_offset_x (proto p), collider_offset_y (proto p),
              collider_radius (proto p))
             (sprite_particle v));
  do vx <- randomVelocity (proto p);
  exec modify_sprite s (set_velocity_x vx);
  do vy <- randomVelocity (proto p);
  exec modify_sprite s (set_velocity_y vy);
  modify_sprite s (set_sprite_particle (Some this)).

(** [function Particle(sketch,x,y)] run on [this]. *)
Definition Particle_call (this : nat) (x y : Q) : M unit :=
  createSprite this x y.

(** [function ConjugateBase(sketch,x,y)] run on [this]. *)
Definition ConjugateBase_call (this : nat) (x y : Q) : M unit :=
  exec Particle_call this 0 0;
  exec createSprite this x y;
  modify_particle this
    (set_proton (mkProtonHash None 10 (-10) None (0, 5000) 750 None)).

(** [function Proton(sketch,x,y)] run on [this]. *)
Definition Proton_call (this : nat) (x y : Q) : M unit :=
  exec Particle_call this 0 0;
  exec createSprite this x y;
  modify_particle this (set_base (mkBaseHash None)).

(** [function StrongConjugateBase(sketch,x,y)] run on [this]. *)
Definition StrongConjugateBase_call (this : nat) (x y : Q) : M unit :=
  exec ConjugateBase_call this 0 0;
  exec createSprite this x y;
  modify_proton this (set_release_after_range (5000, 10000)).

(** [function WeakConjugateBase(sketch,x,y)] run on [this]. *)
Definition WeakConjugateBase_call (this : nat) (x y : Q) : M unit :=
  exec ConjugateBase_call this 0 0;
  exec createSprite this x y;
  modify_proton this (set_release_after_range (0, 2000)).

(** [new C(p, x, y)]: a fresh object with prototype [C.prototype], then the
    constructor body. *)
Definition new (c : ParticleClass) (x y : Q) : M nat :=
  do this <- (fun w => Some (fresh (dom (heap w)), w));
  exec put_particle this (mkParticle c None NoProps);
  exec match c with
       | Particle_ => Particle_call this x y
       | ConjugateBase_ => ConjugateBase_call this x y
       | Proton_ => Proton_call this x y
       | StrongConjugateBase_ => StrongConjugateBase_call this x y
       | WeakConjugateBase_ => WeakConjugateBase_call this x y
       end;
  ret this.

(** [ConjugateBase.prototype.reacts_with["Proton"]] *)
Definition reacts_with_Proton (baseSprite protonSprite : nat) : M unit :=
  do bs <- get_sprite baseSprite;
  do ps <- get_sprite protonSprite;
  do protonParticle <- deref (sprite_particle ps);
  do pp <- get_particle protonParticle;
  do pbase <- deref (base pp);
  if truthy_ref (base_particle pbase) then ret tt else
  do baseParticle <- deref (sprite_particle bs);
  do bp <- get_particle baseParticle;
  do bproton <- deref (proton bp);
  if truthy_ref (particle bproton) then ret tt else
  (* Allow base to capture the proton; set random release time *)
  do now <- Date_now_;
  do r <- Math_random_;
  exec modify_proton baseParticle
    (set_release_after
       (Some (now + fst (release_after_range bproton)
                  + snd (release_after_range bproton) * r)));
  (* Create references between joined particles *)
  exec modify_proton baseParticle (set_particle (Some protonParticle));
  exec assign_base_particle protonParticle (Some baseParticle);
  (* Preserve original proton drawing order and place just above base *)
  do ps' <- get_sprite protonSprite;
  exec modify_proton baseParticle (set_restore_depth (depth ps'));
  do bs' <- get_sprite baseSprite;
  modify_sprite protonSprite (set_depth (Some (to_number (depth bs') + (1 # 2)))).

(** [ConjugateBase.prototype.update] *)
Definition ConjugateBase_update (this : nat) : M unit :=
  do p <- get_particle this;
  do h <- deref (proton p);
  if truthy_num (release_after h) then
    do now <- Date_now_;
    if Qltb now (to_number (release_after h)) then
      (* Not yet released; update proton location *)
      do pp <- deref (particle h);
      do ppv <- get_particle pp;
      do protonSprite <- deref (sprite ppv);
      do baseSprite <- deref (sprite p);
      do bs <- get_sprite baseSprite;
      exec modify_sprite protonSprite (set_position_x (position_x bs + offset_x h));
      do bs' <- get_sprite baseSprite;
      modify_sprite protonSprite (set_position_y (position_y bs' + offset_y h))
    else if Qltb now (to_number (release_after h) + post_release_duration h) then
      (* Released; do not update proton location to allow separation *)
      ret tt
    else
      (* Restore proton's drawing order *)
      do pp <- deref (particle h);
      do ppv <- get_particle pp;
      do protonSprite <- deref (sprite ppv);
      exec modify_sprite protonSprite (set_depth (restore_depth h));
      exec modify_proton this (set_restore_depth None);
      (* Release complete; allow particles to join *)
      exec modify_proton this (set_release_after None);
      exec assign_base_particle pp None;
      modify_proton this (set_particle None)
  else ret tt.

(** [particle.update()]: the method found on the prototype chain. *)
Definition update (this : nat) : M unit :=
  do p <- get_particle this;
  match proto p with
  | ConjugateBase_ | StrongConjugateBase_ | WeakConjugateBase_ =>
      ConjugateBase_update this
  | Particle_ | Proton_ => ret tt
  end.

(** [particle.reacts_with]: the table found on the prototype chain, as its
    own keys in order with their reaction. *)
Definition reacts_with (c : ParticleClass) : list (string * (nat -> nat -> M unit)) :=
  match c with
  | ConjugateBase_ | StrongConjugateBase_ | WeakConjugateBase_ =>
      [("Proton"%string, reacts_with_Proton)]
  | Particle_ | Proton_ => []
  end.

(** ** beaker/beaker.js *)

(** A particle class as [addParticles]/[removeParticles] receive it: the
    constructor function with its own [name] (which a bundler may mangle),
    the [name] property found on its prototype (undefined when no prototype
    on the chain defines one), and the prototype itself. *)
Record ParticleCtor := mkCtor {
  fn_name : string;                     (* particle_class.name *)
  prototype_name : option string;       (* particle_class.prototype.name *)
  prototype : ParticleClass
}.

(** A property key: [undefined] used as a key is the string "undefined". *)
Definition property_key (o : option string) : string :=
  match o with Some s => s | None => "undefined"%string end.

(** [function Beaker(sketch, solution_width, solution_height, x, y,
    solution_x, solution_y)] *)
Definition Beaker_new (solution_width solution_height x y : Q)
    (solution_x solution_y : option Q) : Beaker :=
  let sx := match solution_x with None => x | Some v => v end in
  let sy := match solution_y with None => y | Some v => v end in
  mkBeaker x y (x + 250) (y + 30) [] ∅
    (mkSolution sx sy solution_width solution_height
                (sx + solution_width) (sy + solution_height)).

(** The same constructor with every addition rounded by [fl], as the
    machine computes it. *)
Definition Beaker_new_fl (fl : Q -> Q) (solution_width solution_height x y : Q)
    (solution_x solution_y : option Q) : Beaker :=
  let sx := match solution_x with None => x | Some v => v end in
  let sy := match solution_y with None => y | Some v => v end in
  mkBeaker x y (fl (x + 250)) (fl (y + 30)) [] ∅
    (mkSolution sx sy solution_width solution_height
                (fl (sx + solution_width)) (fl (sy + solution_height))).

(** p5.play groups: [add] appends a sprite that is not yet a member. *)
Definition Group_add (s : nat) (g : list nat) : list nat :=
  if decide (s ∈ g) then g else g ++ [s].

Definition set_all_particle_sprites (v : list nat) (b : Beaker) : Beaker :=
  mkBeaker (bk_x b) (bk_y b) (fg_x b) (fg_y b) v (particles b) (solution b).
Definition set_particles (v : gmap string (list nat)) (b : Beaker) : Beaker :=
  mkBeaker (bk_x b) (bk_y b) (fg_x b) (fg_y b) (all_particle_sprites b) v (solution b).

(** [Beaker.prototype.randomPoint] *)
Definition randomPoint (particle_radius : Q) : M (option (Q * Q)) :=
  do b <- get_beaker;
  if Qgeb (particle_radius * 2) (sol_width (solution b)) ||
     Qgeb (particle_radius * 2) (sol_height (solution b))
  then ret None
  else
    let min_x := sol_x (solution b) + particle_radius in
    let min_y := sol_y (solution b) + particle_radius in
    (* Width & height values are reduced by 1 particle radius on each side *)
    let max_width := sol_width (solution b) - 2 * particle_radius in
    let max_height := sol_height (solution b) - 2 * particle_radius in
    do rx <- Math_random_;
    do ry <- Math_random_;
    ret (Some (min_x + rx * max_width, min_y + ry * max_height)).

(** [Beaker.prototype.randomPoint] with the result of every arithmetic
    operation rounded by [fl], as the machine computes it; with the identity
    for [fl] this is [randomPoint]. *)
Definition randomPoint_fl (fl : Q -> Q) (particle_radius : Q) : M (option (Q * Q)) :=
  do b <- get_beaker;
  if Qgeb (fl (particle_radius * 2)) (sol_width (solution b)) ||
     Qgeb (fl (particle_radius * 2)) (sol_height (solution b))
  then ret None
  else
    let min_x := fl (sol_x (solution b) + particle_radius) in
    let min_y := fl (sol_y (solution b) + particle_radius) in
    (* Width & height values are reduced by 1 particle radius on each side *)
    let max_width := fl (sol_width (solution b) - fl (2 * particle_radius)) in
    let max_height := fl (sol_height (solution b) - fl (2 * particle_radius)) in
    do rx <- Math_random_;
    do ry <- Math_random_;
    ret (Some (fl (min_x + fl (rx * max_width)), fl (min_y + fl (ry * max_height)))).

(** [Beaker.prototype.initParticleGroup].  The map [particles] holds the own
    properties of the object [this.particles]; see [inherited_key] for the
    keys the object finds on [Object.prototype]. *)
Definition initParticleGroup (particle_class : string) : M unit :=
  do b <- get_beaker;
  match particles b !! particle_class with
  | Some _ => ret tt
  | None => put_beaker (set_particles (<[particle_class := []]> (particles b)) b)
  end.

(** [Beaker.prototype.addParticle] *)
Definition addParticle (particle_key : string) (particle : nat) : M unit :=
  do b <- get_beaker;
  do g <- deref (particles b !! particle_key);
  do pv <- get_particle particle;
  do s <- deref (sprite pv);
  exec put_beaker (set_particles (<[particle_key := Group_add s g]> (particles b)) b);
  do b' <- get_beaker;
  put_beaker (set_all_particle_sprites (Group_add s (all_particle_sprites b')) b').

(** The loop of [Beaker.prototype.addParticles]. *)
Fixpoint addParticles_loop (particle_class : ParticleCtor) (particle_name : string)
    (quantity : nat) : M unit :=
  match quantity with
  | O => ret tt
  | S quantity' =>
      let particle_radius := collider_radius (prototype particle_class) in
      do location <- randomPoint particle_radius;
      exec match location with
           | Some (x, y) =>
               do particle <- new (prototype particle_class) x y;
               addParticle particle_name particle
           | None => ret tt
           end;
      addParticles_loop particle_class particle_name quantity'
  end.

(** [Beaker.prototype.addParticles] *)
Definition addParticles (particle_class : ParticleCtor) (quantity : nat) : M unit :=
  let particle_name := property_key (prototype_name particle_class) in
  exec initParticleGroup particle_name;
  addParticles_loop particle_class particle_name quantity.

(** Modelled from the spec: [Particle.prototype.remove], which
    [removeParticles] calls on each particle and which is not among the
    sources.  The spec has every particle in one per-type group and in the
    all-particles set, and "removing a particle removes it from both". *)
Definition Particle_remove (this : nat) : M unit :=
  do p <- get_particle this;
  do s <- deref (sprite p);
  do b <- get_beaker;
  put_beaker (set_all_particle_sprites (filter (λ t, t ≠ s) (all_particle_sprites b))
             (set_particles (filter (λ t, t ≠ s) <$> particles b) b)).

(** The body of the loop of [Beaker.prototype.removeParticles] when the
    counter [i] is [i' + 1]: the sprite at index [i'] of the group goes. *)
Definition removeParticles_turn (particle_name : string) (i' : nat) : M unit :=
  do b <- get_beaker;
  do g <- deref (particles b !! particle_name);
  do sprite <- deref (g !! i');
  do sv <- get_sprite sprite;
  do p <- deref (sprite_particle sv);
  exec Particle_remove p;
  modify_sprite sprite (set_sprite_particle None).

(** The loop of [Beaker.prototype.removeParticles]: [i] counts down to 1 and
    the sprite at index [i-1] of the group goes. *)
Fixpoint removeParticles_loop (particle_name : string) (i : nat) : M unit :=
  match i with
  | O => ret tt
  | S i' =>
      do b <- get_beaker;
      do g <- deref (particles b !! particle_name);
      do sprite <- deref (g !! i');
      do sv <- get_sprite sprite;
      do p <- deref (sprite_particle sv);
      exec Particle_remove p;
      exec modify_sprite sprite (set_sprite_particle None);
      removeParticles_loop particle_name i'
  end.

(** [Beaker.prototype.removeParticles] *)
Definition removeParticles (particle_class : ParticleCtor) (quantity : nat) : M unit :=
  let particle_name := fn_name particle_class in
  do b <- get_beaker;
  do g <- deref (particles b !! particle_name);
  let num_particles := length g in
  let quantity := if (num_particles <? quantity)%nat then num_particles else quantity in
  removeParticles_loop particle_name quantity.

(** [Beaker.prototype.sprite_boundary_update] *)
Definition sprite_boundary_update (sprite : nat) (min_x min_y max_x max_y : Q) : M unit :=
  do s <- get_sprite sprite;
  exec (if overlapPoint (geometry s) min_x (position_y s) then
          modify_sprite sprite (set_velocity_x (Qabs (velocity_x s)))
        else if overlapPoint (geometry s) max_x (position_y s) then
          modify_sprite sprite (set_velocity_x (- Qabs (velocity_x s)))
        else ret tt);
  do s' <- get_sprite sprite;
  if overlapPoint (geometry s') (position_x s') min_y then
    modify_sprite sprite (set_velocity_y (Qabs (velocity_y s')))
  else if overlapPoint (geometry s') (position_x s') max_y then
    modify_sprite sprite (set_velocity_y (- Qabs (velocity_y s')))
  else ret tt.

(** p5.play's [sprite.overlap(group, callback)]: every other member of the
    group whose collider overlaps this sprite's is handed to the callback. *)
Fixpoint overlap (sprite : nat) (group : list nat) (callback : nat -> nat -> M unit)
    : M unit :=
  match group with
  | [] => ret tt
  | other :: rest =>
      do a <- get_sprite sprite;
      do o <- get_sprite other;
      exec (if negb (sprite =? other)%nat && overlap_test a o
            then callback sprite other else ret tt);
      overlap sprite rest callback
  end.

(** [Beaker.prototype.sprite_resolve_collisions] *)
Fixpoint sprite_resolve_collisions (sprite : nat)
    (reacts_with : list (string * (nat -> nat -> M unit))) : M unit :=
  match reacts_with with
  | [] => ret tt
  | (target_key, reaction) :: rest =>
      do b <- get_beaker;
      exec match particles b !! target_key with
           | Some target_group => overlap sprite target_group reaction
           | None => ret tt
           end;
      sprite_resolve_collisions sprite rest
  end.

(** The body of the loop of [Beaker.prototype.update_particles]. *)
Definition update_sprite (sprite : nat) (min_x min_y max_x max_y : Q) : M unit :=
  do sv <- get_sprite sprite;
  let particle := sprite_particle sv in
  exec sprite_boundary_update sprite min_x min_y max_x max_y;
  do particle <- deref particle;
  do pv <- get_particle particle;
  exec sprite_resolve_collisions sprite (reacts_with (proto pv));
  update particle.

Fixpoint update_particles_loop (sprites : list nat) (min_x min_y max_x max_y : Q)
    : M unit :=
  match sprites with
  | [] => ret tt
  | sprite :: rest =>
      exec update_sprite sprite min_x min_y max_x max_y;
      update_particles_loop rest min_x min_y max_x max_y
  end.

(** [Beaker.prototype.update_particles]; no reaction and no update adds to or
    removes from [all_particle_sprites], so the indexed loop visits the
    sprites it holds on entry, in order. *)
Definition update_particles : M unit :=
  do b <- get_beaker;
  (* Bounds of beaker solution *)
  let min_x := sol_x (solution b) in
  let max_x := sol_max_x (solution b) in
  let min_y := sol_y (solution b) in
  let max_y := sol_max_y (solution b) in
  update_particles_loop (all_particle_sprites b) min_x min_y max_x max_y.

(** [Beaker.prototype.step] *)
Definition step : M unit := update_particles.

End Sketch.

(** ** The classes of the repository *)

Definition WeakConjugateBase : ParticleCtor :=
  mkCtor "WeakConjugateBase" (Some "WeakConjugateBase"%string) WeakConjugateBase_.
Definition StrongConjugateBase : ParticleCtor :=
  mkCtor "StrongConjugateBase" (Some "StrongConjugateBase"%string) StrongConjugateBase_.
(** Modelled from the spec: the per-type grouping maps a type name to the
    particles of that type, and the reaction table of a conjugate base names
    the protons' group "Proton", as does the beaker's own example
    ([beaker.particles["Proton"].sprites]).  The file that gives [Proton.prototype.name]
    its value is not among the sources ([particles.js] predates the property,
    which [weak.js] sets for the two conjugate bases); protons are taken to
    be registered under their type name, as the conjugate bases are. *)
Definition Proton : ParticleCtor :=
  mkCtor "Proton" (Some "Proton"%string) Proton_.

Definition empty_world (b : Beaker) : World := mkWorld b ∅ ∅ 0 0.

(** ** The engine's circle colliders

    p5.play on a circle collider of radius [r] centred at the sprite's
    position plus the collider offset: a point overlaps when it is closer
    than [r] to the centre, two sprites overlap when their centres are
    closer than the sum of the radii. *)
Definition circle_overlapPoint (g : Q * Q * (Q * Q * Q)) (px py : Q) : bool :=
  let '(x, y, (ox, oy, r)) := g in
  Qltb ((x + ox - px) * (x + ox - px) + (y + oy - py) * (y + oy - py)) (r * r).

Definition circle_overlap (a b : Sprite) : bool :=
  let '(ax, ay, (aox, aoy, ar)) := geometry a in
  let '(bx, by_, (box, boy, br)) := geometry b in
  Qltb ((ax + aox - (bx + box)) * (ax + aox - (bx + box))
        + (ay + aoy - (by_ + boy)) * (ay + aoy - (by_ + boy)))
       ((ar + br) * (ar + br)).

(** ** Doubles

    A rounding sends the exact result of an operation to a machine number:
    it is monotone and leaves 0 and the numbers it returns as they are.
    Every rounding mode of IEEE 754 is one as long as nothing overflows. *)
Record rounding (fl : Q -> Q) : Prop := mkRounding {
  fl_monotone : forall a b, a <= b -> fl a <= fl b;
  fl_idempotent : forall q, fl (fl q) == fl q;
  fl_zero : fl 0 == 0
}.

(** The nearest integer, a tie going to the even one. *)
Definition round_half_even (q : Q) : Z :=
  let f := Qfloor q in
  match Qcompare (q - inject_Z f) (1 # 2) with
  | Lt => f
  | Gt => (f + 1)%Z
  | Eq => if Z.even f then f else (f + 1)%Z
  end.

(** The exponent of the binade of a positive number: [2 ^ ilog2 q <= q <
    2 ^ (ilog2 q + 1)]. *)
Definition ilog2 (q : Q) : Z :=
  let e := (Z.log2 (Qnum q) - Z.log2 (Zpos (Qden q)))%Z in
  if Qle_bool (2 ^ e) q then e else (e - 1)%Z.

(** The default rounding of a JavaScript number: to the nearest number with
    a significand of 53 bits, a tie going to the even significand.  The
    exponent is not bounded here: no overflow to [Infinity] and no gradual
    underflow. *)
Definition binary64_pos (q : Q) : Q :=
  let e := (ilog2 q - 52)%Z in
  Qred (inject_Z (round_half_even (q / 2 ^ e)) * 2 ^ e).

Definition binary64 (q : Q) : Q :=
  match Qcompare q 0 with
  | Eq => 0
  | Gt => binary64_pos q
  | Lt => - binary64_pos (- q)
  end.

(** ** Bond references *)

(** [b.proton.particle] and [p.base.particle] read from the particle store;
    [None] when the particle or the record is missing or the reference is
    null. *)
Definition proton_of (h : gmap nat Particle) (b : nat) : option nat :=
  v ← h !! b; r ← proton v; particle r.
Definition base_of (h : gmap nat Particle) (p : nat) : option nat :=
  v ← h !! p; r ← base v; base_particle r.

(** Base [b] and proton [p] are bonded: each references the other. *)
Definition bonded (h : gmap nat Particle) (b p : nat) : Prop :=
  proton_of h b = Some p /\ base_of h p = Some b.

(** Bond references are symmetric. *)
Definition symmetric (h : gmap nat Particle) : Prop :=
  forall b p, proton_of h b = Some p <-> base_of h p = Some b.

(** ** Worlds reached by the bond state machine *)

(** The bond record of a base that captured proton [p] at time [now] with
    random fraction [r], the proton's sprite having had depth [d]. *)
Definition captured (now r : Q) (p : nat) (d : option Q) (h : ProtonHash) : ProtonHash :=
  mkProtonHash (Some p) (offset_x h) (offset_y h) d
    (release_after_range h) (post_release_duration h)
    (Some (now + fst (release_after_range h) + snd (release_after_range h) * r)).

(** The world after base [b] (sprite [bsid]) captured proton [p] (sprite
    [psid]) in world [w], the clock reading [now] and the random source [r]. *)
Definition bond_world (now r : Q) (w : World) (bsid psid b p : nat)
    (bs ps : Sprite) (bp pp : Particle) (bh : ProtonHash) : World :=
  mkWorld (beaker w)
    (<[psid := set_depth (Some (to_number (depth bs) + (1 # 2))) ps]> (sprites w))
    (<[b := set_proton (captured now r p (depth ps) bh) bp]>
       (<[p := set_base (mkBaseHash (Some b)) pp]> (heap w)))
    (S (clock_reads w)) (S (random_reads w)).

(** The world after one more read of the clock. *)
Definition tick (w : World) : World :=
  mkWorld (beaker w) (sprites w) (heap w) (S (clock_reads w)) (random_reads w).

(** The bond record once the release is complete. *)
Definition released (h : ProtonHash) : ProtonHash :=
  mkProtonHash None (offset_x h) (offset_y h) None
    (release_after_range h) (post_release_duration h) None.

(** ** Groups *)

(** A sprite of a group is linked when it carries a particle whose own
    sprite it is: [sprite.particle.sprite === sprite]. *)
Definition linked (w : World) (sid : nat) : Prop :=
  (sv ← sprites w !! sid; pid ← sprite_particle sv; pv ← heap w !! pid; sprite pv)
  = Some sid.

(** The beaker with the sprites of [L] taken out of every group. *)
Definition Beaker_without (L : list nat) (b : Beaker) : Beaker :=
  set_all_particle_sprites (filter (λ t, t ∉ L) (all_particle_sprites b))
    (set_particles (filter (λ t, t ∉ L) <$> particles b) b).

(** ** Well-formed worlds *)

Definition is_base_class (c : ParticleClass) : bool :=
  match c with
  | ConjugateBase_ | StrongConjugateBase_ | WeakConjugateBase_ => true
  | Particle_ | Proton_ => false
  end.

(** The bond record of a particle is usable in store [h]: a truthy
    [release_after] comes with a bonded particle that has a [base] record. *)
Definition bond_ok (h : gmap nat Particle) (pv : Particle) : bool :=
  match proton pv with
  | Some r =>
      implb (truthy_num (release_after r))
        match particle r with
        | Some pp => match h !! pp with
                     | Some ppv => truthy_ref (base ppv)
                     | None => false
                     end
        | None => false
        end
  | None => true
  end.

(** A stored particle has its sprite, a conjugate base has its [proton]
    record, and the bond record is usable. *)
Definition particle_ok (w : World) (pv : Particle) : bool :=
  match sprite pv with
  | Some sid => truthy_ref (sprites w !! sid)
  | None => false
  end
  && implb (is_base_class (proto pv)) (truthy_ref (proton pv))
  && bond_ok (heap w) pv.

(** A sprite of the all-particles group is stored and carries a stored
    particle. *)
Definition registered_ok (w : World) (sid : nat) : bool :=
  match sprites w !! sid with
  | Some sv => match sprite_particle sv with
               | Some pid => truthy_ref (heap w !! pid)
               | None => false
               end
  | None => false
  end.

(** A sprite of the "Proton" group carries a particle with a [base] record. *)
Definition proton_sprite_ok (w : World) (sid : nat) : bool :=
  match sprites w !! sid with
  | Some sv => match sprite_particle sv with
               | Some pid => match heap w !! pid with
                             | Some pv => truthy_ref (base pv)
                             | None => false
                             end
               | None => false
               end
  | None => false
  end.

(** The worlds [step] is meant to run on. *)
Definition WF (w : World) : Prop :=
  map_Forall (λ _ pv, particle_ok w pv = true) (heap w) /\
  Forall (λ sid, registered_ok w sid = true) (all_particle_sprites (beaker w)) /\
  Forall (λ sid, proton_sprite_ok w sid = true)
         (default [] (particles (beaker w) !! "Proton"%string)).

(** A particle keeps its prototype, its sprite and which records it owns. *)
Definition same_shape (pv pv' : Particle) : Prop :=
  proto pv' = proto pv /\ sprite pv' = sprite pv /\
  truthy_ref (proton pv') = truthy_ref (proton pv) /\
  truthy_ref (base pv') = truthy_ref (base pv).

(** [w'] comes from [w] by writes that keep the beaker, every sprite's
    particle and collider and every particle's shape. *)
Definition evolves (w w' : World) : Prop :=
  beaker w' = beaker w /\
  (forall sid sv, sprites w !! sid = Some sv ->
     exists sv', sprites w' !! sid = Some sv' /\
                 sprite_particle sv' = sprite_particle sv /\
                 collider sv' = collider sv) /\
  (forall pid pv, heap w !! pid = Some pv ->
     exists pv', heap w' !! pid = Some pv' /\ same_shape pv pv').

(** Sprite [sid] carries a stored particle built from a conjugate-base
    prototype. *)
Definition base_sprite (w : World) (sid : nat) : Prop :=
  exists bs b bp, sprites w !! sid = Some bs /\ sprite_particle bs = Some b /\
                  heap w !! b = Some bp /\ is_base_class (proto bp) = true.

(** ** Worlds built through the beaker's operations *)

(** The own properties each constructor leaves on a new instance. *)
Definition init_props (c : ParticleClass) : OwnProps :=
  match c with
  | Particle_ => NoProps
  | Proton_ => HasBase (mkBaseHash None)
  | ConjugateBase_ => HasProton (mkProtonHash None 10 (-10) None (0, 5000) 750 None)
  | StrongConjugateBase_ =>
      HasProton (mkProtonHash None 10 (-10) None (5000, 10000) 750 None)
  | WeakConjugateBase_ =>
      HasProton (mkProtonHash None 10 (-10) None (0, 2000) 750 None)
  end.

(** While a constructor runs on [this]: [w] differs from the world [w0] it
    started in by the particle stored under [this] and by new sprites. *)
Definition grown (w0 w : World) (this : nat) (P : Particle) : Prop :=
  heap w = <[this := P]> (heap w0) /\ beaker w = beaker w0 /\
  clock_reads w = clock_reads w0 /\
  (forall sid sv, sprites w0 !! sid = Some sv -> sprites w !! sid = Some sv).

(** ... and the particle has its sprite: a new one, placed at (x, y), with
    the class's collider, pointing back to the particle. *)
Definition built (w0 w : World) (this : nat) (P : Particle) (x y : Q) : Prop :=
  grown w0 w this P /\
  exists sm svm,
    sprite P = Some sm /\ sprites w0 !! sm = None /\ sprites w !! sm = Some svm /\
    sprite_particle svm = Some this /\
    collider svm = (0, 0, collider_radius (proto P)) /\
    position_x svm = x /\ position_y svm = y.

(** A sprite's collider is narrower and lower than the solution. *)
Definition fits (sol : Solution) (sv : Sprite) : Prop :=
  0 <= snd (collider sv) /\
  snd (collider sv) * 2 < sol_width sol /\ snd (collider sv) * 2 < sol_height sol.

(** Every sprite of the all-particles group fits the solution. *)
Definition placed (w : World) : Prop :=
  Forall (λ sid, exists sv, sprites w !! sid = Some sv /\
                            fits (solution (beaker w)) sv)
         (all_particle_sprites (beaker w)).

(** Every sprite of every per-type group is linked to its particle. *)
Definition groups_linked (w : World) : Prop :=
  forall k g, particles (beaker w) !! k = Some g -> Forall (linked w) g.

(** A class that goes into the "Proton" group builds protons. *)
Definition registers_protons_only (cls : ParticleCtor) : Prop :=
  property_key (prototype_name cls) = "Proton"%string -> prototype cls = Proton_.

Definition Good (w : World) : Prop :=
  WF w /\ symmetric (heap w) /\ placed w /\ groups_linked w.

(** The solution's far edges are where the constructor puts them. *)
Definition solution_sized (sol : Solution) : Prop :=
  sol_max_x sol == sol_x sol + sol_width sol /\
  sol_max_y sol == sol_y sol + sol_height sol.

Section Reachable.

Variable Date_now : nat -> Q.
Variable Math_random : nat -> Q.
Variable createSprite_depth : nat -> Q.
Variable overlapPoint : Q * Q * (Q * Q * Q) -> Q -> Q -> bool.
Variable overlap_test : Sprite -> Sprite -> bool.

(** The worlds a sketch reaches from a new beaker through [addParticles],
    [removeParticles] and [step], with the engine moving sprites in between
    (when it draws them, p5.play adds a sprite's velocity to its position;
    any new position is allowed here). *)
Inductive reachable : World -> Prop :=
  | reachable_new solution_width solution_height x y solution_x solution_y :
      reachable (empty_world
                   (Beaker_new solution_width solution_height x y solution_x solution_y))
  | reachable_addParticles w cls quantity w' :
      reachable w -> registers_protons_only cls ->
      addParticles Math_random createSprite_depth cls quantity w = Some (tt, w') ->
      reachable w'
  | reachable_removeParticles w cls quantity w' :
      reachable w ->
      removeParticles cls quantity w = Some (tt, w') ->
      reachable w'
  | reachable_step w w' :
      reachable w ->
      step Date_now Math_random overlapPoint overlap_test w = Some (tt, w') ->
      reachable w'
  | reachable_moved w sid sv x y :
      reachable w -> sprites w !! sid = Some sv ->
      reachable (mkWorld (beaker w)
                         (<[sid := set_position_x x (set_position_y y sv)]> (sprites w))
                         (heap w) (clock_reads w) (random_reads w)).

End Reachable.

(** ** Notions for the further properties *)

(** How many sprites the constructor chain of a class creates. *)
Definition sprites_per_instance (c : ParticleClass) : nat :=
  match c with
  | Particle_ => 1
  | ConjugateBase_ | Proton_ => 2
  | StrongConjugateBase_ | WeakConjugateBase_ => 3
  end.

(** The velocity [randomVelocity] computes from the random fraction [r]. *)
Definition velocity_of (c : ParticleClass) (r : Q) : Q :=
  max_velocity c - r * 2 * max_velocity c.

(** The sprite [createSprite] makes for particle [this]. *)
Definition created_sprite (depth_ vx vy : Q) (c : ParticleClass) (this : nat) (x y : Q)
    : Sprite :=
  mkSprite x y vx vy (Some depth_) (0, 0, collider_radius c) (Some this).

(** While the constructors run on [this]: [k] new sprites exist, each
    pointing back to [this] with the class's collider; the one [this.sprite]
    names sits at [(x, y)], the others at the origin. *)
Definition constructed (w0 w : World) (this : nat) (P : Particle) (k : nat) (x y : Q)
    : Prop :=
  heap w = <[this := P]> (heap w0) /\ beaker w = beaker w0 /\
  clock_reads w = clock_reads w0 /\
  random_reads w = (random_reads w0 + 5 * k)%nat /\
  size (sprites w) = (size (sprites w0) + k)%nat /\
  (forall sid sv, sprites w0 !! sid = Some sv -> sprites w !! sid = Some sv) /\
  (forall sid sv, sprites w0 !! sid = None -> sprites w !! sid = Some sv ->
     sprite_particle sv = Some this /\
     collider sv = (0, 0, collider_radius (proto P)) /\
     if decide (sprite P = Some sid)
     then position_x sv = x /\ position_y sv = y
     else position_x sv = 0 /\ position_y sv = 0).

(** Two states of one sprite with the same speed along each axis, the same
    collider and the same particle. *)
Definition same_speed (a b : Sprite) : Prop :=
  Qabs (velocity_x b) == Qabs (velocity_x a) /\
  Qabs (velocity_y b) == Qabs (velocity_y a) /\
  collider b = collider a /\ sprite_particle b = sprite_particle a.

(** [w] has the beaker of [w0], the same sprites up to [same_speed] and the
    same particles up to [same_shape]; nothing was created or deleted. *)
Definition stores_kept (w0 w : World) : Prop :=
  beaker w = beaker w0 /\
  (forall sid, option_Forall2 same_speed (sprites w0 !! sid) (sprites w !! sid)) /\
  (forall pid, option_Forall2 same_shape (heap w0 !! pid) (heap w !! pid)).

(** The groups of a beaker partition its all-particles group: no sprite is
    listed twice, every sprite of a per-type group is in the all-particles
    group and the other way round, and no sprite is in two per-type groups. *)
Definition partitioned (b : Beaker) : Prop :=
  NoDup (all_particle_sprites b) /\
  (forall k g, particles b !! k = Some g -> NoDup g) /\
  (forall s, s ∈ all_particle_sprites b <->
             exists k g, particles b !! k = Some g /\ s ∈ g) /\
  (forall k1 k2 g1 g2 s, particles b !! k1 = Some g1 -> particles b !! k2 = Some g2 ->
     s ∈ g1 -> s ∈ g2 -> k1 = k2).

(** The property names a plain object such as [this.particles = {}]
    inherits from [Object.prototype].  Under these keys
    [this.particles[key]] is truthy without being a group, so
    [initParticleGroup] creates no group and [addParticle] throws when it
    reads [.sprites.add]; a class has to be named otherwise to be added. *)
Definition Object_prototype_keys : list string :=
  ["constructor"; "__defineGetter__"; "__defineSetter__"; "hasOwnProperty";
   "__lookupGetter__"; "__lookupSetter__"; "isPrototypeOf";
   "propertyIsEnumerable"; "toString"; "valueOf"; "__proto__";
   "toLocaleString"]%string.

Definition inherited_key (key : string) : bool :=
  bool_decide (key ∈ Object_prototype_keys).

(** Sprite [sid] is stored and has the velocity [(vx, vy)]. *)
Definition moving (sid : nat) (vx vy : Q) (w : World) : Prop :=
  exists sv, sprites w !! sid = Some sv /\ velocity_x sv = vx /\ velocity_y sv = vy.

(** The velocity component [sprite_boundary_update] leaves, from the old one
    and the tests at the near (left, top) and the far (right, bottom) edge. *)
Definition reflected (at_near at_far : bool) (v : Q) : Q :=
  if at_near then Qabs v else if at_far then - Qabs v else v.

(** ** Example worlds *)

(** The world a run ends in ([w] itself if the run throws). *)
Definition world_after {A} (m : M A) (w : World) : World :=
  match m w with Some (_, w') => w' | None => w end.

(** A new sketch with the default 100 x 100 beaker at the origin. *)
Definition fresh_world : World := empty_world (Beaker_new 100 100 0 0 None None).

(** Constant clocks and random sources; an engine that draws sprites in
    creation order. *)
Definition always (q : Q) : nat -> Q := fun _ => q.
Definition creation_order : nat -> Q := fun n => inject_Z (Z.of_nat n).

(** One proton and one weak conjugate base, both placed with
    [Math.random() = 0]: the proton at (6,6), the base at (16,16), their
    colliders overlapping. *)
Definition pair_world : World :=
  world_after (exec addParticles (always 0) creation_order Proton 1;
               addParticles (always 0) creation_order WeakConjugateBase 1)
              fresh_world.

(** [pair_world] after one step taken at clock time 0. *)
Definition pair_world_stepped : World :=
  world_after (step (always 0) (always 0) circle_overlapPoint circle_overlap)
              pair_world.

(** Three protons, added one after the other. *)
Definition three_protons : World :=
  world_after (addParticles (always (1 # 2)) creation_order Proton 3) fresh_world.

(** Two weak conjugate bases and no proton. *)
Definition bases_only : World :=
  world_after (addParticles (always (1 # 2)) creation_order WeakConjugateBase 2)
              fresh_world.

(** A class whose function name a bundler has shortened to "e" while its
    prototype still says "WeakConjugateBase". *)
Definition mangled_WeakConjugateBase : ParticleCtor :=
  mkCtor "e" (Some "WeakConjugateBase"%string) WeakConjugateBase_.

(** Two weak conjugate bases added through the mangled class. *)
Definition mangled_world : World :=
  world_after (addParticles (always (1 # 2)) creation_order
                            mangled_WeakConjugateBase 2)
              fresh_world.

(** A beaker whose solution is 30 wide: too narrow for a conjugate base
    (diameter 32). *)
Definition narrow_world : World := empty_world (Beaker_new 30 100 0 0 None None).

(** [pair_world] after its base (sprite 4) captured its proton (sprite 1)
    at clock time 1000 with random fraction 1/2: the release is due at
    2000. *)
Definition pair_world_bonded : World :=
  world_after (reacts_with_Proton (always 1000) (always (1 # 2)) 4 1) pair_world.

(** Two protons and one weak conjugate base, all placed with
    [Math.random() = 0]: the protons (sprites 1 and 3) at (6,6), the base
    (sprite 6) at (16,16). *)
Definition crowded_world : World :=
  world_after (exec addParticles (always 0) creation_order Proton 2;
               addParticles (always 0) creation_order WeakConjugateBase 1)
              fresh_world.

(** A clock that reads 1000 first and 5000 from then on. *)
Definition late_clock : nat -> Q := fun n => match n with O => 1000 | S _ => 5000 end.

(** One proton added with [Math.random() = 3/4], which gives it the velocity
    (-3/2, -3/2), and then moved by the engine to (3, 3), where its collider
    (radius 6) reaches over the left and the top edge of the solution. *)
Definition edge_world : World :=
  let w := world_after (addParticles (always (3 # 4)) creation_order Proton 1)
                       fresh_world in
  match sprites w !! 1%nat with
  | Some sv =>
      mkWorld (beaker w)
              (<[1%nat := set_position_x 3 (set_position_y 3 sv)]> (sprites w))
              (heap w) (clock_reads w) (random_reads w)
  | None => w
  end.

(** [new Beaker(p, 40, 40, 0.3, 0)] as the machine builds it: [0.3] is the
    double nearest to 3/10 and [max_x] the rounded sum [0.3 + 40]. *)
Definition doubles_world : World :=
  empty_world (Beaker_new_fl binary64 40 40 (binary64 (3 # 10)) 0 None None).

(** The largest double below 1: [0.9999999999999999], which is [1 - 2^-53]. *)
Definition below_one : Q := 9007199254740991 # 9007199254740992.

(** ** Specifications of monadic code *)

(** Partial correctness: from a world satisfying [P], a run that returns
    ends in a world and value satisfying [Q]. *)
Definition ptriple {A} (P : World -> Prop) (m : M A) (Q : A -> World -> Prop) : Prop :=
  forall w a w', P w -> m w = Some (a, w') -> Q a w'.

(** Total correctness: from a world satisfying [P] the run returns, in a
    world and with a value satisfying [Q]. *)
Definition triple {A} (P : World -> Prop) (m : M A) (Q : A -> World -> Prop) : Prop :=
  forall w, P w -> exists a w', m w = Some (a, w') /\ Q a w'.

(** [m] keeps the invariant [I] whenever it returns. *)
Definition preserves {A} (I : World -> Prop) (m : M A) : Prop :=
  ptriple I m (fun _ => I).

(** ** Reasoning about monadic code *)

Lemma bind_Some {A B} (m : M A) (f : A -> M B) w r :
  bind m f w = Some r <-> exists a w1, m w = Some (a, w1) /\ f a w1 = Some r.
Proof.
  unfold bind. split.
  - destruct (m w) as [[a w1]|]; [eauto | discriminate].
  - intros (a & w1 & -> & H). exact H.
Qed.

Lemma deref_Some {A} (o : option A) w r :
  deref o w = Some r <-> exists a, o = Some a /\ r = (a, w).
Proof.
  destruct o; simpl; unfold ret, throw; split.
  - intros [= <-]. eauto.
  - intros (b & [= <-] & ->). reflexivity.
  - discriminate.
  - intros (b & [=] & _).
Qed.

Lemma get_sprite_Some s w r :
  get_sprite s w = Some r <-> exists v, sprites w !! s = Some v /\ r = (v, w).
Proof.
  unfold get_sprite. destruct (sprites w !! s); split.
  - intros [= <-]. eauto.
  - intros (v & [= <-] & ->). reflexivity.
  - discriminate.
  - intros (v & [=] & _).
Qed.

Lemma get_particle_Some p w r :
  get_particle p w = Some r <-> exists v, heap w !! p = Some v /\ r = (v, w).
Proof.
  unfold get_particle. destruct (heap w !! p); split.
  - intros [= <-]. eauto.
  - intros (v & [= <-] & ->). reflexivity.
  - discriminate.
  - intros (v & [=] & _).
Qed.

Lemma bind_ext {A B} (m : M A) (f g : A -> M B) w :
  (forall a w1, m w = Some (a, w1) -> f a w1 = g a w1) ->
  bind m f w = bind m g w.
Proof.
  intros H. unfold bind. destruct (m w) as [[a w1]|]; [|reflexivity].
  apply H. reflexivity.
Qed.

Lemma bind_run {A B} (m : M A) (f : A -> M B) w a w1 :
  m w = Some (a, w1) -> bind m f w = f a w1.
Proof. unfold bind. intros ->. reflexivity. Qed.

Lemma bind_fail {A B} (m : M A) (f : A -> M B) w :
  m w = None -> bind m f w = None.
Proof. unfold bind. intros ->. reflexivity. Qed.

Lemma get_sprite_run s w v :
  sprites w !! s = Some v -> get_sprite s w = Some (v, w).
Proof. unfold get_sprite. intros ->. reflexivity. Qed.

Lemma get_particle_run p w v :
  heap w !! p = Some v -> get_particle p w = Some (v, w).
Proof. unfold get_particle. intros ->. reflexivity. Qed.

Lemma deref_run {A} (o : option A) a w : o = Some a -> deref o w = Some (a, w).
Proof. intros ->. reflexivity. Qed.

Lemma modify_sprite_run s f w v :
  sprites w !! s = Some v ->
  modify_sprite s f w =
    Some (tt, mkWorld (beaker w) (<[s := f v]> (sprites w)) (heap w)
                      (clock_reads w) (random_reads w)).
Proof. unfold modify_sprite, bind, get_sprite. intros ->. reflexivity. Qed.

Lemma modify_particle_run p f w v :
  heap w !! p = Some v ->
  modify_particle p f w =
    Some (tt, mkWorld (beaker w) (sprites w) (<[p := f v]> (heap w))
                      (clock_reads w) (random_reads w)).
Proof. unfold modify_particle, bind, get_particle. intros ->. reflexivity. Qed.

Lemma modify_proton_run p f w v h :
  heap w !! p = Some v -> proton v = Some h ->
  modify_proton p f w =
    Some (tt, mkWorld (beaker w) (sprites w) (<[p := set_proton (f h) v]> (heap w))
                      (clock_reads w) (random_reads w)).
Proof.
  unfold modify_proton, bind, get_particle. intros -> ->. reflexivity.
Qed.

Lemma assign_base_particle_run p r w v b :
  heap w !! p = Some v -> base v = Some b ->
  assign_base_particle p r w =
    Some (tt, mkWorld (beaker w) (sprites w)
                      (<[p := set_base (mkBaseHash r) v]> (heap w))
                      (clock_reads w) (random_reads w)).
Proof.
  unfold assign_base_particle, bind, get_particle. intros -> ->. reflexivity.
Qed.

(** Run the first action of a sequence with the given equation. *)
Ltac mrun H := rewrite (bind_run _ _ _ _ _ H); cbn [beaker sprites heap clock_reads random_reads].

Lemma Qltb_lt a b : Qltb a b = true <-> a < b.
Proof.
  unfold Qltb. rewrite negb_true_iff. split.
  - intros H. apply Qnot_le_lt. intros Hle. apply Qle_bool_iff in Hle. congruence.
  - intros H. destruct (Qle_bool b a) eqn:E; [|reflexivity].
    apply Qle_bool_iff in E. exfalso. eapply Qlt_not_le; eauto.
Qed.

Lemma Qltb_ge a b : Qltb a b = false <-> b <= a.
Proof.
  unfold Qltb. rewrite negb_false_iff. apply Qle_bool_iff.
Qed.

Lemma truthy_num_Some q : truthy_num (Some q) = true <-> ~ q == 0.
Proof.
  simpl. rewrite negb_true_iff. split.
  - intros H Hq. apply Qeq_bool_iff in Hq. congruence.
  - intros H. destruct (Qeq_bool q 0) eqn:E; [|reflexivity].
    apply Qeq_bool_iff in E. contradiction.
Qed.

Lemma ptriple_ret {A} (P : A -> World -> Prop) (a : A) :
  ptriple (P a) (ret a) P.
Proof. intros w a' w' HP [= <- <-]. exact HP. Qed.

Lemma ptriple_bind {A B} (P : World -> Prop) (Q : A -> World -> Prop)
    (R : B -> World -> Prop) (m : M A) (f : A -> M B) :
  ptriple P m Q -> (forall a, ptriple (Q a) (f a) R) -> ptriple P (bind m f) R.
Proof.
  intros Hm Hf w b w' HP H. apply bind_Some in H as (a & w1 & H1 & H2).
  eapply Hf; [|exact H2]. eapply Hm; eauto.
Qed.

Lemma ptriple_weaken {A} (P P' : World -> Prop) (Q Q' : A -> World -> Prop) (m : M A) :
  ptriple P' m Q' -> (forall w, P w -> P' w) -> (forall a w, Q' a w -> Q a w) ->
  ptriple P m Q.
Proof. intros H HP HQ w a w' Hw Hr. apply HQ. eapply H; eauto. Qed.

Lemma ptriple_throw {A} (P : World -> Prop) (Q : A -> World -> Prop) :
  ptriple P throw Q.
Proof. intros w a w' _ [=]. Qed.

(** Reads leave the world as it is. *)
Lemma ptriple_get_sprite (P : World -> Prop) s :
  ptriple P (get_sprite s) (fun v w => P w /\ sprites w !! s = Some v).
Proof.
  intros w a w' HP H. apply get_sprite_Some in H as (v & Hv & [= <- <-]). done.
Qed.

Lemma ptriple_get_particle (P : World -> Prop) p :
  ptriple P (get_particle p) (fun v w => P w /\ heap w !! p = Some v).
Proof.
  intros w a w' HP H. apply get_particle_Some in H as (v & Hv & [= <- <-]). done.
Qed.

Lemma ptriple_get_beaker (P : World -> Prop) :
  ptriple P get_beaker (fun b w => P w /\ b = beaker w).
Proof. intros w a w' HP [= <- <-]. done. Qed.

Lemma ptriple_deref {A} (P : World -> Prop) (o : option A) :
  ptriple P (deref o) (fun a w => P w /\ o = Some a).
Proof.
  intros w a w' HP H. apply deref_Some in H as (v & -> & [= <- <-]). done.
Qed.

(** Writes to a sprite leave the particle store and the beaker as they are. *)
Lemma ptriple_modify_sprite (R : gmap nat Particle -> Beaker -> Prop) s f :
  ptriple (fun w => R (heap w) (beaker w)) (modify_sprite s f)
          (fun _ w => R (heap w) (beaker w)).
Proof.
  intros w a w' HP H. unfold modify_sprite in H.
  apply bind_Some in H as (v & w1 & H1 & H2).
  apply get_sprite_Some in H1 as (? & _ & [= <- <-]).
  injection H2 as <- <-. exact HP.
Qed.

Lemma preserves_ret {A} I (a : A) : preserves I (ret a).
Proof. intros w a' w' HI [= <- <-]. exact HI. Qed.

Lemma preserves_throw {A} I : preserves I (@throw A).
Proof. intros w a w' _ [=]. Qed.

Lemma preserves_bind {A B} I (m : M A) (f : A -> M B) :
  preserves I m -> (forall a, preserves I (f a)) -> preserves I (bind m f).
Proof.
  intros Hm Hf w b w' HI H. apply bind_Some in H as (a & w1 & H1 & H2).
  eapply Hf; [|exact H2]. eapply Hm; eauto.
Qed.

Lemma preserves_deref {A} I (o : option A) : preserves I (deref o).
Proof. destruct o; [apply preserves_ret | apply preserves_throw]. Qed.

Lemma preserves_get_sprite I s : preserves I (get_sprite s).
Proof.
  intros w a w' HI H. apply get_sprite_Some in H as (v & _ & [= <- <-]). exact HI.
Qed.

Lemma preserves_get_particle I p : preserves I (get_particle p).
Proof.
  intros w a w' HI H. apply get_particle_Some in H as (v & _ & [= <- <-]). exact HI.
Qed.

Lemma preserves_get_beaker I : preserves I get_beaker.
Proof. intros w a w' HI [= <- <-]. exact HI. Qed.

(** Writes to a sprite keep every invariant of the particle store and the
    beaker. *)
Lemma preserves_modify_sprite (R : gmap nat Particle -> Beaker -> Prop) s f :
  preserves (fun w => R (heap w) (beaker w)) (modify_sprite s f).
Proof. apply ptriple_modify_sprite. Qed.

(** Apply the structural rules as far as they go. *)
Ltac preserves_step :=
  lazymatch goal with
  | |- preserves _ (bind _ _) => apply preserves_bind; [|intros ?]
  | |- preserves _ (ret _) => apply preserves_ret
  | |- preserves _ throw => apply preserves_throw
  | |- preserves _ (deref _) => apply preserves_deref
  | |- preserves _ (get_sprite _) => apply preserves_get_sprite
  | |- preserves _ (get_particle _) => apply preserves_get_particle
  | |- preserves _ get_beaker => apply preserves_get_beaker
  end.

Lemma preserves_reader {A} I (f : World -> A) :
  preserves I (fun w => Some (f w, w)).
Proof. intros w a w' HI [= <- <-]. exact HI. Qed.

(** Writes to the sprite and particle stores keep every invariant of the
    beaker. *)
Section BeakerInvariant.
Variable R : Beaker -> Prop.
Let I := fun w => R (beaker w).

Lemma beaker_put_sprite s v : preserves I (put_sprite s v).
Proof. intros w a w' HI [= <- <-]. exact HI. Qed.

Lemma beaker_put_particle p v : preserves I (put_particle p v).
Proof. intros w a w' HI [= <- <-]. exact HI. Qed.

Lemma beaker_modify_sprite s f : preserves I (modify_sprite s f).
Proof.
  unfold modify_sprite. apply preserves_bind;
    [apply preserves_get_sprite | intros; apply beaker_put_sprite].
Qed.

Lemma beaker_modify_particle p f : preserves I (modify_particle p f).
Proof.
  unfold modify_particle. apply preserves_bind;
    [apply preserves_get_particle | intros; apply beaker_put_particle].
Qed.

Lemma beaker_modify_proton p f : preserves I (modify_proton p f).
Proof.
  unfold modify_proton. apply preserves_bind; [apply preserves_get_particle|].
  intros. apply preserves_bind; [apply preserves_deref|].
  intros. apply beaker_put_particle.
Qed.

Lemma beaker_assign_base_particle p r : preserves I (assign_base_particle p r).
Proof.
  unfold assign_base_particle. apply preserves_bind; [apply preserves_get_particle|].
  intros. apply preserves_bind; [apply preserves_deref|].
  intros. apply beaker_put_particle.
Qed.

Lemma beaker_Date_now f : preserves I (Date_now_ f).
Proof. intros w a w' HI [= <- <-]. exact HI. Qed.

Lemma beaker_Math_random f : preserves I (Math_random_ f).
Proof. intros w a w' HI [= <- <-]. exact HI. Qed.
End BeakerInvariant.

(** The structural rules for an invariant [fun w => R (beaker w)]. *)
Ltac beaker_step R :=
  lazymatch goal with
  | |- preserves _ (bind _ _) => apply preserves_bind; [|intros ?]
  | |- preserves _ (ret _) => apply preserves_ret
  | |- preserves _ throw => apply preserves_throw
  | |- preserves _ (deref _) => apply preserves_deref
  | |- preserves _ (get_sprite _) => apply preserves_get_sprite
  | |- preserves _ (get_particle _) => apply preserves_get_particle
  | |- preserves _ get_beaker => apply preserves_get_beaker
  | |- preserves _ (put_sprite _ _) => apply (beaker_put_sprite R)
  | |- preserves _ (put_particle _ _) => apply (beaker_put_particle R)
  | |- preserves _ (modify_sprite _ _) => apply (beaker_modify_sprite R)
  | |- preserves _ (modify_particle _ _) => apply (beaker_modify_particle R)
  | |- preserves _ (modify_proton _ _) => apply (beaker_modify_proton R)
  | |- preserves _ (assign_base_particle _ _) => apply (beaker_assign_base_particle R)
  | |- preserves _ (Date_now_ _) => apply (beaker_Date_now R)
  | |- preserves _ (Math_random_ _) => apply (beaker_Math_random R)
  | |- preserves _ (fun w => Some (_, w)) => apply preserves_reader
  | |- preserves _ (if _ then _ else _) => case_match
  end.

Lemma proton_base_disjoint (v : Particle) h b :
  proton v = Some h -> base v = Some b -> False.
Proof. unfold proton, base. destruct (props v); discriminate. Qed.

(** *** Removal *)

Lemma filter_not_in_nil (l : list nat) : filter (λ t, t ∉ []) l = l.
Proof.
  induction l as [|x l IH]; [done|].
  rewrite filter_cons_True by set_solver. by rewrite IH.
Qed.

Lemma Beaker_without_nil b : Beaker_without [] b = b.
Proof.
  unfold Beaker_without, set_all_particle_sprites, set_particles. simpl.
  rewrite filter_not_in_nil.
  replace (filter (λ t, t ∉ []) <$> particles b) with (particles b).
  - destruct b; reflexivity.
  - apply map_eq. intros k. rewrite lookup_fmap.
    destruct (particles b !! k); simpl; [|done]. by rewrite filter_not_in_nil.
Qed.

Lemma Beaker_without_cons s L b :
  Beaker_without [s] (Beaker_without L b) = Beaker_without (s :: L) b.
Proof.
  assert (H : forall l : list nat,
             filter (λ t, t ∉ [s]) (filter (λ t, t ∉ L) l) = filter (λ t, t ∉ s :: L) l).
  { intros l. rewrite list_filter_filter. apply list_filter_iff. set_solver. }
  unfold Beaker_without, set_all_particle_sprites, set_particles. simpl.
  rewrite H. f_equal.
  apply map_eq. intros k. rewrite !lookup_fmap.
  destruct (particles b !! k); simpl; [|done]. by rewrite H.
Qed.

Lemma Particle_remove_run p pv s w :
  heap w !! p = Some pv -> sprite pv = Some s ->
  Particle_remove p w =
    Some (tt, mkWorld (Beaker_without [s] (beaker w)) (sprites w) (heap w)
                      (clock_reads w) (random_reads w)).
Proof.
  intros Hp Hs. unfold Particle_remove.
  mrun (get_particle_run _ _ _ Hp). mrun (deref_run _ _ w Hs).
  unfold bind, get_beaker, put_beaker. simpl. do 3 f_equal.
  assert (H : forall l : list nat, filter (λ t, t ≠ s) l = filter (λ t, t ∉ [s]) l).
  { intros l. apply list_filter_iff. set_solver. }
  unfold Beaker_without, set_all_particle_sprites, set_particles. simpl.
  rewrite H. f_equal.
  apply map_eq. intros k. rewrite !lookup_fmap.
  destruct (particles (beaker w) !! k); simpl; [|done]. by rewrite H.
Qed.

Lemma linked_inv w sid :
  linked w sid ->
  exists sv pid pv, sprites w !! sid = Some sv /\ sprite_particle sv = Some pid /\
                    heap w !! pid = Some pv /\ sprite pv = Some sid.
Proof.
  unfold linked. intros H.
  destruct (sprites w !! sid) as [sv|] eqn:E1; [|done]. simpl in H.
  destruct (sprite_particle sv) as [pid|] eqn:E2; [|done]. simpl in H.
  destruct (heap w !! pid) as [pv|] eqn:E3; [|done]. simpl in H. eauto 10.
Qed.

(** One turn of the removal loop. *)
Lemma removeParticles_loop_S name i w g sid sv :
  particles (beaker w) !! name = Some g ->
  g !! i = Some sid -> linked w sid -> sprites w !! sid = Some sv ->
  removeParticles_loop name (S i) w =
    removeParticles_loop name i
      (mkWorld (Beaker_without [sid] (beaker w))
               (<[sid := set_sprite_particle None sv]> (sprites w)) (heap w)
               (clock_reads w) (random_reads w)).
Proof.
  intros Hg Hi Hl Hsv.
  destruct (linked_inv _ _ Hl) as (sv' & pid & pv & Hsv' & Hpid & Hpv & Hs).
  rewrite Hsv in Hsv'. injection Hsv' as <-.
  simpl. unfold bind at 1. unfold get_beaker at 1.
  mrun (deref_run _ _ w Hg). mrun (deref_run _ _ w Hi).
  mrun (get_sprite_run _ _ _ Hsv). mrun (deref_run _ _ w Hpid).
  mrun (Particle_remove_run _ _ _ _ Hpv Hs).
  erewrite bind_run; [|apply modify_sprite_run; simpl; exact Hsv].
  reflexivity.
Qed.

Lemma filter_keep (L l : list nat) :
  (forall x, x ∈ l -> x ∉ L) -> filter (λ t, t ∉ L) l = l.
Proof.
  induction l as [|x l IH]; [done|]. intros Hd.
  rewrite filter_cons_True by (apply Hd; left).
  rewrite IH; [done|]. intros y Hy. apply Hd. by right.
Qed.

Lemma filter_drop (L l : list nat) :
  (forall x, x ∈ l -> x ∈ L) -> filter (λ t, t ∉ L) l = [].
Proof.
  induction l as [|x l IH]; [done|]. intros Hsub.
  rewrite filter_cons_False by (intros Hn; apply Hn, Hsub; left).
  apply IH. intros y Hy. apply Hsub. by right.
Qed.

Lemma filter_middle (A L B : list nat) :
  NoDup (A ++ L ++ B) -> filter (λ t, t ∉ L) (A ++ L ++ B) = A ++ B.
Proof.
  intros Hnd. apply NoDup_app in Hnd as (_ & HA & Hnd).
  apply NoDup_app in Hnd as (_ & HL & _).
  rewrite !filter_app.
  rewrite (filter_keep L A), (filter_drop L L), (filter_keep L B); [done| |done|].
  - intros x Hx Hin. by apply (HL x).
  - intros x Hx Hin. apply (HA x Hx). apply elem_of_app. by left.
Qed.

Lemma split_range (g : list nat) j m :
  (j <= m)%nat -> g = take j g ++ drop j (take m g) ++ drop m g.
Proof.
  intros Hjm.
  rewrite <- (take_drop m g) at 1.
  rewrite <- (take_drop j (take m g)) at 1.
  rewrite take_take, Nat.min_l by done. by rewrite <- app_assoc.
Qed.

Lemma filter_removed_range (g : list nat) j m :
  NoDup g -> (j <= m)%nat ->
  filter (λ t, t ∉ drop j (take m g)) g = take j g ++ drop m g.
Proof.
  intros Hnd Hjm.
  pose proof (filter_middle (take j g) (drop j (take m g)) (drop m g)) as H.
  rewrite <- (split_range g j m Hjm) in H. apply H. exact Hnd.
Qed.

(** The removal loop started at [m] reaches, for every [j <= m], a world
    from which [j] turns remain and in which exactly the sprites at indices
    [j .. m-1] of the group have been taken out of every group. *)
Lemma removeParticles_loop_steps name w g m :
  particles (beaker w) !! name = Some g ->
  NoDup g -> Forall (linked w) g -> (m <= length g)%nat ->
  forall d j, (j + d = m)%nat ->
  exists wj,
    removeParticles_loop name m w = removeParticles_loop name j wj /\
    beaker wj = Beaker_without (drop j (take m g)) (beaker w) /\
    heap wj = heap w /\
    (forall s, s ∉ drop j (take m g) -> sprites wj !! s = sprites w !! s) /\
    (forall s, s ∈ drop j (take m g) ->
       exists sv, sprites wj !! s = Some sv /\ sprite_particle sv = None) /\
    clock_reads wj = clock_reads w /\ random_reads wj = random_reads w.
Proof.
  intros Hg Hnd Hlk Hm. induction d as [|d IH]; intros j Hj.
  - assert (j = m) as -> by lia. exists w.
    rewrite drop_ge by (rewrite length_take; lia).
    rewrite Beaker_without_nil. repeat split; try done. set_solver.
  - destruct (IH (S j) ltac:(lia)) as (w1 & Hrun & Hb & Hh & Hsame & Hgone & Hc & Hr).
    assert (Hjlt : (j < length g)%nat) by lia.
    destruct (lookup_lt_is_Some_2 g j Hjlt) as [sid Hsid].
    assert (Hsid_in : sid ∈ g) by (eapply list_elem_of_lookup_2; eauto).
    assert (Hdrop : drop j (take m g) = sid :: drop (S j) (take m g)).
    { apply drop_S. rewrite lookup_take_lt by lia. exact Hsid. }
    assert (Hnotin : sid ∉ drop (S j) (take m g)).
    { assert (Hnd' : NoDup (drop j (take m g))).
      { eapply (sublist_NoDup _ g); [exact Hnd|].
        etrans; [apply sublist_drop | apply sublist_take]. }
      rewrite Hdrop in Hnd'. apply NoDup_cons in Hnd' as [? _]. done. }
    assert (Hg1 : particles (beaker w1) !! name
                  = Some (take (S j) g ++ drop m g)).
    { rewrite Hb. unfold Beaker_without, set_particles, set_all_particle_sprites.
      simpl. rewrite lookup_fmap, Hg. simpl.
      rewrite filter_removed_range by (done || lia). done. }
    assert (Hidx : (take (S j) g ++ drop m g) !! j = Some sid).
    { rewrite lookup_app_l by (rewrite length_take; lia).
      rewrite lookup_take_lt by lia. exact Hsid. }
    assert (Hl1 : linked w1 sid).
    { unfold linked. rewrite Hsame by exact Hnotin. rewrite Hh.
      eapply Forall_forall in Hlk; [exact Hlk|exact Hsid_in]. }
    destruct (linked_inv _ _ Hl1) as (sv & _ & _ & Hsv & _).
    rewrite (removeParticles_loop_S name j w1 _ sid sv Hg1 Hidx Hl1 Hsv) in Hrun.
    eexists. split; [exact Hrun|]. simpl.
    split; [rewrite Hb, Beaker_without_cons, Hdrop; reflexivity|].
    split; [exact Hh|]. split; [|split; [|done]].
    + intros s Hs. rewrite Hdrop in Hs.
      rewrite lookup_insert_ne by set_solver. apply Hsame. set_solver.
    + intros s Hs. rewrite Hdrop in Hs.
      destruct (decide (s = sid)) as [->|Hne].
      * rewrite lookup_insert_eq. eexists; split; [reflexivity|done].
      * rewrite lookup_insert_ne by done. apply Hgone. set_solver.
Qed.

Lemma bind_assoc {A B C} (m : M A) (f : A -> M B) (g : B -> M C) w :
  bind (bind m f) g w = bind m (fun a => bind (f a) g) w.
Proof. unfold bind. destruct (m w) as [[a w1]|]; reflexivity. Qed.

(** The loop at counter [i + 1] takes the turn of index [i], then goes on
    at counter [i]. *)
Lemma removeParticles_loop_unfold name i w :
  removeParticles_loop name (S i) w =
    (exec removeParticles_turn name i; removeParticles_loop name i) w.
Proof.
  cbn [removeParticles_loop]. unfold removeParticles_turn.
  rewrite !bind_assoc. apply bind_ext. intros b w1 _.
  rewrite !bind_assoc. apply bind_ext. intros g w2 _.
  rewrite !bind_assoc. apply bind_ext. intros sid w3 _.
  rewrite !bind_assoc. apply bind_ext. intros sv w4 _.
  rewrite !bind_assoc. apply bind_ext. intros p w5 _.
  rewrite !bind_assoc. reflexivity.
Qed.

Lemma removeParticles_turn_run name i w g sid sv :
  particles (beaker w) !! name = Some g ->
  g !! i = Some sid -> linked w sid -> sprites w !! sid = Some sv ->
  removeParticles_turn name i w =
    Some (tt, mkWorld (Beaker_without [sid] (beaker w))
                      (<[sid := set_sprite_particle None sv]> (sprites w)) (heap w)
                      (clock_reads w) (random_reads w)).
Proof.
  intros Hg Hi Hl Hsv.
  destruct (linked_inv _ _ Hl) as (sv' & pid & pv & Hsv' & Hpid & Hpv & Hs).
  rewrite Hsv in Hsv'. injection Hsv' as <-.
  unfold removeParticles_turn. unfold bind at 1. unfold get_beaker at 1.
  mrun (deref_run _ _ w Hg). mrun (deref_run _ _ w Hi).
  mrun (get_sprite_run _ _ _ Hsv). mrun (deref_run _ _ w Hpid).
  mrun (Particle_remove_run _ _ _ _ Hpv Hs).
  erewrite modify_sprite_run by (simpl; exact Hsv). reflexivity.
Qed.

(** The world in which the removal loop started at [m] takes the turn of
    index [j], and what that turn does. *)
Lemma removeParticles_loop_turn name w g m j :
  particles (beaker w) !! name = Some g ->
  NoDup g -> Forall (linked w) g -> (m <= length g)%nat -> (j < m)%nat ->
  exists wS wj sid,
    removeParticles_loop name m w = removeParticles_loop name (S j) wS /\
    (S j = m -> wS = w) /\
    beaker wS = Beaker_without (drop (S j) (take m g)) (beaker w) /\
    particles (beaker wS) !! name = Some (take (S j) g ++ drop m g) /\
    g !! j = Some sid /\
    (take (S j) g ++ drop m g) !! j = Some sid /\
    removeParticles_turn name j wS = Some (tt, wj) /\
    beaker wj = Beaker_without [sid] (beaker wS) /\
    particles (beaker wj) !! name = Some (take j g ++ drop m g) /\
    (sid ∉ all_particle_sprites (beaker wj)) /\
    (exists sv, sprites wj !! sid = Some sv /\ sprite_particle sv = None) /\
    removeParticles_loop name m w = removeParticles_loop name j wj.
Proof.
  intros Hg Hnd Hlk Hm Hj.
  assert (Hjlt : (j < length g)%nat) by lia.
  destruct (lookup_lt_is_Some_2 g j Hjlt) as [sid Hsid].
  assert (Hsid_in : sid ∈ g) by (eapply list_elem_of_lookup_2; eauto).
  assert (Hdrop : drop j (take m g) = sid :: drop (S j) (take m g)).
  { apply drop_S. rewrite lookup_take_lt by lia. exact Hsid. }
  assert (Hnotin : sid ∉ drop (S j) (take m g)).
  { assert (Hnd' : NoDup (drop j (take m g))).
    { eapply (sublist_NoDup _ g); [exact Hnd|].
      etrans; [apply sublist_drop | apply sublist_take]. }
    rewrite Hdrop in Hnd'. apply NoDup_cons in Hnd' as [? _]. done. }
  assert (Hstart : exists wS,
            removeParticles_loop name m w = removeParticles_loop name (S j) wS /\
            (S j = m -> wS = w) /\
            beaker wS = Beaker_without (drop (S j) (take m g)) (beaker w) /\
            heap wS = heap w /\
            (forall s, s ∉ drop (S j) (take m g) -> sprites wS !! s = sprites w !! s)).
  { destruct (decide (S j = m)) as [E|E].
    - exists w. subst m. split; [reflexivity|]. split; [done|].
      rewrite drop_ge by (rewrite length_take; lia).
      rewrite Beaker_without_nil. done.
    - destruct (removeParticles_loop_steps name w g m Hg Hnd Hlk Hm
                  (m - S j)%nat (S j) ltac:(lia))
        as (wS & Hrun & Hb & Hh & Hsame & _).
      exists wS. done. }
  destruct Hstart as (wS & Hrun & Hfirst & Hb & Hh & Hsame).
  assert (Hg1 : particles (beaker wS) !! name = Some (take (S j) g ++ drop m g)).
  { rewrite Hb. unfold Beaker_without, set_particles, set_all_particle_sprites.
    simpl. rewrite lookup_fmap, Hg. simpl.
    rewrite filter_removed_range by (done || lia). done. }
  assert (Hidx : (take (S j) g ++ drop m g) !! j = Some sid).
  { rewrite lookup_app_l by (rewrite length_take; lia).
    rewrite lookup_take_lt by lia. exact Hsid. }
  assert (Hl1 : linked wS sid).
  { unfold linked. rewrite Hsame by exact Hnotin. rewrite Hh.
    eapply Forall_forall in Hlk; [exact Hlk|exact Hsid_in]. }
  destruct (linked_inv _ _ Hl1) as (sv & _ & _ & Hsv & _).
  pose proof (removeParticles_turn_run name j wS _ sid sv Hg1 Hidx Hl1 Hsv) as Hturn.
  eexists wS, _, sid. split; [exact Hrun|]. split; [exact Hfirst|].
  split; [exact Hb|]. split; [exact Hg1|]. split; [exact Hsid|].
  split; [exact Hidx|]. split; [exact Hturn|].
  cbn [beaker sprites]. split; [reflexivity|].
  split.
  { rewrite Hb, Beaker_without_cons, <- Hdrop.
    unfold Beaker_without, set_particles, set_all_particle_sprites.
    simpl. rewrite lookup_fmap, Hg. simpl.
    rewrite filter_removed_range by (done || lia). done. }
  split.
  { unfold Beaker_without, set_particles, set_all_particle_sprites. simpl.
    intros Hin. apply list_elem_of_filter in Hin as [Hin _]. set_solver. }
  split; [rewrite lookup_insert_eq; eexists; split; reflexivity|].
  rewrite Hrun, removeParticles_loop_unfold. by rewrite (bind_run _ _ _ _ _ Hturn).
Qed.

(** C6 (as the code has it). With [n] sprites in the group found under the
    class's own name, [removeParticles(type, quantity)] returns and removes
    [m = min quantity n] of them: the ones at the lowest indices of the group
    (the earliest added); the later-added ones stay.  It runs the loop from
    counter [m]; the loop at counter [j + 1] takes the turn of index [j] and
    goes on at counter [j]; and the turn of index [j], the first one taken
    in the world the call started in, removes the sprite that was at index
    [j] of the group on entry, the higher indices below [m] being gone by
    then: index [m - 1] goes first, index 0 last. *)
Theorem removeParticles_removes_lowest_indices cls quantity w g :
  particles (beaker w) !! fn_name cls = Some g ->
  NoDup g -> Forall (linked w) g ->
  let name := fn_name cls in
  let m := Nat.min quantity (length g) in
  exists w',
    removeParticles cls quantity w = Some (tt, w') /\
    particles (beaker w') !! name = Some (drop m g) /\
    length (drop m g) = (length g - m)%nat /\
    all_particle_sprites (beaker w') =
      filter (λ t, t ∉ take m g) (all_particle_sprites (beaker w)) /\
    heap w' = heap w /\
    removeParticles cls quantity w = removeParticles_loop name m w /\
    (forall i w0,
       removeParticles_loop name (S i) w0 =
         (exec removeParticles_turn name i; removeParticles_loop name i) w0) /\
    (forall j, (j < m)%nat ->
       exists wS wj sid,
         removeParticles cls quantity w = removeParticles_loop name (S j) wS /\
         (S j = m -> wS = w) /\
         particles (beaker wS) !! name = Some (take (S j) g ++ drop m g) /\
         g !! j = Some sid /\
         removeParticles_turn name j wS = Some (tt, wj) /\
         beaker wj = Beaker_without [sid] (beaker wS) /\
         particles (beaker wj) !! name = Some (take j g ++ drop m g) /\
         (sid ∉ all_particle_sprites (beaker wj)) /\
         (exists sv, sprites wj !! sid = Some sv /\ sprite_particle sv = None) /\
         removeParticles cls quantity w = removeParticles_loop name j wj) /\
    (forall j, (j <= m)%nat ->
       exists wj,
         removeParticles cls quantity w = removeParticles_loop name j wj /\
         particles (beaker wj) !! name = Some (take j g ++ drop m g)).
Proof.
  intros Hg Hnd Hlk name m.
  assert (Hm : (m <= length g)%nat) by (unfold m; lia).
  assert (Hrun : removeParticles cls quantity w =
                 removeParticles_loop name m w).
  { unfold removeParticles. unfold bind at 1. unfold get_beaker.
    mrun (deref_run _ _ w Hg). unfold m.
    destruct (Nat.ltb_spec (length g) quantity).
    - by rewrite Nat.min_r by lia.
    - by rewrite Nat.min_l by lia. }
  pose proof (removeParticles_loop_steps name w g m Hg Hnd Hlk Hm) as Hsteps.
  destruct (Hsteps m 0%nat ltac:(lia)) as (w' & Hrun0 & Hb & Hh & _).
  exists w'. split; [rewrite Hrun, Hrun0; reflexivity|].
  rewrite Hb. unfold Beaker_without, set_particles, set_all_particle_sprites. simpl.
  rewrite lookup_fmap. fold name. unfold name at 1. rewrite Hg. simpl.
  rewrite filter_removed_range by (done || lia).
  rewrite length_drop. rewrite drop_0.
  split; [done|]. split; [done|]. split; [done|]. split; [exact Hh|].
  split; [exact Hrun|].
  split; [intros i w0; apply removeParticles_loop_unfold|].
  split.
  - intros j Hj.
    destruct (removeParticles_loop_turn name w g m j Hg Hnd Hlk Hm Hj)
      as (wS & wj & sid & H1 & H2 & _ & H3 & H4 & _ & H5 & H6 & H7 & H8 & H9 & H10).
    exists wS, wj, sid. rewrite Hrun. done.
  - intros j Hj.
    destruct (Hsteps (m - j)%nat j ltac:(lia)) as (wj & Hrunj & Hbj & _).
    exists wj. split; [rewrite Hrun; exact Hrunj|].
    rewrite Hbj. unfold Beaker_without, set_particles, set_all_particle_sprites. simpl.
    rewrite lookup_fmap. unfold name. rewrite Hg. simpl.
    by rewrite filter_removed_range by (done || lia).
Qed.

(** Without a group under the class's own name the first property read
    throws. *)
Lemma removeParticles_no_group cls quantity w :
  particles (beaker w) !! fn_name cls = None ->
  removeParticles cls quantity w = None.
Proof.
  intros Hg. unfold removeParticles. unfold bind at 1. unfold get_beaker.
  apply bind_fail. rewrite Hg. reflexivity.
Qed.

(** C8 (failing input). On a beaker to which nothing was added,
    [removeParticles] throws for every class and every quantity. *)
Theorem removeParticles_fresh_beaker_throws cls quantity :
  removeParticles cls quantity (empty_world (Beaker_new 100 100 0 0 None None)) = None.
Proof. apply removeParticles_no_group. reflexivity. Qed.

(** ** Rounding to a double *)

(** *** Powers of two *)

Lemma pow2_pos e : 0 < 2 ^ e.
Proof. apply Qpower_0_lt. reflexivity. Qed.

Lemma pow2_plus a b : 2 ^ (a + b) == 2 ^ a * 2 ^ b.
Proof. apply Qpower_plus. discriminate. Qed.

Lemma pow2_le a b : (a <= b)%Z -> 2 ^ a <= 2 ^ b.
Proof. intros H. apply Qpower_le_compat_l; [exact H | discriminate]. Qed.

Lemma pow2_lt a b : (a < b)%Z -> 2 ^ a < 2 ^ b.
Proof. intros H. apply Qpower_lt_compat_l; [exact H | reflexivity]. Qed.

Lemma pow2_lt_inv a b : 2 ^ a < 2 ^ b -> (a < b)%Z.
Proof. intros H. eapply Qpower_lt_compat_l_inv; [exact H | reflexivity]. Qed.

Lemma pow2_Z n : (0 <= n)%Z -> inject_Z (2 ^ n) == 2 ^ n.
Proof. intros H. apply (Zpower_Qpower 2 n H). Qed.

Lemma pow2_succ a : 2 ^ (a + 1) == 2 * 2 ^ a.
Proof. rewrite pow2_plus. change (2 ^ 1) with 2. ring. Qed.

(** *** The binade of a positive number *)

Lemma ilog2_spec q : 0 < q -> 2 ^ ilog2 q <= q /\ q < 2 ^ (ilog2 q + 1).
Proof.
  destruct q as [n d]. intros Hq.
  assert (Hn : (0 < n)%Z) by (unfold Qlt in Hq; simpl in Hq; lia).
  pose proof (Z.log2_spec n Hn) as [Hn1 Hn2].
  pose proof (Z.log2_spec (Zpos d) eq_refl) as [Hd1 Hd2].
  pose proof (Z.log2_nonneg n) as Hln. pose proof (Z.log2_nonneg (Zpos d)) as Hld.
  unfold ilog2. cbn [Qnum Qden].
  set (ln := Z.log2 n) in *. set (ld := Z.log2 (Zpos d)) in *.
  set (N := inject_Z n). set (D := inject_Z (Zpos d)).
  assert (HD : 0 < D) by reflexivity.
  assert (Hq' : (n # d) * D == N).
  { unfold D, N. rewrite Qmake_Qdiv. field. discriminate. }
  assert (HN1 : 2 ^ ln <= N).
  { unfold N. rewrite <- pow2_Z by exact Hln. rewrite <- Zle_Qle. exact Hn1. }
  assert (HN2 : N < 2 ^ (ln + 1)).
  { unfold N. rewrite <- pow2_Z by lia. rewrite <- Zlt_Qlt. exact Hn2. }
  assert (HD1 : 2 ^ ld <= D).
  { unfold D. rewrite <- pow2_Z by exact Hld. rewrite <- Zle_Qle. exact Hd1. }
  assert (HD2 : D < 2 ^ (ld + 1)).
  { unfold D. rewrite <- pow2_Z by lia. rewrite <- Zlt_Qlt. exact Hd2. }
  pose proof (pow2_pos (ln - ld)) as Hp0.
  pose proof (pow2_pos (ln - ld - 1)) as Hp1.
  pose proof (pow2_pos ld) as Hp2.
  assert (E1 : 2 ^ (ln + 1) == 2 * (2 ^ (ln - ld) * 2 ^ ld)).
  { rewrite <- pow2_plus. rewrite <- pow2_succ. f_equiv. lia. }
  assert (E2 : 2 ^ ln == 2 ^ (ln - ld - 1) * (2 * 2 ^ ld)).
  { rewrite <- pow2_succ. rewrite <- pow2_plus. f_equiv. lia. }
  assert (E3 : 2 ^ (ld + 1) == 2 * 2 ^ ld) by apply pow2_succ.
  assert (E4 : 2 ^ (ln - ld) == 2 * 2 ^ (ln - ld - 1)).
  { rewrite <- pow2_succ. f_equiv. lia. }
  destruct (Qle_bool (2 ^ (ln - ld)) (n # d)) eqn:E.
  - apply Qle_bool_iff in E. split; [exact E|].
    rewrite pow2_succ. nra.
  - assert (Hlt : n # d < 2 ^ (ln - ld)).
    { apply Qnot_le_lt. intros H. apply Qle_bool_iff in H. congruence. }
    replace (ln - ld - 1 + 1)%Z with (ln - ld)%Z by lia.
    split; [|exact Hlt]. nra.
Qed.

Lemma ilog2_unique q k : 0 < q -> 2 ^ k <= q -> q < 2 ^ (k + 1) -> ilog2 q = k.
Proof.
  intros Hq H1 H2. destruct (ilog2_spec q Hq) as [H3 H4].
  assert (ilog2 q < k + 1)%Z by (apply pow2_lt_inv; lra).
  assert (k < ilog2 q + 1)%Z by (apply pow2_lt_inv; lra).
  lia.
Qed.

Lemma ilog2_le a b : 0 < a -> a <= b -> (ilog2 a <= ilog2 b)%Z.
Proof.
  intros Ha Hab. destruct (ilog2_spec a Ha) as [H1 _].
  destruct (ilog2_spec b ltac:(lra)) as [_ H2].
  assert (ilog2 a < ilog2 b + 1)%Z by (apply pow2_lt_inv; lra). lia.
Qed.

(** *** Rounding to the nearest integer *)

Lemma round_half_even_cases q :
  round_half_even q = Qfloor q \/ round_half_even q = (Qfloor q + 1)%Z.
Proof.
  unfold round_half_even.
  destruct (Qcompare _ _); [destruct (Z.even _)|..]; auto.
Qed.

Lemma round_half_even_Z q z : q == inject_Z z -> round_half_even q = z.
Proof.
  intros H. unfold round_half_even.
  rewrite (Qfloor_comp _ _ H), Qfloor_Z.
  destruct (Qcompare_spec (q - inject_Z z) (1 # 2)) as [E|E|E];
    [exfalso; lra | reflexivity | exfalso; lra].
Qed.

Lemma round_half_even_le a b : a <= b -> (round_half_even a <= round_half_even b)%Z.
Proof.
  intros Hab. pose proof (Qfloor_resp_le a b Hab) as Hf.
  destruct (Z.eq_dec (Qfloor a) (Qfloor b)) as [E|E].
  - unfold round_half_even. rewrite E.
    destruct (Qcompare_spec (a - inject_Z (Qfloor b)) (1 # 2)) as [Ea|Ea|Ea];
      destruct (Qcompare_spec (b - inject_Z (Qfloor b)) (1 # 2)) as [Eb|Eb|Eb];
      try destruct (Z.even (Qfloor b)); try lia; exfalso; lra.
  - destruct (round_half_even_cases a) as [-> | ->];
      destruct (round_half_even_cases b) as [-> | ->]; lia.
Qed.

(** *** Rounding a positive number *)

Lemma binary64_pos_eq q :
  binary64_pos q ==
    inject_Z (round_half_even (q / 2 ^ (ilog2 q - 52))) * 2 ^ (ilog2 q - 52).
Proof. unfold binary64_pos. apply Qred_correct. Qed.

Lemma scaled_bounds q :
  0 < q ->
  inject_Z (2 ^ 52) <= q / 2 ^ (ilog2 q - 52) /\
  q / 2 ^ (ilog2 q - 52) < inject_Z (2 ^ 53).
Proof.
  intros Hq. destruct (ilog2_spec q Hq) as [H1 H2].
  pose proof (pow2_pos (ilog2 q - 52)) as Hp.
  assert (E1 : 2 ^ ilog2 q == inject_Z (2 ^ 52) * 2 ^ (ilog2 q - 52)).
  { rewrite pow2_Z by lia. rewrite <- pow2_plus. f_equiv. lia. }
  assert (E2 : 2 ^ (ilog2 q + 1) == inject_Z (2 ^ 53) * 2 ^ (ilog2 q - 52)).
  { rewrite pow2_Z by lia. rewrite <- pow2_plus. f_equiv. lia. }
  split.
  - apply Qle_shift_div_l; [exact Hp|]. lra.
  - apply Qlt_shift_div_r; [exact Hp|]. lra.
Qed.

Lemma significand_bounds q :
  0 < q ->
  (2 ^ 52 <= round_half_even (q / 2 ^ (ilog2 q - 52)) <= 2 ^ 53)%Z.
Proof.
  intros Hq. destruct (scaled_bounds q Hq) as [H1 H2]. split.
  - pose proof (round_half_even_le _ _ H1) as H.
    rewrite (round_half_even_Z (inject_Z (2 ^ 52)) (2 ^ 52)) in H by reflexivity.
    exact H.
  - pose proof (round_half_even_le _ _ (Qlt_le_weak _ _ H2)) as H.
    rewrite (round_half_even_Z (inject_Z (2 ^ 53)) (2 ^ 53)) in H by reflexivity.
    exact H.
Qed.

Lemma binary64_pos_bounds q :
  0 < q -> 2 ^ ilog2 q <= binary64_pos q /\ binary64_pos q <= 2 ^ (ilog2 q + 1).
Proof.
  intros Hq. destruct (significand_bounds q Hq) as [H1 H2].
  rewrite binary64_pos_eq.
  pose proof (pow2_pos (ilog2 q - 52)) as Hp.
  assert (E1 : 2 ^ ilog2 q == inject_Z (2 ^ 52) * 2 ^ (ilog2 q - 52)).
  { rewrite pow2_Z by lia. rewrite <- pow2_plus. f_equiv. lia. }
  assert (E2 : 2 ^ (ilog2 q + 1) == inject_Z (2 ^ 53) * 2 ^ (ilog2 q - 52)).
  { rewrite pow2_Z by lia. rewrite <- pow2_plus. f_equiv. lia. }
  rewrite Zle_Qle in H1, H2. rewrite E1, E2. split; nra.
Qed.

Lemma binary64_pos_pos q : 0 < q -> 0 < binary64_pos q.
Proof.
  intros Hq. destruct (binary64_pos_bounds q Hq) as [H _].
  pose proof (pow2_pos (ilog2 q)). lra.
Qed.

Lemma binary64_pos_le a b : 0 < a -> a <= b -> binary64_pos a <= binary64_pos b.
Proof.
  intros Ha Hab. assert (Hb : 0 < b) by lra.
  pose proof (ilog2_le a b Ha Hab) as He.
  destruct (Z.eq_dec (ilog2 a) (ilog2 b)) as [E|E].
  - rewrite !binary64_pos_eq, E.
    pose proof (pow2_pos (ilog2 b - 52)) as Hp.
    assert (H : (round_half_even (a / 2 ^ (ilog2 b - 52))
                 <= round_half_even (b / 2 ^ (ilog2 b - 52)))%Z).
    { apply round_half_even_le. apply Qle_shift_div_l; [exact Hp|].
      unfold Qdiv. rewrite <- Qmult_assoc, (Qmult_comm (/ _)), Qmult_inv_r; lra. }
    rewrite Zle_Qle in H. nra.
  - destruct (binary64_pos_bounds a Ha) as [_ H1].
    destruct (binary64_pos_bounds b Hb) as [H2 _].
    assert (2 ^ (ilog2 a + 1) <= 2 ^ ilog2 b) by (apply pow2_le; lia).
    lra.
Qed.

Lemma binary64_pos_proper a b : 0 < a -> a == b -> binary64_pos a == binary64_pos b.
Proof.
  intros Ha Hab. apply Qle_antisym; apply binary64_pos_le; lra.
Qed.

Lemma binary64_pos_idempotent q :
  0 < q -> binary64_pos (binary64_pos q) == binary64_pos q.
Proof.
  intros Hq. set (e := (ilog2 q - 52)%Z).
  set (m := round_half_even (q / 2 ^ e)).
  destruct (significand_bounds q Hq) as [H1 H2]. fold e m in H1, H2.
  pose proof (binary64_pos_eq q) as Hy. fold e m in Hy.
  pose proof (binary64_pos_pos q Hq) as Hpos.
  pose proof (pow2_pos e) as Hp.
  set (y := binary64_pos q) in *.
  assert (E52 : 2 ^ (e + 52) == inject_Z (2 ^ 52) * 2 ^ e).
  { rewrite pow2_Z by lia. rewrite <- pow2_plus. f_equiv. lia. }
  assert (E53 : 2 ^ (e + 53) == inject_Z (2 ^ 53) * 2 ^ e).
  { rewrite pow2_Z by lia. rewrite <- pow2_plus. f_equiv. lia. }
  destruct (Z.eq_dec m (2 ^ 53)%Z) as [Em|Em].
  - assert (Hy' : y == 2 ^ (e + 53)) by (rewrite Hy, Em, E53; reflexivity).
    assert (Hk : ilog2 y = (e + 53)%Z).
    { apply ilog2_unique; [exact Hpos | lra |].
      rewrite Hy'. apply pow2_lt. lia. }
    rewrite binary64_pos_eq, Hk.
    replace (e + 53 - 52)%Z with (e + 1)%Z by lia.
    rewrite (round_half_even_Z _ (2 ^ 52)%Z).
    + rewrite Hy', pow2_succ.
      replace (e + 53)%Z with (e + 1 + 52)%Z by lia.
      rewrite pow2_plus. rewrite pow2_succ. rewrite pow2_Z by lia. ring.
    + rewrite Hy'. replace (e + 53)%Z with (52 + (e + 1))%Z by lia.
      rewrite pow2_plus. rewrite pow2_Z by lia. field.
      pose proof (pow2_pos (e + 1)). lra.
  - assert (Hm : (m < 2 ^ 53)%Z) by lia. rewrite Zle_Qle in H1. rewrite Zlt_Qlt in Hm.
    assert (Hk : ilog2 y = (e + 52)%Z).
    { apply ilog2_unique; [exact Hpos | rewrite Hy, E52; nra |].
      replace (e + 52 + 1)%Z with (e + 53)%Z by lia. rewrite Hy, E53. nra. }
    rewrite binary64_pos_eq, Hk.
    replace (e + 52 - 52)%Z with e by lia.
    rewrite (round_half_even_Z _ m); [symmetry; exact Hy|].
    rewrite Hy. field. lra.
Qed.

(** *** The rounding of a double *)

Lemma binary64_positive q : 0 < q -> binary64 q = binary64_pos q.
Proof.
  intros H. unfold binary64.
  destruct (Qcompare_spec q 0); [exfalso; lra | exfalso; lra | reflexivity].
Qed.

Lemma binary64_negative q : q < 0 -> binary64 q = - binary64_pos (- q).
Proof.
  intros H. unfold binary64.
  destruct (Qcompare_spec q 0); [exfalso; lra | reflexivity | exfalso; lra].
Qed.

Lemma binary64_null q : q == 0 -> binary64 q = 0.
Proof.
  intros H. unfold binary64.
  destruct (Qcompare_spec q 0); [reflexivity | exfalso; lra | exfalso; lra].
Qed.

Lemma binary64_sign q :
  (0 < q -> 0 < binary64 q) /\ (q < 0 -> binary64 q < 0) /\ (q == 0 -> binary64 q == 0).
Proof.
  split; [|split]; intros H.
  - rewrite binary64_positive by exact H. by apply binary64_pos_pos.
  - rewrite binary64_negative by exact H.
    pose proof (binary64_pos_pos (- q) ltac:(lra)). lra.
  - rewrite binary64_null by exact H. reflexivity.
Qed.

(** [binary64] is a rounding. *)
Lemma binary64_rounding : rounding binary64.
Proof.
  split.
  - intros a b Hab.
    destruct (Qlt_le_dec 0 a) as [Ha|Ha].
    + rewrite (binary64_positive a Ha), (binary64_positive b) by lra.
      by apply binary64_pos_le.
    + destruct (Qlt_le_dec 0 b) as [Hb|Hb].
      * pose proof (proj1 (binary64_sign b) Hb).
        destruct (Qlt_le_dec a 0) as [Ha'|Ha'].
        -- pose proof (proj1 (proj2 (binary64_sign a)) Ha'). lra.
        -- pose proof (proj2 (proj2 (binary64_sign a)) ltac:(lra)). lra.
      * destruct (Qlt_le_dec b 0) as [Hb'|Hb'].
        -- rewrite (binary64_negative a), (binary64_negative b) by lra.
           pose proof (binary64_pos_le (- b) (- a) ltac:(lra) ltac:(lra)). lra.
        -- pose proof (proj2 (proj2 (binary64_sign b)) ltac:(lra)) as ->.
           destruct (Qlt_le_dec a 0) as [Ha'|Ha'].
           ++ pose proof (proj1 (proj2 (binary64_sign a)) Ha'). lra.
           ++ pose proof (proj2 (proj2 (binary64_sign a)) ltac:(lra)). lra.
  - intros q. destruct (Qlt_le_dec 0 q) as [Hq|Hq].
    + pose proof (proj1 (binary64_sign q) Hq) as Hy.
      rewrite (binary64_positive _ Hy). rewrite (binary64_positive q Hq).
      by apply binary64_pos_idempotent.
    + destruct (Qlt_le_dec q 0) as [Hq'|Hq'].
      * pose proof (proj1 (proj2 (binary64_sign q)) Hq') as Hy.
        rewrite (binary64_negative _ Hy). rewrite (binary64_negative q Hq').
        pose proof (binary64_pos_pos (- q) ltac:(lra)) as Hp.
        rewrite (binary64_pos_proper (- - binary64_pos (- q)) (binary64_pos (- q)))
          by (lra || ring).
        rewrite binary64_pos_idempotent by lra. reflexivity.
      * assert (E : q == 0) by lra.
        rewrite (binary64_null q E). reflexivity.
  - reflexivity.
Qed.

Section Properties.

Variable Date_now : nat -> Q.
Variable Math_random : nat -> Q.
Variable createSprite_depth : nat -> Q.
Variable overlapPoint : Q * Q * (Q * Q * Q) -> Q -> Q -> bool.
Variable overlap_test : Sprite -> Sprite -> bool.

(** *** The reaction handler in closed form *)

Lemma reacts_with_Proton_eq w bsid psid bs ps p pp pb :
  sprites w !! bsid = Some bs ->
  sprites w !! psid = Some ps ->
  sprite_particle ps = Some p ->
  heap w !! p = Some pp ->
  base pp = Some pb ->
  reacts_with_Proton Date_now Math_random bsid psid w =
    if truthy_ref (base_particle pb) then Some (tt, w) else
    match sprite_particle bs with
    | None => None
    | Some b =>
        match heap w !! b with
        | None => None
        | Some bp =>
            match proton bp with
            | None => None
            | Some bh =>
                if truthy_ref (particle bh) then Some (tt, w)
                else Some (tt, bond_world (Date_now (clock_reads w))
                                       (Math_random (random_reads w))
                                       w bsid psid b p bs ps bp pp bh)
            end
        end
    end.
Proof.
  intros Hbs Hps Hp Hpp Hpb.
  unfold reacts_with_Proton.
  mrun (get_sprite_run _ _ _ Hbs). mrun (get_sprite_run _ _ _ Hps).
  mrun (deref_run _ _ w Hp). mrun (get_particle_run _ _ _ Hpp).
  mrun (deref_run _ _ w Hpb).
  destruct (truthy_ref (base_particle pb)); [reflexivity|].
  destruct (sprite_particle bs) as [b|] eqn:Hb; [|reflexivity].
  mrun (deref_run _ _ w (eq_refl (Some b))).
  destruct (heap w !! b) as [bp|] eqn:Hbp;
    [|apply bind_fail; unfold get_particle; rewrite Hbp; reflexivity].
  mrun (get_particle_run _ _ _ Hbp).
  destruct (proton bp) as [bh|] eqn:Hbh; [|reflexivity].
  mrun (deref_run _ _ w (eq_refl (Some bh))).
  destruct (truthy_ref (particle bh)); [reflexivity|].
  assert (Hne : b <> p).
  { intros ->. rewrite Hbp in Hpp. injection Hpp as ->.
    eapply proton_base_disjoint; eauto. }
  unfold bind at 1. unfold Date_now_. unfold bind at 1. unfold Math_random_.
  erewrite bind_run; [|eapply modify_proton_run; simpl; eauto].
  erewrite bind_run;
    [|eapply modify_proton_run; simpl; [apply lookup_insert_eq | reflexivity]].
  erewrite bind_run;
    [|eapply assign_base_particle_run; simpl;
      [rewrite !lookup_insert_ne by done; eauto | eauto]].
  erewrite bind_run; [|eapply get_sprite_run; simpl; eauto].
  erewrite bind_run;
    [|eapply modify_proton_run; simpl;
      [rewrite lookup_insert_ne by done; apply lookup_insert_eq | reflexivity]].
  erewrite bind_run; [|eapply get_sprite_run; simpl; eauto].
  erewrite modify_sprite_run by (simpl; eauto). simpl.
  unfold bond_world. rewrite insert_insert_eq.
  rewrite (insert_insert_ne _ p b) by done.
  rewrite insert_insert_eq. reflexivity.
Qed.

(** A handler that returns found the two sprites and the proton's particle
    with its [base] record. *)
Lemma reacts_with_Proton_inv w bsid psid r :
  reacts_with_Proton Date_now Math_random bsid psid w = Some r ->
  exists bs ps p pp pb,
    sprites w !! bsid = Some bs /\ sprites w !! psid = Some ps /\
    sprite_particle ps = Some p /\ heap w !! p = Some pp /\ base pp = Some pb.
Proof.
  unfold reacts_with_Proton. intros H.
  apply bind_Some in H as (bs & w1 & H1 & H).
  apply get_sprite_Some in H1 as (? & Hbs & [= <- <-]).
  apply bind_Some in H as (ps & w2 & H1 & H).
  apply get_sprite_Some in H1 as (? & Hps & [= <- <-]).
  apply bind_Some in H as (p & w3 & H1 & H).
  apply deref_Some in H1 as (? & Hp & [= <- <-]).
  apply bind_Some in H as (pp & w4 & H1 & H).
  apply get_particle_Some in H1 as (? & Hpp & [= <- <-]).
  apply bind_Some in H as (pb & w5 & H1 & H).
  apply deref_Some in H1 as (? & Hpb & [= <- <-]).
  eauto 10.
Qed.

(** C1. A collision of base sprite [bsid] with proton sprite [psid] always
    returns; it creates the bond between the two particles exactly when the
    proton has no base and the base has no proton, and when either side is
    already bonded the whole world, hence all bond state, is unchanged. *)
Theorem reaction_bonds_iff_both_free w bsid psid bs ps b p bp pp bh pb :
  sprites w !! bsid = Some bs -> sprite_particle bs = Some b ->
  heap w !! b = Some bp -> proton bp = Some bh ->
  sprites w !! psid = Some ps -> sprite_particle ps = Some p ->
  heap w !! p = Some pp -> base pp = Some pb ->
  exists w', reacts_with_Proton Date_now Math_random bsid psid w = Some (tt, w') /\
    ((bonded (heap w') b p /\ ~ bonded (heap w) b p) <->
     (base_particle pb = None /\ particle bh = None)) /\
    (~ (base_particle pb = None /\ particle bh = None) -> w' = w).
Proof.
  intros Hbs Hb Hbp Hbh Hps Hp Hpp Hpb.
  rewrite (reacts_with_Proton_eq w bsid psid bs ps p pp pb) by assumption.
  rewrite Hb, Hbp, Hbh.
  assert (Hne : b <> p).
  { intros ->. rewrite Hbp in Hpp. injection Hpp as ->.
    eapply proton_base_disjoint; eauto. }
  assert (Hpo : proton_of (heap w) b = particle bh).
  { unfold proton_of. rewrite Hbp. simpl. rewrite Hbh. reflexivity. }
  assert (Hbo : base_of (heap w) p = base_particle pb).
  { unfold base_of. rewrite Hpp. simpl. rewrite Hpb. reflexivity. }
  destruct (base_particle pb) as [b0|] eqn:E1; simpl.
  { eexists; split; [reflexivity|]. split; [|reflexivity].
    split; [intros [? ?]; contradiction | intros [? _]; discriminate]. }
  destruct (particle bh) as [p0|] eqn:E2; simpl.
  { eexists; split; [reflexivity|]. split; [|reflexivity].
    split; [intros [? ?]; contradiction | intros [_ ?]; discriminate]. }
  eexists; split; [reflexivity|]. split; [|intros H; exfalso; apply H; done].
  split; [done|]. intros _. split.
  - unfold bonded, proton_of, base_of, bond_world; simpl.
    rewrite lookup_insert_eq. rewrite lookup_insert_ne by done.
    rewrite lookup_insert_eq. done.
  - unfold bonded. rewrite Hpo. intros [? _]; discriminate.
Qed.

(** *** The update in closed form *)

Lemma ConjugateBase_update_eq w this p h :
  heap w !! this = Some p ->
  proton p = Some h ->
  ConjugateBase_update Date_now this w =
    if truthy_num (release_after h) then
      let now := Date_now (clock_reads w) in
      if Qltb now (to_number (release_after h)) then
        pp ← particle h; ppv ← heap w !! pp; protonSprite ← sprite ppv;
        baseSprite ← sprite p; bs ← sprites w !! baseSprite;
        ps ← sprites w !! protonSprite;
        Some (tt, mkWorld (beaker w)
                    (<[protonSprite :=
                         set_position_y (position_y bs + offset_y h)
                           (set_position_x (position_x bs + offset_x h) ps)]>
                       (sprites w))
                    (heap w) (S (clock_reads w)) (random_reads w))
      else if Qltb now (to_number (release_after h) + post_release_duration h) then
        Some (tt, tick w)
      else
        pp ← particle h; ppv ← heap w !! pp; protonSprite ← sprite ppv;
        ps ← sprites w !! protonSprite; _ ← base ppv;
        Some (tt, mkWorld (beaker w)
                    (<[protonSprite := set_depth (restore_depth h) ps]> (sprites w))
                    (<[this := set_proton (released h) p]>
                       (<[pp := set_base (mkBaseHash None) ppv]> (heap w)))
                    (S (clock_reads w)) (random_reads w))
    else Some (tt, w).
Proof.
  intros Hp Hh. unfold ConjugateBase_update.
  mrun (get_particle_run _ _ _ Hp). mrun (deref_run _ _ w Hh).
  destruct (truthy_num (release_after h)); [|reflexivity].
  unfold bind at 1. unfold Date_now_. cbv zeta.
  change (mkWorld (beaker w) (sprites w) (heap w) (S (clock_reads w)) (random_reads w))
    with (tick w).
  destruct (Qltb _ (to_number (release_after h))).
  - destruct (particle h) as [pp|]; [|reflexivity]; cbn [mbind option_bind].
    mrun (deref_run _ _ (tick w) (eq_refl (Some pp))). simpl.
    destruct (heap w !! pp) as [ppv|] eqn:Hppv; cbn [mbind option_bind];
      [|apply bind_fail; unfold get_particle; simpl; rewrite Hppv; reflexivity].
    erewrite bind_run; [|apply get_particle_run; exact Hppv].
    destruct (sprite ppv) as [psid|]; [|reflexivity]; cbn [mbind option_bind].
    mrun (deref_run _ _ (tick w) (eq_refl (Some psid))). simpl.
    destruct (sprite p) as [bsid|]; [|reflexivity]; cbn [mbind option_bind].
    mrun (deref_run _ _ (tick w) (eq_refl (Some bsid))). simpl.
    destruct (sprites w !! bsid) as [bs|] eqn:Hbs; cbn [mbind option_bind];
      [|apply bind_fail; unfold get_sprite; simpl; rewrite Hbs; reflexivity].
    erewrite bind_run; [|apply get_sprite_run; exact Hbs].
    destruct (sprites w !! psid) as [ps|] eqn:Hps; cbn [mbind option_bind];
      [|apply bind_fail; unfold modify_sprite; apply bind_fail;
        unfold get_sprite; simpl; rewrite Hps; reflexivity].
    erewrite bind_run; [|apply modify_sprite_run; exact Hps].
    assert (Hy : exists bs', sprites (mkWorld (beaker (tick w))
                  (<[psid:=set_position_x (position_x bs + offset_x h) ps]>
                     (sprites (tick w)))
                  (heap (tick w)) (clock_reads (tick w)) (random_reads (tick w)))
                !! bsid = Some bs' /\ position_y bs' = position_y bs).
    { simpl. destruct (decide (psid = bsid)) as [->|Hne].
      - rewrite lookup_insert_eq. eexists; split; [reflexivity|].
        rewrite Hbs in Hps. injection Hps as ->. reflexivity.
      - rewrite lookup_insert_ne by done. eauto. }
    destruct Hy as (bs' & Hbs' & Hy).
    erewrite bind_run; [|apply get_sprite_run; exact Hbs'].
    erewrite modify_sprite_run by (simpl; apply lookup_insert_eq).
    simpl. rewrite insert_insert_eq, Hy. reflexivity.
  - destruct (Qltb _ _); [reflexivity|].
    destruct (particle h) as [pp|]; [|reflexivity]; cbn [mbind option_bind].
    mrun (deref_run _ _ (tick w) (eq_refl (Some pp))). simpl.
    destruct (heap w !! pp) as [ppv|] eqn:Hppv; cbn [mbind option_bind];
      [|apply bind_fail; unfold get_particle; simpl; rewrite Hppv; reflexivity].
    erewrite bind_run; [|apply get_particle_run; exact Hppv].
    destruct (sprite ppv) as [psid|]; [|reflexivity]; cbn [mbind option_bind].
    mrun (deref_run _ _ (tick w) (eq_refl (Some psid))). simpl.
    destruct (sprites w !! psid) as [ps|] eqn:Hps; cbn [mbind option_bind];
      [|apply bind_fail; unfold modify_sprite; apply bind_fail;
        unfold get_sprite; simpl; rewrite Hps; reflexivity].
    erewrite bind_run; [|apply modify_sprite_run; exact Hps].
    erewrite bind_run; [|eapply modify_proton_run; simpl; eauto].
    erewrite bind_run;
      [|eapply modify_proton_run; simpl; [apply lookup_insert_eq | reflexivity]].
    destruct (decide (pp = this)) as [->|Hne].
    { (* the bonded particle is the base itself: it has no [base] record *)
      rewrite Hp in Hppv. injection Hppv as <-.
      replace (base p) with (@None BaseHash)
        by (unfold base, proton in *; destruct (props p); congruence).
      simpl. apply bind_fail. unfold assign_base_particle.
      erewrite bind_run; [|apply get_particle_run; simpl; apply lookup_insert_eq].
      reflexivity. }
    destruct (base ppv) as [pb|] eqn:Hpb; cbn [mbind option_bind].
    + erewrite bind_run;
        [|eapply assign_base_particle_run; simpl;
          [rewrite !lookup_insert_ne by done; eauto | eauto]].
      erewrite modify_proton_run;
        [|simpl; rewrite lookup_insert_ne by done; apply lookup_insert_eq
         |reflexivity].
      simpl. rewrite insert_insert_eq.
      rewrite (insert_insert_ne _ pp this) by done.
      rewrite insert_insert_eq. reflexivity.
    + simpl. apply bind_fail. unfold assign_base_particle.
      erewrite bind_run;
        [|apply get_particle_run; simpl; rewrite !lookup_insert_ne by done; eauto].
      rewrite Hpb. reflexivity.
Qed.

(** *** The bond timer *)

(** The release time stored at bond formation is exactly
    [now + range[0] + range[1] * r]. *)
Lemma bond_sets_release_after w bsid psid bs ps b p bp pp bh pb :
  sprites w !! bsid = Some bs -> sprite_particle bs = Some b ->
  heap w !! b = Some bp -> proton bp = Some bh ->
  sprites w !! psid = Some ps -> sprite_particle ps = Some p ->
  heap w !! p = Some pp -> base pp = Some pb ->
  base_particle pb = None -> particle bh = None ->
  exists w' bp' bh',
    reacts_with_Proton Date_now Math_random bsid psid w = Some (tt, w') /\
    heap w' !! b = Some bp' /\ proton bp' = Some bh' /\
    release_after bh' =
      Some (Date_now (clock_reads w) + fst (release_after_range bh)
            + snd (release_after_range bh) * Math_random (random_reads w)) /\
    post_release_duration bh' = post_release_duration bh /\
    particle bh' = Some p.
Proof.
  intros Hbs Hb Hbp Hbh Hps Hp Hpp Hpb E1 E2.
  rewrite (reacts_with_Proton_eq w bsid psid bs ps p pp pb) by assumption.
  rewrite Hb, Hbp, Hbh, E1, E2. simpl.
  do 3 eexists. split; [reflexivity|]. unfold bond_world; simpl.
  rewrite lookup_insert_eq. split; [reflexivity|]. done.
Qed.

(** While the clock is before a non-zero [release_after], the update puts
    the bonded proton's sprite at the base's position plus the offset. *)
Lemma update_before_release w this p h ra pp ppv psid bsid bs ps :
  heap w !! this = Some p -> proton p = Some h ->
  release_after h = Some ra -> ~ ra == 0 ->
  Date_now (clock_reads w) < ra ->
  particle h = Some pp -> heap w !! pp = Some ppv -> sprite ppv = Some psid ->
  sprite p = Some bsid -> sprites w !! bsid = Some bs -> sprites w !! psid = Some ps ->
  exists w' ps',
    ConjugateBase_update Date_now this w = Some (tt, w') /\ heap w' = heap w /\
    sprites w' !! psid = Some ps' /\
    position_x ps' = position_x bs + offset_x h /\
    position_y ps' = position_y bs + offset_y h.
Proof.
  intros Hp Hh Hra Hnz Hlt Hpp Hppv Hps Hbs Hbsv Hpsv.
  rewrite (ConjugateBase_update_eq w this p h) by assumption.
  rewrite Hra. rewrite (proj2 (truthy_num_Some ra) Hnz). cbv zeta. simpl to_number.
  rewrite (proj2 (Qltb_lt _ _) Hlt).
  rewrite Hpp; simpl. rewrite Hppv; simpl. rewrite Hps; simpl.
  rewrite Hbs; simpl. rewrite Hbsv; simpl. rewrite Hpsv; simpl.
  do 2 eexists. split; [reflexivity|]. simpl. split; [reflexivity|].
  rewrite lookup_insert_eq. done.
Qed.

(** Between a non-zero [release_after] and [release_after +
    post_release_duration] the update only reads the clock: no sprite and no
    particle changes. *)
Lemma update_between_release_and_free w this p h ra :
  heap w !! this = Some p -> proton p = Some h ->
  release_after h = Some ra -> ~ ra == 0 ->
  ra <= Date_now (clock_reads w) ->
  Date_now (clock_reads w) < ra + post_release_duration h ->
  ConjugateBase_update Date_now this w = Some (tt, tick w).
Proof.
  intros Hp Hh Hra Hnz Hle Hlt.
  rewrite (ConjugateBase_update_eq w this p h) by assumption.
  rewrite Hra. rewrite (proj2 (truthy_num_Some ra) Hnz). cbv zeta. simpl to_number.
  rewrite (proj2 (Qltb_ge _ _) Hle). rewrite (proj2 (Qltb_lt _ _) Hlt).
  reflexivity.
Qed.

(** From [release_after + post_release_duration] on (for a non-zero
    [release_after]) the update restores the proton sprite's depth and clears
    both references and the timer. *)
Lemma update_after_post_release w this p h ra pp ppv psid ps pb :
  heap w !! this = Some p -> proton p = Some h ->
  release_after h = Some ra -> ~ ra == 0 ->
  ra + post_release_duration h <= Date_now (clock_reads w) ->
  0 <= post_release_duration h ->
  particle h = Some pp -> heap w !! pp = Some ppv -> sprite ppv = Some psid ->
  sprites w !! psid = Some ps -> base ppv = Some pb ->
  exists w' p' h' ps',
    ConjugateBase_update Date_now this w = Some (tt, w') /\
    heap w' !! this = Some p' /\ proton p' = Some h' /\
    particle h' = None /\ release_after h' = None /\ restore_depth h' = None /\
    base_of (heap w') pp = None /\
    sprites w' !! psid = Some ps' /\ depth ps' = restore_depth h.
Proof.
  intros Hp Hh Hra Hnz Hle Hpost Hpp Hppv Hps Hpsv Hpb.
  rewrite (ConjugateBase_update_eq w this p h) by assumption.
  rewrite Hra. rewrite (proj2 (truthy_num_Some ra) Hnz). cbv zeta. simpl to_number.
  assert (H1 : ra <= Date_now (clock_reads w)) by lra.
  rewrite (proj2 (Qltb_ge _ _) H1). rewrite (proj2 (Qltb_ge _ _) Hle).
  rewrite Hpp; simpl. rewrite Hppv; simpl. rewrite Hps; simpl.
  rewrite Hpsv; simpl. rewrite Hpb; simpl.
  assert (Hne : this <> pp).
  { intros ->. rewrite Hp in Hppv. injection Hppv as ->.
    eapply proton_base_disjoint; eauto. }
  do 4 eexists. split; [reflexivity|]. simpl.
  rewrite !lookup_insert_eq. split; [reflexivity|]. split; [reflexivity|].
  split; [reflexivity|]. split; [reflexivity|]. split; [reflexivity|].
  split; [|done].
  unfold base_of. rewrite lookup_insert_ne by done. rewrite lookup_insert_eq.
  reflexivity.
Qed.

(** A [release_after] of 0 is falsy: the update returns at once, whatever
    the clock says. *)
Lemma update_zero_release_after w this p h ra :
  heap w !! this = Some p -> proton p = Some h ->
  release_after h = Some ra -> ra == 0 ->
  ConjugateBase_update Date_now this w = Some (tt, w).
Proof.
  intros Hp Hh Hra Hz.
  rewrite (ConjugateBase_update_eq w this p h) by assumption.
  rewrite Hra. simpl. apply Qeq_bool_iff in Hz. rewrite Hz. reflexivity.
Qed.

(** C2. A capture at a clock time [now] after the epoch, with the random
    fraction [r] and a bond record whose range and duration are not negative
    (as the constructors set them), stores [release_after = now + range[0] +
    range[1] * r], a positive time, and bonds the pair.  In every later world
    that still holds the two records as the capture wrote them, the base's
    update keeps the proton at the base's position plus the offset while the
    clock is before [release_after]; from [release_after] on it leaves the
    pair alone (only the clock is read) until [release_after +
    post_release_duration]; and from that time on it clears both references
    and [release_after]. *)
Theorem bond_releases_on_schedule w bsid psid bs ps b p bp pp bh pb :
  sprites w !! bsid = Some bs -> sprite_particle bs = Some b ->
  heap w !! b = Some bp -> proton bp = Some bh ->
  sprites w !! psid = Some ps -> sprite_particle ps = Some p ->
  heap w !! p = Some pp -> base pp = Some pb ->
  base_particle pb = None -> particle bh = None ->
  sprite bp = Some bsid -> sprite pp = Some psid ->
  0 < Date_now (clock_reads w) ->
  0 <= Math_random (random_reads w) ->
  0 <= fst (release_after_range bh) -> 0 <= snd (release_after_range bh) ->
  0 <= post_release_duration bh ->
  let ra := Date_now (clock_reads w) + fst (release_after_range bh)
            + snd (release_after_range bh) * Math_random (random_reads w) in
  let post := post_release_duration bh in
  exists w1 bp1 bh1 pp1,
    reacts_with_Proton Date_now Math_random bsid psid w = Some (tt, w1) /\
    heap w1 !! b = Some bp1 /\ proton bp1 = Some bh1 /\
    release_after bh1 = Some ra /\ post_release_duration bh1 = post /\
    heap w1 !! p = Some pp1 /\
    bonded (heap w1) b p /\
    forall w2 bs2 ps2,
      heap w2 !! b = Some bp1 -> heap w2 !! p = Some pp1 ->
      sprites w2 !! bsid = Some bs2 -> sprites w2 !! psid = Some ps2 ->
      let now := Date_now (clock_reads w2) in
      bonded (heap w2) b p /\
      (now < ra ->
       exists w3 ps3,
         ConjugateBase_update Date_now b w2 = Some (tt, w3) /\
         bonded (heap w3) b p /\ sprites w3 !! psid = Some ps3 /\
         position_x ps3 = position_x bs2 + offset_x bh /\
         position_y ps3 = position_y bs2 + offset_y bh) /\
      (ra <= now -> now < ra + post ->
       ConjugateBase_update Date_now b w2 = Some (tt, tick w2)) /\
      (ra + post <= now ->
       exists w3 bp3 bh3,
         ConjugateBase_update Date_now b w2 = Some (tt, w3) /\
         proton_of (heap w3) b = None /\ base_of (heap w3) p = None /\
         heap w3 !! b = Some bp3 /\ proton bp3 = Some bh3 /\
         release_after bh3 = None).
Proof.
  intros Hbs Hb Hbp Hbh Hps Hp Hpp Hpb E1 E2 Hsb Hsp Hnow Hr Hr0 Hr1 Hpost ra post.
  assert (Hne : b <> p).
  { intros ->. rewrite Hbp in Hpp. injection Hpp as ->.
    eapply proton_base_disjoint; eauto. }
  assert (Hpos : 0 < ra) by (unfold ra; nra).
  assert (Hnz : ~ ra == 0) by lra.
  rewrite (reacts_with_Proton_eq w bsid psid bs ps p pp pb)
    by assumption.
  rewrite Hb, Hbp, Hbh, E1, E2. cbn [truthy_ref].
  eexists _, _, _, _. split; [reflexivity|]. unfold bond_world.
  cbn [beaker sprites heap clock_reads random_reads].
  split; [apply lookup_insert_eq|].
  split; [reflexivity|]. split; [reflexivity|]. split; [reflexivity|].
  split; [rewrite lookup_insert_ne by done; apply lookup_insert_eq|].
  assert (Hbonded : forall h' : gmap nat Particle,
            h' !! b = Some (set_proton (captured (Date_now (clock_reads w))
                              (Math_random (random_reads w)) p (depth ps) bh) bp) ->
            h' !! p = Some (set_base (mkBaseHash (Some b)) pp) ->
            bonded h' b p).
  { intros h' H1 H2. unfold bonded, proton_of, base_of. rewrite H1, H2.
    split; reflexivity. }
  split.
  { apply Hbonded; [apply lookup_insert_eq|].
    rewrite lookup_insert_ne by done. apply lookup_insert_eq. }
  intros w2 bs2 ps2 H2b H2p H2bs H2ps.
  set (now := Date_now (clock_reads w2)).
  split; [by apply Hbonded|].
  rewrite (ConjugateBase_update_eq w2 b _ _ H2b eq_refl).
  cbn [release_after captured truthy_num to_number]. fold ra.
  replace (negb (Qeq_bool ra 0)) with true
    by (symmetry; apply negb_true_iff; apply not_true_is_false;
        intros HH; apply Qeq_bool_iff in HH; contradiction).
  cbv zeta. fold now.
  cbn [particle captured set_proton sprite post_release_duration restore_depth
       offset_x offset_y mbind option_bind].
  rewrite H2p. cbn [mbind option_bind set_base sprite base]. rewrite Hsp, Hsb.
  cbn [mbind option_bind]. rewrite H2bs, H2ps. cbn [mbind option_bind].
  split; [|split].
  - intros Hlt. rewrite (proj2 (Qltb_lt _ _) Hlt).
    eexists _, _. split; [reflexivity|]. cbn [heap sprites].
    split; [by apply Hbonded|]. split; [apply lookup_insert_eq|].
    split; reflexivity.
  - intros Hle Hlt.
    rewrite (proj2 (Qltb_ge _ _) Hle). fold post.
    rewrite (proj2 (Qltb_lt _ _) Hlt). reflexivity.
  - intros Hle. fold post.
    assert (H1 : ra <= now) by (unfold post in *; lra).
    rewrite (proj2 (Qltb_ge _ _) H1). rewrite (proj2 (Qltb_ge _ _) Hle).
    eexists _, _, _. split; [reflexivity|]. cbn [heap].
    unfold proton_of, base_of.
    rewrite lookup_insert_eq. rewrite lookup_insert_ne by done.
    rewrite lookup_insert_eq. repeat split; reflexivity.
Qed.

(** C3. On every tick on which [update()] runs on a base whose bond record
    has a [release_after] other than 0 (the handler stores a positive time
    whenever the clock reads a positive time, as [Date.now()] does): before
    [release_after] the update reads the clock and puts the bonded proton's
    sprite at the base sprite's position plus the offset, and changes
    nothing else; from [release_after] until [release_after +
    post_release_duration] it only reads the clock, so the proton's position
    is not touched and both references stay; from then on it restores the
    proton sprite's depth from [restore_depth] and clears both references,
    [restore_depth] and [release_after]. *)
Theorem update_follows_release_timer w this p h ra pp ppv psid bsid bs ps pb :
  heap w !! this = Some p -> proton p = Some h ->
  release_after h = Some ra -> ~ ra == 0 ->
  0 <= post_release_duration h ->
  particle h = Some pp -> heap w !! pp = Some ppv -> base ppv = Some pb ->
  sprite ppv = Some psid -> sprites w !! psid = Some ps ->
  sprite p = Some bsid -> sprites w !! bsid = Some bs ->
  let now := Date_now (clock_reads w) in
  (now < ra ->
   ConjugateBase_update Date_now this w =
     Some (tt,
       mkWorld (beaker w)
         (<[psid := mkSprite (position_x bs + offset_x h) (position_y bs + offset_y h)
                             (velocity_x ps) (velocity_y ps) (depth ps) (collider ps)
                             (sprite_particle ps)]> (sprites w))
         (heap w) (S (clock_reads w)) (random_reads w))) /\
  (ra <= now -> now < ra + post_release_duration h ->
   ConjugateBase_update Date_now this w =
     Some (tt, mkWorld (beaker w) (sprites w) (heap w)
                       (S (clock_reads w)) (random_reads w))) /\
  (ra + post_release_duration h <= now ->
   exists w',
     ConjugateBase_update Date_now this w = Some (tt, w') /\
     sprites w' = <[psid := set_depth (restore_depth h) ps]> (sprites w) /\
     heap w' = <[this := set_proton
                           (mkProtonHash None (offset_x h) (offset_y h) None
                              (release_after_range h) (post_release_duration h) None) p]>
                 (<[pp := set_base (mkBaseHash None) ppv]> (heap w)) /\
     beaker w' = beaker w /\
     proton_of (heap w') this = None /\ base_of (heap w') pp = None).
Proof.
  intros Hp Hh Hra Hnz Hpost Hpp Hppv Hpb Hps Hpsv Hbs Hbsv now.
  rewrite (ConjugateBase_update_eq w this p h) by assumption.
  rewrite Hra. rewrite (proj2 (truthy_num_Some ra) Hnz). cbv zeta. simpl to_number.
  fold now.
  split; [|split].
  - intros Hlt. rewrite (proj2 (Qltb_lt _ _) Hlt).
    rewrite Hpp; simpl. rewrite Hppv; simpl. rewrite Hps; simpl.
    rewrite Hbs; simpl. rewrite Hbsv; simpl. rewrite Hpsv; simpl. reflexivity.
  - intros Hle Hlt.
    rewrite (proj2 (Qltb_ge _ _) Hle). rewrite (proj2 (Qltb_lt _ _) Hlt).
    reflexivity.
  - intros Hle.
    assert (H1 : ra <= now) by lra.
    rewrite (proj2 (Qltb_ge _ _) H1). rewrite (proj2 (Qltb_ge _ _) Hle).
    rewrite Hpp; simpl. rewrite Hppv; simpl. rewrite Hps; simpl.
    rewrite Hpsv; simpl. rewrite Hpb; simpl.
    assert (Hne : this <> pp).
    { intros ->. rewrite Hp in Hppv. injection Hppv as ->.
      eapply proton_base_disjoint; eauto. }
    eexists. split; [reflexivity|]. simpl.
    split; [reflexivity|]. split; [reflexivity|]. split; [reflexivity|].
    unfold proton_of, base_of.
    rewrite lookup_insert_eq. rewrite lookup_insert_ne by done.
    rewrite lookup_insert_eq. split; reflexivity.
Qed.

(** *** Symmetry of bond references *)

Lemma proton_of_insert h k v b :
  proton_of (<[k:=v]> h) b =
    if decide (k = b) then r ← proton v; particle r else proton_of h b.
Proof.
  unfold proton_of. destruct (decide (k = b)) as [->|Hne].
  - rewrite lookup_insert_eq. reflexivity.
  - rewrite lookup_insert_ne by done. reflexivity.
Qed.

Lemma base_of_insert h k v p :
  base_of (<[k:=v]> h) p =
    if decide (k = p) then r ← base v; base_particle r else base_of h p.
Proof.
  unfold base_of. destruct (decide (k = p)) as [->|Hne].
  - rewrite lookup_insert_eq. reflexivity.
  - rewrite lookup_insert_ne by done. reflexivity.
Qed.

Lemma proton_of_has_base h p pv pb :
  h !! p = Some pv -> base pv = Some pb -> proton_of h p = None.
Proof.
  intros Hp Hb. unfold proton_of. rewrite Hp. simpl.
  unfold proton, base in *. destruct (props pv); done.
Qed.

Lemma base_of_has_proton h b bv bh :
  h !! b = Some bv -> proton bv = Some bh -> base_of h b = None.
Proof.
  intros Hb Hh. unfold base_of. rewrite Hb. simpl.
  unfold proton, base in *. destruct (props bv); done.
Qed.

(** Forming a bond between a free base and a free proton keeps the
    references symmetric. *)
Lemma symmetric_bond h b p bp bh pp pb H :
  symmetric h ->
  h !! b = Some bp -> proton bp = Some bh -> particle bh = None ->
  h !! p = Some pp -> base pp = Some pb -> base_particle pb = None ->
  particle H = Some p ->
  symmetric (<[b := set_proton H bp]> (<[p := set_base (mkBaseHash (Some b)) pp]> h)).
Proof.
  intros Hsym Hb Hbh Hfree Hp Hpb Hpfree HH b0 p0.
  assert (Hne : b <> p).
  { intros ->. rewrite Hb in Hp. injection Hp as ->.
    eapply proton_base_disjoint; eauto. }
  assert (Hpo : proton_of h b = None).
  { unfold proton_of. rewrite Hb. simpl. rewrite Hbh. exact Hfree. }
  assert (Hbo : base_of h p = None).
  { unfold base_of. rewrite Hp. simpl. rewrite Hpb. exact Hpfree. }
  assert (Hpp : proton_of h p = None) by (eapply proton_of_has_base; eauto).
  assert (Hbb : base_of h b = None) by (eapply base_of_has_proton; eauto).
  rewrite !proton_of_insert, !base_of_insert. simpl. rewrite HH.
  repeat case_decide; subst; rewrite ?Hpo, ?Hbo, ?Hpp, ?Hbb; try done;
    try apply Hsym;
    split; intros HH1; try congruence; apply Hsym in HH1; congruence.
Qed.

(** Clearing both references of a bonded pair keeps the references
    symmetric. *)
Lemma symmetric_release h this pp pv hh ppv pb H :
  symmetric h ->
  h !! this = Some pv -> proton pv = Some hh -> particle hh = Some pp ->
  h !! pp = Some ppv -> base ppv = Some pb ->
  particle H = None ->
  symmetric (<[this := set_proton H pv]> (<[pp := set_base (mkBaseHash None) ppv]> h)).
Proof.
  intros Hsym Hb Hbh Hbond Hp Hpb HH b0 p0.
  assert (Hne : this <> pp).
  { intros ->. rewrite Hb in Hp. injection Hp as ->.
    eapply proton_base_disjoint; eauto. }
  assert (Hpo : proton_of h this = Some pp).
  { unfold proton_of. rewrite Hb. simpl. rewrite Hbh. exact Hbond. }
  assert (Hbo : base_of h pp = Some this) by (apply Hsym; exact Hpo).
  assert (Hpp : proton_of h pp = None) by (eapply proton_of_has_base; eauto).
  assert (Hbb : base_of h this = None) by (eapply base_of_has_proton; eauto).
  rewrite !proton_of_insert, !base_of_insert. simpl. rewrite HH.
  repeat case_decide; subst; rewrite ?Hpp, ?Hbb; try done;
    try apply Hsym;
    split; intros HH1; try congruence; apply Hsym in HH1; congruence.
Qed.

Lemma reacts_with_Proton_symmetric bsid psid :
  ptriple (fun w => symmetric (heap w)) (reacts_with_Proton Date_now Math_random bsid psid)
          (fun _ w => symmetric (heap w)).
Proof.
  intros w [] w' Hsym H.
  destruct (reacts_with_Proton_inv _ _ _ _ H) as (bs & ps & p & pp & pb & Hbs & Hps & Hp & Hpp & Hpb).
  rewrite (reacts_with_Proton_eq w bsid psid bs ps p pp pb) in H by assumption.
  destruct (base_particle pb) eqn:E1; simpl in H; [by injection H as <-|].
  destruct (sprite_particle bs) as [b|]; [|done].
  destruct (heap w !! b) as [bp|] eqn:Hbp; [|done].
  destruct (proton bp) as [bh|] eqn:Hbh; [|done].
  destruct (particle bh) eqn:E2; simpl in H; [by injection H as <-|].
  injection H as <-. unfold bond_world; simpl.
  eapply symmetric_bond; eauto.
Qed.

Lemma ConjugateBase_update_symmetric this :
  ptriple (fun w => symmetric (heap w)) (ConjugateBase_update Date_now this)
          (fun _ w => symmetric (heap w)).
Proof.
  intros w [] w' Hsym H.
  assert (Hlk : exists p h, heap w !! this = Some p /\ proton p = Some h).
  { unfold ConjugateBase_update in H.
    apply bind_Some in H as (p & w1 & H1 & H).
    apply get_particle_Some in H1 as (? & Hp & [= <- <-]).
    apply bind_Some in H as (h & w2 & H1 & H).
    apply deref_Some in H1 as (? & Hh & [= <- <-]). eauto. }
  destruct Hlk as (p & h & Hp & Hh).
  rewrite (ConjugateBase_update_eq w this p h) in H by assumption.
  destruct (truthy_num (release_after h)); [|by injection H as <-].
  cbv zeta in H.
  destruct (Qltb _ (to_number (release_after h))).
  - destruct (particle h) as [pp|]; [|done]. simpl in H.
    destruct (heap w !! pp) as [ppv|]; [|done]. simpl in H.
    destruct (sprite ppv) as [psid|]; [|done]. simpl in H.
    destruct (sprite p) as [bsid|]; [|done]. simpl in H.
    destruct (sprites w !! bsid) as [bs|]; [|done]. simpl in H.
    destruct (sprites w !! psid) as [ps|]; [|done]. simpl in H.
    by injection H as <-.
  - destruct (Qltb _ _); [by injection H as <-|].
    destruct (particle h) as [pp|] eqn:Hpp; [|done]. simpl in H.
    destruct (heap w !! pp) as [ppv|] eqn:Hppv; [|done]. simpl in H.
    destruct (sprite ppv) as [psid|]; [|done]. simpl in H.
    destruct (sprites w !! psid) as [ps|]; [|done]. simpl in H.
    destruct (base ppv) as [pb|] eqn:Hpb; [|done]. simpl in H.
    injection H as <-. simpl.
    eapply symmetric_release; eauto.
Qed.

(** The boundary reflection writes only sprite velocities. *)
Lemma sprite_boundary_update_preserves (R : gmap nat Particle -> Beaker -> Prop)
    sprite min_x min_y max_x max_y :
  preserves (fun w => R (heap w) (beaker w))
            (sprite_boundary_update overlapPoint sprite min_x min_y max_x max_y).
Proof.
  unfold sprite_boundary_update.
  repeat preserves_step.
  - repeat case_match; try apply preserves_ret;
      apply (preserves_modify_sprite R).
  - repeat case_match; try apply preserves_ret;
      apply (preserves_modify_sprite R).
Qed.

Lemma overlap_preserves I sprite group callback :
  (forall a b, preserves I (callback a b)) ->
  preserves I (overlap overlap_test sprite group callback).
Proof.
  intros Hcb. induction group as [|other rest IH]; simpl.
  - apply preserves_ret.
  - repeat preserves_step; [|exact IH].
    case_match; [apply Hcb | apply preserves_ret].
Qed.

Lemma sprite_resolve_collisions_preserves I sprite table :
  Forall (fun e => forall a b, preserves I (e.2 a b)) table ->
  preserves I (sprite_resolve_collisions overlap_test sprite table).
Proof.
  induction 1 as [|[key reaction] rest Hr _ IH]; simpl.
  - apply preserves_ret.
  - repeat preserves_step; [|exact IH].
    case_match; [|apply preserves_ret].
    apply overlap_preserves. exact Hr.
Qed.

Lemma update_symmetric this :
  preserves (fun w => symmetric (heap w)) (update Date_now this).
Proof.
  unfold update. repeat preserves_step.
  case_match; try apply preserves_ret; apply ConjugateBase_update_symmetric.
Qed.

Lemma reacts_with_symmetric c :
  Forall (fun e => forall a b, preserves (fun w => symmetric (heap w)) (e.2 a b))
         (reacts_with Date_now Math_random c).
Proof.
  destruct c; simpl; try apply Forall_nil_2;
    (apply Forall_cons_2; [|apply Forall_nil_2]); simpl; intros;
    apply reacts_with_Proton_symmetric.
Qed.

Lemma update_sprite_symmetric sprite min_x min_y max_x max_y :
  preserves (fun w => symmetric (heap w))
    (update_sprite Date_now Math_random overlapPoint overlap_test
                   sprite min_x min_y max_x max_y).
Proof.
  unfold update_sprite. repeat preserves_step.
  - apply (sprite_boundary_update_preserves (fun h _ => symmetric h)).
  - apply sprite_resolve_collisions_preserves, reacts_with_symmetric.
  - apply update_symmetric.
Qed.

Lemma step_symmetric :
  preserves (fun w => symmetric (heap w))
    (step Date_now Math_random overlapPoint overlap_test).
Proof.
  unfold step, update_particles. repeat preserves_step.
  generalize (all_particle_sprites a). intros l.
  induction l as [|sprite rest IH]; simpl.
  - apply preserves_ret.
  - repeat preserves_step; [apply update_sprite_symmetric | exact IH].
Qed.

(** C4. Bond references stay symmetric across every operation that returns:
    the reaction handler, the update of a conjugate base and a whole step of
    the beaker; and with symmetric references no two bases reference the
    same proton (nor two protons the same base). *)
Theorem bond_symmetry_preserved w :
  symmetric (heap w) ->
  (forall bsid psid w',
     reacts_with_Proton Date_now Math_random bsid psid w = Some (tt, w') -> symmetric (heap w')) /\
  (forall this w',
     ConjugateBase_update Date_now this w = Some (tt, w') -> symmetric (heap w')) /\
  (forall w',
     step Date_now Math_random overlapPoint overlap_test w = Some (tt, w') ->
     symmetric (heap w')) /\
  (forall b1 b2 p,
     proton_of (heap w) b1 = Some p -> proton_of (heap w) b2 = Some p -> b1 = b2) /\
  (forall p1 p2 b,
     base_of (heap w) p1 = Some b -> base_of (heap w) p2 = Some b -> p1 = p2).
Proof.
  intros Hsym. split; [|split; [|split; [|split]]].
  - intros bsid psid w' H. eapply reacts_with_Proton_symmetric; eauto.
  - intros this w' H. eapply ConjugateBase_update_symmetric; eauto.
  - intros w' H. eapply step_symmetric; eauto.
  - intros b1 b2 p H1 H2. apply Hsym in H1, H2. congruence.
  - intros p1 p2 b H1 H2. apply Hsym in H1, H2. congruence.
Qed.

(** *** Boundary reflection *)

(** The boundary reflection in closed form: it always returns and rewrites
    the sprite's two velocity components, each from its own pair of edge
    tests. *)
Lemma sprite_boundary_update_run w sprite s min_x min_y max_x max_y :
  sprites w !! sprite = Some s ->
  let at_left := overlapPoint (geometry s) min_x (position_y s) in
  let at_right := overlapPoint (geometry s) max_x (position_y s) in
  let at_top := overlapPoint (geometry s) (position_x s) min_y in
  let at_bottom := overlapPoint (geometry s) (position_x s) max_y in
  exists s',
    sprite_boundary_update overlapPoint sprite min_x min_y max_x max_y w =
      Some (tt, mkWorld (beaker w) (<[sprite := s']> (sprites w)) (heap w)
                        (clock_reads w) (random_reads w)) /\
    velocity_x s' = (if at_left then Qabs (velocity_x s)
                     else if at_right then - Qabs (velocity_x s)
                     else velocity_x s) /\
    velocity_y s' = (if at_top then Qabs (velocity_y s)
                     else if at_bottom then - Qabs (velocity_y s)
                     else velocity_y s) /\
    geometry s' = geometry s /\ depth s' = depth s /\
    sprite_particle s' = sprite_particle s.
Proof.
  intros Hs at_left at_right at_top at_bottom.
  unfold sprite_boundary_update.
  mrun (get_sprite_run _ _ _ Hs).
  set (s1 := if at_left then set_velocity_x (Qabs (velocity_x s)) s
             else if at_right then set_velocity_x (- Qabs (velocity_x s)) s else s).
  assert (Hg1 : geometry s1 = geometry s).
  { unfold s1. destruct at_left, at_right; reflexivity. }
  assert (Hx1 : (if at_left
                 then modify_sprite sprite (set_velocity_x (Qabs (velocity_x s)))
                 else if at_right
                      then modify_sprite sprite (set_velocity_x (- Qabs (velocity_x s)))
                      else ret tt) w =
                Some (tt, mkWorld (beaker w) (<[sprite := s1]> (sprites w)) (heap w)
                                  (clock_reads w) (random_reads w))).
  { unfold s1. destruct at_left; [apply modify_sprite_run; exact Hs|].
    destruct at_right; [apply modify_sprite_run; exact Hs|].
    unfold ret. rewrite insert_id by exact Hs. destruct w; reflexivity. }
  fold at_left at_right. mrun Hx1.
  erewrite bind_run; [|apply get_sprite_run; simpl; apply lookup_insert_eq].
  assert (Hp1 : position_x s1 = position_x s /\ position_y s1 = position_y s).
  { unfold s1. destruct at_left, at_right; done. }
  destruct Hp1 as [Hpx Hpy]. rewrite Hg1, Hpx. fold at_top at_bottom.
  set (s2 := if at_top then set_velocity_y (Qabs (velocity_y s1)) s1
             else if at_bottom then set_velocity_y (- Qabs (velocity_y s1)) s1 else s1).
  exists s2.
  assert (Hvy1 : velocity_y s1 = velocity_y s).
  { unfold s1. destruct at_left, at_right; reflexivity. }
  split.
  { unfold s2. destruct at_top.
    - erewrite modify_sprite_run by (simpl; apply lookup_insert_eq).
      simpl. rewrite insert_insert_eq. reflexivity.
    - destruct at_bottom.
      + erewrite modify_sprite_run by (simpl; apply lookup_insert_eq).
        simpl. rewrite insert_insert_eq. reflexivity.
      + reflexivity. }
  split.
  { transitivity (velocity_x s1).
    - unfold s2. destruct at_top, at_bottom; reflexivity.
    - unfold s1. destruct at_left, at_right; reflexivity. }
  split.
  { unfold s2. destruct at_top, at_bottom; simpl; rewrite ?Hvy1; reflexivity. }
  unfold s2. destruct at_top, at_bottom; simpl; rewrite <- ?Hg1;
    unfold s1; destruct at_left, at_right; done.
Qed.

(** *** Placement *)

Lemma Qgeb_ge a b : Qgeb a b = true <-> b <= a.
Proof. unfold Qgeb. apply Qle_bool_iff. Qed.

(** The placement loop when the particle does not fit: every attempt is
    skipped. *)
Lemma addParticles_loop_rejected cls name quantity w :
  Qgeb (collider_radius (prototype cls) * 2) (sol_width (solution (beaker w))) ||
  Qgeb (collider_radius (prototype cls) * 2) (sol_height (solution (beaker w))) = true ->
  addParticles_loop Math_random createSprite_depth cls name quantity w = Some (tt, w).
Proof.
  intros Hrej. induction quantity as [|q IH]; simpl; [reflexivity|].
  unfold randomPoint. unfold bind at 1. unfold bind at 1. simpl.
  rewrite Hrej. simpl. exact IH.
Qed.

Lemma rounding_proper fl a b : rounding fl -> a == b -> fl a == fl b.
Proof.
  intros [Hm _ _] Hab. apply Qle_antisym; apply Hm; rewrite Hab; apply Qle_refl.
Qed.

(** A rounded sum of a machine number and a rounded product with a fraction
    stays between the machine number and the rounded sum with the other
    factor. *)
Lemma rounded_offset_bounds fl base width r :
  rounding fl -> 0 <= r -> r < 1 -> 0 <= width ->
  fl base <= fl (fl base + fl (r * fl width)) /\
  fl (fl base + fl (r * fl width)) <= fl (fl base + fl width).
Proof.
  intros Hfl Hr0 Hr1 Hw.
  pose proof Hfl as [Hm Hi Hz].
  assert (Hfw : 0 <= fl width) by (rewrite <- Hz; by apply Hm).
  assert (H0 : 0 <= fl (r * fl width)).
  { rewrite <- Hz. apply Hm. nra. }
  assert (H1 : fl (r * fl width) <= fl width).
  { rewrite <- (Hi width) at 2. apply Hm. nra. }
  split.
  - rewrite <- (Hi base) at 1. apply Hm. lra.
  - apply Hm. lra.
Qed.


(** *** The keys of the per-type groups *)

Lemma Math_random_preserves_beaker (R : Beaker -> Prop) :
  preserves (fun w => R (beaker w)) (Math_random_ Math_random).
Proof. intros w a w' HI [= <- <-]. exact HI. Qed.

Lemma createSprite_preserves_beaker (R : Beaker -> Prop) this x y :
  preserves (fun w => R (beaker w))
            (createSprite Math_random createSprite_depth this x y).
Proof.
  unfold createSprite, randomVelocity.
  repeat first [beaker_step R | apply Math_random_preserves_beaker].
Qed.

Lemma new_preserves_beaker (R : Beaker -> Prop) c x y :
  preserves (fun w => R (beaker w)) (new Math_random createSprite_depth c x y).
Proof.
  unfold new. beaker_step R; [beaker_step R|].
  beaker_step R; [beaker_step R|]. beaker_step R; [|beaker_step R].
  destruct c; unfold StrongConjugateBase_call, WeakConjugateBase_call,
    ConjugateBase_call, Proton_call, Particle_call;
    repeat first [beaker_step R | apply createSprite_preserves_beaker].
Qed.

Lemma addParticle_other_keys k name particle G :
  k <> name ->
  preserves (fun w => particles (beaker w) !! k = G) (addParticle name particle).
Proof.
  intros Hk w [] w' HI H. unfold addParticle in H.
  apply bind_Some in H as (b & w1 & [= <- <-] & H).
  apply bind_Some in H as (g & w2 & H1 & H).
  apply deref_Some in H1 as (? & Hg & [= <- <-]).
  apply bind_Some in H as (pv & w3 & H1 & H).
  apply get_particle_Some in H1 as (? & Hpv & [= <- <-]).
  apply bind_Some in H as (sid & w4 & H1 & H).
  apply deref_Some in H1 as (? & Hs & [= <- <-]).
  injection H as <-. simpl. rewrite lookup_insert_ne by done. exact HI.
Qed.

Lemma addParticle_keeps_group name particle :
  preserves (fun w => is_Some (particles (beaker w) !! name))
            (addParticle name particle).
Proof.
  intros w [] w' HI H. unfold addParticle in H.
  apply bind_Some in H as (b & w1 & [= <- <-] & H).
  apply bind_Some in H as (g & w2 & H1 & H).
  apply deref_Some in H1 as (? & Hg & [= <- <-]).
  apply bind_Some in H as (pv & w3 & H1 & H).
  apply get_particle_Some in H1 as (? & Hpv & [= <- <-]).
  apply bind_Some in H as (sid & w4 & H1 & H).
  apply deref_Some in H1 as (? & Hs & [= <- <-]).
  injection H as <-. simpl. rewrite lookup_insert_eq. eauto.
Qed.

Lemma randomPoint_preserves_beaker (R : Beaker -> Prop) r :
  preserves (fun w => R (beaker w)) (randomPoint Math_random r).
Proof.
  unfold randomPoint. beaker_step R; [beaker_step R|].
  case_match; repeat first [beaker_step R | apply Math_random_preserves_beaker].
Qed.

Lemma addParticles_loop_preserves (R : Beaker -> Prop) cls name quantity :
  (forall p, preserves (fun w => R (beaker w)) (addParticle name p)) ->
  preserves (fun w => R (beaker w))
            (addParticles_loop Math_random createSprite_depth cls name quantity).
Proof.
  intros Hadd. induction quantity as [|q IH]; simpl.
  - apply preserves_ret.
  - beaker_step R; [apply randomPoint_preserves_beaker|].
    beaker_step R; [|exact IH].
    destruct a as [[x y]|]; [|apply preserves_ret].
    beaker_step R; [apply new_preserves_beaker | apply Hadd].
Qed.

Lemma addParticles_other_keys cls quantity k w w' :
  k <> property_key (prototype_name cls) ->
  addParticles Math_random createSprite_depth cls quantity w = Some (tt, w') ->
  particles (beaker w') !! k = particles (beaker w) !! k.
Proof.
  intros Hk H. unfold addParticles in H.
  apply bind_Some in H as ([] & w1 & H1 & H).
  assert (H0 : particles (beaker w1) !! k = particles (beaker w) !! k).
  { unfold initParticleGroup in H1.
    apply bind_Some in H1 as (b & w0 & [= <- <-] & H1).
    destruct (particles (beaker w) !! _); injection H1 as <-; [done|].
    simpl. by rewrite lookup_insert_ne. }
  rewrite <- H0.
  eapply (addParticles_loop_preserves
            (fun b => particles b !! k = particles (beaker w1) !! k));
    [| |exact H]; [|reflexivity].
  intros p. apply addParticle_other_keys. exact Hk.
Qed.

Lemma addParticles_registers_prototype_name cls quantity w w' :
  addParticles Math_random createSprite_depth cls quantity w = Some (tt, w') ->
  is_Some (particles (beaker w') !! property_key (prototype_name cls)).
Proof.
  intros H. unfold addParticles in H.
  apply bind_Some in H as ([] & w1 & H1 & H).
  assert (H0 : is_Some (particles (beaker w1) !! property_key (prototype_name cls))).
  { unfold initParticleGroup in H1.
    apply bind_Some in H1 as (b & w0 & [= <- <-] & H1).
    destruct (particles (beaker w) !! _) eqn:E; injection H1 as <-; [eauto|].
    simpl. rewrite lookup_insert_eq. eauto. }
  eapply (addParticles_loop_preserves
            (fun b => is_Some (particles b !! property_key (prototype_name cls))));
    [| |exact H]; [|exact H0].
  intros p. apply addParticle_keeps_group.
Qed.

(** C9. For a class whose own name differs from the name on its prototype:
    [addParticles] registers and fills the group under the prototype's name
    and leaves the entry under the class's own name as it was;
    [removeParticles] reads the group under the class's own name only, so it
    throws when there is none (as after adding to a new beaker), and when
    there is one it takes sprites out of that group and leaves the group
    under the prototype's name, which shares no sprite with it, as it was. *)
Theorem add_and_remove_use_different_keys cls :
  fn_name cls <> property_key (prototype_name cls) ->
  (forall w quantity w',
     addParticles Math_random createSprite_depth cls quantity w = Some (tt, w') ->
     is_Some (particles (beaker w') !! property_key (prototype_name cls)) /\
     particles (beaker w') !! fn_name cls = particles (beaker w) !! fn_name cls) /\
  (forall w quantity,
     particles (beaker w) !! fn_name cls = None ->
     removeParticles cls quantity w = None) /\
  (forall b quantity quantity' w',
     addParticles Math_random createSprite_depth cls quantity (empty_world b)
       = Some (tt, w') ->
     particles b = ∅ ->
     removeParticles cls quantity' w' = None) /\
  (forall w quantity g gp,
     particles (beaker w) !! fn_name cls = Some g ->
     NoDup g -> Forall (linked w) g ->
     particles (beaker w) !! property_key (prototype_name cls) = Some gp ->
     (forall s, s ∈ g -> s ∉ gp) ->
     exists w',
       removeParticles cls quantity w = Some (tt, w') /\
       particles (beaker w') !! property_key (prototype_name cls) = Some gp).
Proof.
  intros Hne. split; [|split; [|split]].
  - intros w quantity w' H. split.
    + eapply addParticles_registers_prototype_name; eauto.
    + eapply addParticles_other_keys; eauto.
  - intros w quantity Hg. by apply removeParticles_no_group.
  - intros b quantity quantity' w' H Hb. apply removeParticles_no_group.
    rewrite (addParticles_other_keys _ _ _ _ _ Hne H). simpl.
    rewrite Hb. apply lookup_empty.
  - intros w quantity g gp Hg Hnd Hlk Hgp Hdisj.
    assert (Hm : (Nat.min quantity (length g) <= length g)%nat) by lia.
    assert (Hrun : removeParticles cls quantity w =
                   removeParticles_loop (fn_name cls) (Nat.min quantity (length g)) w).
    { unfold removeParticles. unfold bind at 1. unfold get_beaker.
      mrun (deref_run _ _ w Hg).
      destruct (Nat.ltb_spec (length g) quantity).
      - by rewrite Nat.min_r by lia.
      - by rewrite Nat.min_l by lia. }
    destruct (removeParticles_loop_steps (fn_name cls) w g _ Hg Hnd Hlk Hm
                (Nat.min quantity (length g)) 0%nat ltac:(lia))
      as (w' & Hrun0 & Hb & _).
    exists w'. split; [rewrite Hrun, Hrun0; reflexivity|].
    rewrite Hb. unfold Beaker_without, set_particles, set_all_particle_sprites.
    simpl. rewrite lookup_fmap, Hgp. simpl. f_equal.
    apply filter_keep. intros s Hs Hin. apply (Hdisj s); [|exact Hs].
    rewrite drop_0 in Hin. eapply elem_of_sublist; [exact Hin|apply sublist_take].
Qed.

(** *** Well-formed worlds are kept *)

Lemma truthy_ref_Some {A} (o : option A) : truthy_ref o = true <-> is_Some o.
Proof. destruct o; simpl; split; eauto; try done. Qed.

Lemma same_shape_refl pv : same_shape pv pv.
Proof. done. Qed.

Lemma same_shape_trans a b c : same_shape a b -> same_shape b c -> same_shape a c.
Proof.
  intros (? & ? & ? & ?) (? & ? & ? & ?). repeat split; congruence.
Qed.

Lemma same_shape_set_proton pv r r' :
  proton pv = Some r -> same_shape pv (set_proton r' pv).
Proof.
  intros H. unfold same_shape, proton, base in *. simpl.
  destruct (props pv); done.
Qed.

Lemma same_shape_set_base pv r r' :
  base pv = Some r -> same_shape pv (set_base r' pv).
Proof.
  intros H. unfold same_shape, proton, base in *. simpl.
  destruct (props pv); done.
Qed.

Lemma evolves_refl w : evolves w w.
Proof. repeat split; eauto using same_shape_refl. Qed.

Lemma evolves_trans a b c : evolves a b -> evolves b c -> evolves a c.
Proof.
  intros (Hb1 & Hs1 & Hh1) (Hb2 & Hs2 & Hh2). split; [congruence|]. split.
  - intros sid sv H. destruct (Hs1 _ _ H) as (sv1 & H1 & E1 & C1).
    destruct (Hs2 _ _ H1) as (sv2 & H2 & E2 & C2). exists sv2.
    split; [done|]. split; congruence.
  - intros pid pv H. destruct (Hh1 _ _ H) as (pv1 & H1 & E1).
    destruct (Hh2 _ _ H1) as (pv2 & H2 & E2). exists pv2.
    split; [done|]. eapply same_shape_trans; eauto.
Qed.

Lemma evolves_sprite_update w sid sv sv' c r :
  sprites w !! sid = Some sv -> sprite_particle sv' = sprite_particle sv ->
  collider sv' = collider sv ->
  evolves w (mkWorld (beaker w) (<[sid:=sv']> (sprites w)) (heap w) c r).
Proof.
  intros Hs Hp Hc. split; [done|]. split; simpl.
  - intros s0 v0 H0. destruct (decide (sid = s0)) as [<-|Hne].
    + rewrite lookup_insert_eq. exists sv'. split; [done|]. split; congruence.
    + rewrite lookup_insert_ne by done. eauto.
  - intros pid pv H. eauto using same_shape_refl.
Qed.

Lemma evolves_heap_update w k pv pv' c r :
  heap w !! k = Some pv -> same_shape pv pv' ->
  evolves w (mkWorld (beaker w) (sprites w) (<[k:=pv']> (heap w)) c r).
Proof.
  intros Hk Hsh. split; [done|]. split; simpl.
  - intros s0 v0 H0. eauto.
  - intros pid pv0 H. destruct (decide (k = pid)) as [<-|Hne].
    + rewrite lookup_insert_eq. exists pv'. split; [done|]. congruence.
    + rewrite lookup_insert_ne by done. eauto using same_shape_refl.
Qed.

Lemma evolves_counters w c r :
  evolves w (mkWorld (beaker w) (sprites w) (heap w) c r).
Proof. split; [done|]. split; simpl; eauto using same_shape_refl. Qed.

Lemma registered_ok_inv w sid :
  registered_ok w sid = true ->
  exists sv pid pv, sprites w !! sid = Some sv /\ sprite_particle sv = Some pid /\
                    heap w !! pid = Some pv.
Proof.
  unfold registered_ok. intros H.
  destruct (sprites w !! sid) as [sv|] eqn:E1; [|done].
  destruct (sprite_particle sv) as [pid|] eqn:E2; [|done].
  destruct (heap w !! pid) as [pv|] eqn:E3; [|done]. eauto 10.
Qed.

Lemma proton_sprite_ok_inv w sid :
  proton_sprite_ok w sid = true ->
  exists sv pid pv pb, sprites w !! sid = Some sv /\ sprite_particle sv = Some pid /\
                       heap w !! pid = Some pv /\ base pv = Some pb.
Proof.
  unfold proton_sprite_ok. intros H.
  destruct (sprites w !! sid) as [sv|] eqn:E4; [|done].
  destruct (sprite_particle sv) as [pid|] eqn:E5; [|done].
  destruct (heap w !! pid) as [pv|] eqn:E6; [|done].
  destruct (base pv) as [pb|] eqn:E7; [|done]. eauto 10.
Qed.

Lemma registered_ok_evolves w w' sid :
  evolves w w' -> registered_ok w sid = true -> registered_ok w' sid = true.
Proof.
  intros (_ & Hs & Hh) H.
  destruct (registered_ok_inv _ _ H) as (sv & pid & pv & H1 & H2 & H3).
  destruct (Hs _ _ H1) as (sv' & H1' & E & _). destruct (Hh _ _ H3) as (pv' & H3' & _).
  unfold registered_ok. rewrite H1', E, H2, H3'. done.
Qed.

Lemma proton_sprite_ok_evolves w w' sid :
  evolves w w' -> proton_sprite_ok w sid = true -> proton_sprite_ok w' sid = true.
Proof.
  intros (_ & Hs & Hh) H.
  destruct (proton_sprite_ok_inv _ _ H) as (sv & pid & pv & pb & H1 & H2 & H3 & H4).
  destruct (Hs _ _ H1) as (sv' & H1' & E & _).
  destruct (Hh _ _ H3) as (pv' & H3' & (_ & _ & _ & Hb)).
  unfold proton_sprite_ok. rewrite H1', E, H2, H3', Hb, H4. done.
Qed.

Lemma bond_ok_inv h pv r :
  bond_ok h pv = true -> proton pv = Some r -> truthy_num (release_after r) = true ->
  exists pp ppv pb, particle r = Some pp /\ h !! pp = Some ppv /\ base ppv = Some pb.
Proof.
  unfold bond_ok. intros H Hr Ht. rewrite Hr, Ht in H. simpl in H.
  destruct (particle r) as [pp|] eqn:E8; [|done].
  destruct (h !! pp) as [ppv|] eqn:E9; [|done].
  destruct (base ppv) as [pb|] eqn:E10; [|done]. eauto 10.
Qed.

Lemma bond_ok_mono h h' pv :
  (forall pp ppv, h !! pp = Some ppv ->
     exists ppv', h' !! pp = Some ppv' /\ truthy_ref (base ppv') = truthy_ref (base ppv)) ->
  bond_ok h pv = true -> bond_ok h' pv = true.
Proof.
  unfold bond_ok. intros Hm H.
  destruct (proton pv) as [r|] eqn:E11; [|done].
  destruct (truthy_num (release_after r)); [|done]. simpl in *.
  destruct (particle r) as [pp|] eqn:E12; [|done].
  destruct (h !! pp) as [ppv|] eqn:E; [|done].
  destruct (Hm _ _ E) as (ppv' & -> & ->). exact H.
Qed.

Lemma particle_ok_inv w pv :
  particle_ok w pv = true ->
  (exists sid sv, sprite pv = Some sid /\ sprites w !! sid = Some sv) /\
  (is_base_class (proto pv) = true -> exists r, proton pv = Some r) /\
  bond_ok (heap w) pv = true.
Proof.
  unfold particle_ok. intros H.
  apply andb_true_iff in H as [H H3]. apply andb_true_iff in H as [H1 H2].
  split; [|split; [|exact H3]].
  - destruct (sprite pv) as [sid|]; [|done].
    destruct (sprites w !! sid) as [sv|] eqn:E13; [|done]. eauto.
  - intros Hb. rewrite Hb in H2. simpl in H2.
    destruct (proton pv); [eauto|done].
Qed.

Lemma WF_sprite_update w sid sv sv' c r :
  WF w -> sprites w !! sid = Some sv -> sprite_particle sv' = sprite_particle sv ->
  collider sv' = collider sv ->
  WF (mkWorld (beaker w) (<[sid:=sv']> (sprites w)) (heap w) c r).
Proof.
  intros (Hh & Ha & Hp) Hs Hsp Hcol.
  pose proof (evolves_sprite_update w sid sv sv' c r Hs Hsp Hcol) as Hev.
  split; [|split]; simpl.
  - intros pid pv Hpv. specialize (Hh pid pv Hpv). simpl in Hh.
    unfold particle_ok in *. simpl.
    destruct (sprite pv) as [s0|]; [|done].
    destruct (decide (sid = s0)) as [<-|Hne].
    + rewrite lookup_insert_eq. rewrite Hs in Hh. exact Hh.
    + rewrite lookup_insert_ne by done. exact Hh.
  - eapply Forall_impl; [exact Ha|]. intros s0 H0.
    eapply registered_ok_evolves; eauto.
  - eapply Forall_impl; [exact Hp|]. intros s0 H0.
    eapply proton_sprite_ok_evolves; eauto.
Qed.

Lemma WF_heap_update w k pv pv' c r :
  WF w -> heap w !! k = Some pv -> same_shape pv pv' ->
  bond_ok (heap w) pv' = true ->
  WF (mkWorld (beaker w) (sprites w) (<[k:=pv']> (heap w)) c r).
Proof.
  intros (Hh & Ha & Hp) Hk Hsh Hbond.
  pose proof (evolves_heap_update w k pv pv' c r Hk Hsh) as Hev.
  assert (Hmono : forall pp ppv, heap w !! pp = Some ppv ->
            exists ppv', <[k:=pv']> (heap w) !! pp = Some ppv' /\
                         truthy_ref (base ppv') = truthy_ref (base ppv)).
  { intros pp ppv Hpp. destruct (decide (k = pp)) as [<-|Hne].
    - rewrite lookup_insert_eq. exists pv'. split; [done|].
      destruct Hsh as (_ & _ & _ & Hb). congruence.
    - rewrite lookup_insert_ne by done. eauto. }
  split; [|split]; simpl.
  - intros pid pv0 Hpv0.
    assert (Hok : particle_ok w pv0 = true).
    { destruct (decide (k = pid)) as [<-|Hne].
      - rewrite lookup_insert_eq in Hpv0. injection Hpv0 as <-.
        specialize (Hh k pv Hk). simpl in Hh. unfold particle_ok in *.
        destruct Hsh as (-> & -> & -> & _).
        apply andb_true_iff in Hh as [Hh _]. rewrite Hh, Hbond. done.
      - rewrite lookup_insert_ne in Hpv0 by done. exact (Hh pid pv0 Hpv0). }
    unfold particle_ok in *. simpl.
    apply andb_true_iff in Hok as [Hok Hb]. rewrite Hok. simpl.
    eapply bond_ok_mono; eauto.
  - eapply Forall_impl; [exact Ha|]. intros s0 H0.
    eapply registered_ok_evolves; eauto.
  - eapply Forall_impl; [exact Hp|]. intros s0 H0.
    eapply proton_sprite_ok_evolves; eauto.
Qed.

Lemma WF_counters w c r :
  WF w -> WF (mkWorld (beaker w) (sprites w) (heap w) c r).
Proof. intros H. exact H. Qed.

(** *** The step returns on well-formed worlds *)

Lemma base_sprite_evolves w w' sid :
  evolves w w' -> base_sprite w sid -> base_sprite w' sid.
Proof.
  intros (_ & Hs & Hh) (bs & b & bp & H1 & H2 & H3 & H4).
  destruct (Hs _ _ H1) as (bs' & H1' & E & _).
  destruct (Hh _ _ H3) as (bp' & H3' & (Hp & _)).
  exists bs', b, bp'. repeat split; congruence.
Qed.

Lemma bond_ok_no_proton h pv : proton pv = None -> bond_ok h pv = true.
Proof. unfold bond_ok. intros ->. reflexivity. Qed.

Lemma reacts_with_Proton_total w bsid psid :
  WF w -> base_sprite w bsid -> proton_sprite_ok w psid = true ->
  exists w', reacts_with_Proton Date_now Math_random bsid psid w = Some (tt, w') /\ WF w' /\ evolves w w'.
Proof.
  intros Hwf (bs & b & bp & Hbs & Hb & Hbp & Hcls) Hps.
  destruct (proton_sprite_ok_inv _ _ Hps) as (ps & p & pp & pb & Hpsv & Hp & Hpp & Hpb).
  rewrite (reacts_with_Proton_eq w bsid psid bs ps p pp pb) by assumption.
  destruct (truthy_ref (base_particle pb)); [eauto using evolves_refl|].
  rewrite Hb, Hbp.
  pose proof Hwf as (Hh & Ha & Hg).
  destruct (particle_ok_inv _ _ (Hh b bp Hbp)) as (_ & Hhas & _).
  destruct (Hhas Hcls) as (bh & Hbh). rewrite Hbh.
  destruct (truthy_ref (particle bh)); [eauto using evolves_refl|].
  assert (Hne : b <> p).
  { intros ->. rewrite Hbp in Hpp. injection Hpp as ->.
    eapply proton_base_disjoint; eauto. }
  eexists. split; [reflexivity|]. unfold bond_world.
  set (w1 := mkWorld (beaker w)
               (<[psid:=set_depth (Some (to_number (depth bs) + (1 # 2))) ps]> (sprites w))
               (heap w) (S (clock_reads w)) (S (random_reads w))).
  set (P := set_base (mkBaseHash (Some b)) pp).
  set (w2 := mkWorld (beaker w1) (sprites w1) (<[p:=P]> (heap w1))
               (S (clock_reads w)) (S (random_reads w))).
  assert (Hwf1 : WF w1) by (apply (WF_sprite_update w psid ps); done).
  assert (Hev1 : evolves w w1) by (apply (evolves_sprite_update w psid ps); done).
  assert (HshP : same_shape pp P) by (eapply same_shape_set_base; eauto).
  assert (Hwf2 : WF w2).
  { apply (WF_heap_update w1 p pp); [done|done|done|].
    apply bond_ok_no_proton. unfold P, proton, base in *. simpl. done. }
  assert (Hev2 : evolves w1 w2) by (apply (evolves_heap_update w1 p pp); done).
  assert (Hbp2 : heap w2 !! b = Some bp).
  { simpl. by rewrite lookup_insert_ne. }
  split.
  - apply (WF_heap_update w2 b bp); [done|done| |].
    + eapply same_shape_set_proton; eauto.
    + unfold bond_ok. simpl. rewrite lookup_insert_eq. simpl.
      apply implb_true_r || (destruct (negb _); reflexivity).
  - eapply evolves_trans; [exact Hev1|]. eapply evolves_trans; [exact Hev2|].
    apply (evolves_heap_update w2 b bp); [done|].
    eapply same_shape_set_proton; eauto.
Qed.

Lemma ConjugateBase_update_total w this pv :
  WF w -> heap w !! this = Some pv -> is_base_class (proto pv) = true ->
  exists w', ConjugateBase_update Date_now this w = Some (tt, w') /\ WF w' /\ evolves w w'.
Proof.
  intros Hwf Hpv Hcls. pose proof Hwf as (Hh & Ha & Hg).
  destruct (particle_ok_inv _ _ (Hh this pv Hpv))
    as ((bsid & bs & Hbsid & Hbs) & Hhas & Hbond).
  destruct (Hhas Hcls) as (h & Hhp).
  rewrite (ConjugateBase_update_eq w this pv h) by assumption.
  destruct (truthy_num (release_after h)) eqn:Ht; [|eauto using evolves_refl].
  destruct (bond_ok_inv _ _ _ Hbond Hhp Ht) as (pp & ppv & pb & Hpp & Hppv & Hpb).
  destruct (particle_ok_inv _ _ (Hh pp ppv Hppv)) as ((psid & ps & Hpsid & Hps) & _ & _).
  cbv zeta. rewrite Hpp; simpl. rewrite Hppv; simpl. rewrite Hpsid; simpl.
  rewrite Hbsid; simpl. rewrite Hbs; simpl. rewrite Hps; simpl. rewrite Hpb; simpl.
  destruct (Qltb _ (to_number (release_after h))).
  { eexists. split; [reflexivity|]. split.
    - apply (WF_sprite_update w psid ps); done.
    - apply (evolves_sprite_update w psid ps); done. }
  destruct (Qltb _ _).
  { eexists. split; [reflexivity|]. split; [exact Hwf | apply evolves_counters]. }
  assert (Hne : this <> pp).
  { intros ->. rewrite Hpv in Hppv. injection Hppv as ->.
    eapply proton_base_disjoint; eauto. }
  eexists. split; [reflexivity|].
  set (w1 := mkWorld (beaker w) (<[psid:=set_depth (restore_depth h) ps]> (sprites w))
               (heap w) (S (clock_reads w)) (random_reads w)).
  set (P := set_base (mkBaseHash None) ppv).
  set (w2 := mkWorld (beaker w1) (sprites w1) (<[pp:=P]> (heap w1))
               (S (clock_reads w)) (random_reads w)).
  assert (Hwf1 : WF w1) by (apply (WF_sprite_update w psid ps); done).
  assert (Hev1 : evolves w w1) by (apply (evolves_sprite_update w psid ps); done).
  assert (HshP : same_shape ppv P) by (eapply same_shape_set_base; eauto).
  assert (Hwf2 : WF w2).
  { apply (WF_heap_update w1 pp ppv); [done|done|done|].
    apply bond_ok_no_proton. unfold P, proton, base in *. simpl. done. }
  assert (Hev2 : evolves w1 w2) by (apply (evolves_heap_update w1 pp ppv); done).
  assert (Hpv2 : heap w2 !! this = Some pv).
  { simpl. by rewrite lookup_insert_ne. }
  split.
  - apply (WF_heap_update w2 this pv); [done|done| |].
    + eapply same_shape_set_proton; eauto.
    + reflexivity.
  - eapply evolves_trans; [exact Hev1|]. eapply evolves_trans; [exact Hev2|].
    apply (evolves_heap_update w2 this pv); [done|].
    eapply same_shape_set_proton; eauto.
Qed.

Lemma update_total w this pv :
  WF w -> heap w !! this = Some pv ->
  exists w', update Date_now this w = Some (tt, w') /\ WF w' /\ evolves w w'.
Proof.
  intros Hwf Hpv. unfold update.
  mrun (get_particle_run _ _ _ Hpv).
  destruct (proto pv) eqn:Hc;
    try (eexists; split; [reflexivity|]; split; [exact Hwf | apply evolves_refl]);
    apply (ConjugateBase_update_total w this pv); try done; rewrite Hc; done.
Qed.

Lemma overlap_total sid g :
  forall w, WF w -> base_sprite w sid ->
    Forall (λ s, proton_sprite_ok w s = true) g ->
    exists w', overlap overlap_test sid g (reacts_with_Proton Date_now Math_random) w
               = Some (tt, w') /\
               WF w' /\ evolves w w'.
Proof.
  induction g as [|other rest IH]; intros w Hwf Hbase Hg; simpl.
  - eexists. split; [reflexivity|]. split; [done | apply evolves_refl].
  - apply Forall_cons in Hg as [Ho Hrest].
    destruct Hbase as (bs & b & bp & Hbs & Hb & Hbp & Hcls).
    destruct (proton_sprite_ok_inv _ _ Ho) as (ps & p & pp & pb & Hps & _).
    mrun (get_sprite_run _ _ _ Hbs). mrun (get_sprite_run _ _ _ Hps).
    assert (Hcb : exists w1,
              (if negb (sid =? other)%nat && overlap_test bs ps
               then reacts_with_Proton Date_now Math_random sid other else ret tt) w = Some (tt, w1) /\
              WF w1 /\ evolves w w1).
    { destruct (negb (sid =? other)%nat && overlap_test bs ps).
      - apply reacts_with_Proton_total; [done| |done]. exists bs, b, bp. done.
      - eexists. split; [reflexivity|]. split; [done | apply evolves_refl]. }
    destruct Hcb as (w1 & Hrun & Hwf1 & Hev1). mrun Hrun.
    destruct (IH w1 Hwf1) as (w' & Hrun' & Hwf' & Hev').
    + eapply base_sprite_evolves; [exact Hev1|]. exists bs, b, bp. done.
    + eapply Forall_impl; [exact Hrest|]. intros s0 H0.
      eapply proton_sprite_ok_evolves; eauto.
    + exists w'. split; [exact Hrun'|]. split; [done|].
      eapply evolves_trans; eauto.
Qed.

Lemma sprite_resolve_collisions_total w sid pid pv sv :
  WF w -> sprites w !! sid = Some sv -> sprite_particle sv = Some pid ->
  heap w !! pid = Some pv ->
  exists w',
    sprite_resolve_collisions overlap_test sid
      (reacts_with Date_now Math_random (proto pv)) w = Some (tt, w') /\
    WF w' /\ evolves w w'.
Proof.
  intros Hwf Hsv Hpid Hpv.
  assert (Hnone : exists w', ret tt w = Some (tt, w') /\ WF w' /\ evolves w w').
  { eexists. split; [reflexivity|]. split; [done | apply evolves_refl]. }
  destruct (is_base_class (proto pv)) eqn:Hcls;
    [|destruct (proto pv); try discriminate; exact Hnone].
  assert (Hrw : reacts_with Date_now Math_random (proto pv)
                = [("Proton"%string, reacts_with_Proton Date_now Math_random)]).
  { destruct (proto pv); try discriminate; reflexivity. }
  rewrite Hrw. simpl. unfold bind at 1. unfold get_beaker.
  pose proof Hwf as (_ & _ & Hg).
  destruct (particles (beaker w) !! "Proton"%string) as [g|]; simpl in Hg.
  - destruct (overlap_total sid g w Hwf) as (w' & Hrun & Hwf' & Hev'); [|done|].
    + exists sv, pid, pv. done.
    + mrun Hrun. eauto.
  - unfold bind, ret. eauto using evolves_refl.
Qed.

Lemma sprite_boundary_update_total w sid sv min_x min_y max_x max_y :
  WF w -> sprites w !! sid = Some sv ->
  exists w',
    sprite_boundary_update overlapPoint sid min_x min_y max_x max_y w = Some (tt, w') /\
    WF w' /\ evolves w w'.
Proof.
  intros Hwf Hsv.
  destruct (sprite_boundary_update_run w sid sv min_x min_y max_x max_y Hsv)
    as (s' & Hrun & _ & _ & Hg & _ & Hp).
  assert (Hc : collider s' = collider sv) by (unfold geometry in Hg; congruence).
  eexists. split; [exact Hrun|]. split.
  - apply (WF_sprite_update w sid sv); done.
  - apply (evolves_sprite_update w sid sv); done.
Qed.

Lemma update_sprite_total w sid min_x min_y max_x max_y :
  WF w -> registered_ok w sid = true ->
  exists w',
    update_sprite Date_now Math_random overlapPoint overlap_test
                  sid min_x min_y max_x max_y w = Some (tt, w') /\
    WF w' /\ evolves w w'.
Proof.
  intros Hwf Hreg.
  destruct (registered_ok_inv _ _ Hreg) as (sv & pid & pv & Hsv & Hpid & Hpv).
  unfold update_sprite. mrun (get_sprite_run _ _ _ Hsv).
  destruct (sprite_boundary_update_total w sid sv min_x min_y max_x max_y Hwf Hsv)
    as (w1 & Hrun1 & Hwf1 & Hev1).
  mrun Hrun1. rewrite Hpid. mrun (deref_run _ _ w1 (eq_refl (Some pid))).
  pose proof Hev1 as (_ & Hs1 & Hh1).
  destruct (Hs1 _ _ Hsv) as (sv1 & Hsv1 & Esv1 & _).
  destruct (Hh1 _ _ Hpv) as (pv1 & Hpv1 & Hsh1).
  mrun (get_particle_run _ _ _ Hpv1).
  destruct (sprite_resolve_collisions_total w1 sid pid pv1 sv1 Hwf1 Hsv1)
    as (w2 & Hrun2 & Hwf2 & Hev2); [congruence|done|].
  mrun Hrun2.
  pose proof Hev2 as (_ & _ & Hh2).
  destruct (Hh2 _ _ Hpv1) as (pv2 & Hpv2 & _).
  destruct (update_total w2 pid pv2 Hwf2 Hpv2) as (w3 & Hrun3 & Hwf3 & Hev3).
  exists w3. split; [exact Hrun3|]. split; [done|].
  eapply evolves_trans; [exact Hev1|]. eapply evolves_trans; eauto.
Qed.

Lemma update_particles_loop_total l min_x min_y max_x max_y :
  forall w, WF w -> Forall (λ sid, registered_ok w sid = true) l ->
    exists w',
      update_particles_loop Date_now Math_random overlapPoint overlap_test
                            l min_x min_y max_x max_y w = Some (tt, w') /\
      WF w' /\ evolves w w'.
Proof.
  induction l as [|sid rest IH]; intros w Hwf Hl; simpl.
  - eexists. split; [reflexivity|]. split; [done | apply evolves_refl].
  - apply Forall_cons in Hl as [Hsid Hrest].
    destruct (update_sprite_total w sid min_x min_y max_x max_y Hwf Hsid)
      as (w1 & Hrun1 & Hwf1 & Hev1).
    mrun Hrun1.
    destruct (IH w1 Hwf1) as (w' & Hrun' & Hwf' & Hev').
    + eapply Forall_impl; [exact Hrest|]. intros s0 H0.
      eapply registered_ok_evolves; eauto.
    + exists w'. split; [exact Hrun'|]. split; [done|].
      eapply evolves_trans; eauto.
Qed.

(** A step of the beaker returns on every well-formed world, in a
    well-formed world with the same beaker. *)
Lemma step_total w :
  WF w ->
  exists w',
    step Date_now Math_random overlapPoint overlap_test w = Some (tt, w') /\
    WF w' /\ evolves w w'.
Proof.
  intros Hwf. unfold step, update_particles. unfold bind, get_beaker.
  apply update_particles_loop_total; [done|]. apply Hwf.
Qed.

(** *** Reaction tables and missing groups *)

Lemma reacts_with_Proton_preserves_beaker (R : Beaker -> Prop) a b :
  preserves (fun w => R (beaker w)) (reacts_with_Proton Date_now Math_random a b).
Proof. unfold reacts_with_Proton. repeat beaker_step R. Qed.

Lemma ConjugateBase_update_preserves_beaker (R : Beaker -> Prop) this :
  preserves (fun w => R (beaker w)) (ConjugateBase_update Date_now this).
Proof. unfold ConjugateBase_update. repeat beaker_step R. Qed.

Lemma update_preserves_beaker (R : Beaker -> Prop) this :
  preserves (fun w => R (beaker w)) (update Date_now this).
Proof.
  unfold update. repeat beaker_step R.
  case_match; try apply preserves_ret; apply ConjugateBase_update_preserves_beaker.
Qed.

(** An entry of a reaction table whose key has no group in the beaker is
    passed over. *)
Lemma sprite_resolve_collisions_skip sprite key reaction rest w :
  particles (beaker w) !! key = None ->
  sprite_resolve_collisions overlap_test sprite ((key, reaction) :: rest) w =
  sprite_resolve_collisions overlap_test sprite rest w.
Proof.
  intros Hk. simpl. unfold bind at 1. unfold get_beaker. rewrite Hk. reflexivity.
Qed.

Lemma sprite_resolve_collisions_no_Proton_group
    (rnd : nat -> Q) (ot : Sprite -> Sprite -> bool) sprite c w :
  particles (beaker w) !! "Proton"%string = None ->
  sprite_resolve_collisions ot sprite (reacts_with Date_now rnd c) w = Some (tt, w).
Proof.
  intros Hk. destruct c; simpl; try reflexivity;
    unfold bind at 1; unfold get_beaker; rewrite Hk; reflexivity.
Qed.

(** Without a "Proton" group the update of a sprite does not depend on the
    overlap test nor on the random source. *)
Lemma update_sprite_no_Proton_group
    (rnd : nat -> Q) (ot : Sprite -> Sprite -> bool) sid min_x min_y max_x max_y w :
  particles (beaker w) !! "Proton"%string = None ->
  update_sprite Date_now rnd overlapPoint ot sid min_x min_y max_x max_y w =
  update_sprite Date_now Math_random overlapPoint overlap_test
                sid min_x min_y max_x max_y w.
Proof.
  intros Hk. unfold update_sprite.
  apply bind_ext. intros sv w0 E0.
  apply get_sprite_Some in E0 as (? & Hsv & [= <- <-]).
  apply bind_ext. intros [] w1 E1.
  assert (Hk1 : particles (beaker w1) !! "Proton"%string = None).
  { eapply (sprite_boundary_update_preserves
              (fun _ b => particles b !! "Proton"%string = None)); eauto. }
  apply bind_ext. intros pid w2 E2.
  apply deref_Some in E2 as (? & Hpid & [= <- <-]).
  apply bind_ext. intros pv w3 E3.
  apply get_particle_Some in E3 as (? & Hpv & [= <- <-]).
  unfold bind.
  rewrite !sprite_resolve_collisions_no_Proton_group by exact Hk1. reflexivity.
Qed.

Lemma update_sprite_preserves_beaker (R : Beaker -> Prop) sid min_x min_y max_x max_y :
  preserves (fun w => R (beaker w))
    (update_sprite Date_now Math_random overlapPoint overlap_test
                   sid min_x min_y max_x max_y).
Proof.
  unfold update_sprite. repeat beaker_step R.
  - apply (sprite_boundary_update_preserves (fun _ b => R b)).
  - apply sprite_resolve_collisions_preserves.
    match goal with |- context [proto ?pv] => destruct (proto pv) end;
      simpl; try apply Forall_nil_2;
      (apply Forall_cons_2; [|apply Forall_nil_2]); simpl; intros;
      apply reacts_with_Proton_preserves_beaker.
  - apply update_preserves_beaker.
Qed.

Lemma update_particles_loop_no_Proton_group
    (rnd : nat -> Q) (ot : Sprite -> Sprite -> bool) l min_x min_y max_x max_y :
  forall w, particles (beaker w) !! "Proton"%string = None ->
  update_particles_loop Date_now rnd overlapPoint ot l min_x min_y max_x max_y w =
  update_particles_loop Date_now Math_random overlapPoint overlap_test
                        l min_x min_y max_x max_y w.
Proof.
  induction l as [|sid rest IH]; intros w Hk; simpl; [reflexivity|].
  unfold bind. rewrite update_sprite_no_Proton_group by exact Hk.
  destruct (update_sprite _ _ _ _ sid min_x min_y max_x max_y w)
    as [[[] w1]|] eqn:E; [|reflexivity].
  apply IH.
  eapply (update_sprite_preserves_beaker
            (fun b => particles b !! "Proton"%string = None)); eauto.
Qed.


(** *** Construction *)

Lemma createSprite_spec w this p x y :
  heap w !! this = Some p ->
  exists w' s sv,
    createSprite Math_random createSprite_depth this x y w = Some (tt, w') /\
    sprites w !! s = None /\
    sprites w' = <[s := sv]> (sprites w) /\
    heap w' = <[this := set_sprite (Some s) p]> (heap w) /\
    beaker w' = beaker w /\ clock_reads w' = clock_reads w /\
    sprite_particle sv = Some this /\
    collider sv = (0, 0, collider_radius (proto p)) /\
    position_x sv = x /\ position_y sv = y.
Proof.
  intros Hp. unfold createSprite.
  mrun (get_particle_run _ _ _ Hp).
  set (s := fresh (dom (sprites w))).
  assert (Hs : sprites w !! s = None).
  { apply not_elem_of_dom. apply is_fresh. }
  unfold bind at 1. fold s.
  unfold bind at 1. unfold put_sprite at 1.
  cbn [beaker sprites heap clock_reads random_reads].
  do 3 (unfold bind at 1; unfold Math_random_ at 1;
        cbn [beaker sprites heap clock_reads random_reads]).
  erewrite bind_run; [|apply modify_particle_run; simpl; exact Hp].
  erewrite bind_run; [|apply modify_sprite_run; simpl; apply lookup_insert_eq].
  unfold randomVelocity.
  unfold bind at 1. unfold bind at 1. unfold Math_random_ at 1. unfold ret at 1.
  erewrite bind_run; [|apply modify_sprite_run; simpl; apply lookup_insert_eq].
  unfold bind at 1. unfold bind at 1. unfold Math_random_ at 1. unfold ret at 1.
  erewrite bind_run; [|apply modify_sprite_run; simpl; apply lookup_insert_eq].
  erewrite modify_sprite_run by (simpl; apply lookup_insert_eq).
  simpl. rewrite !insert_insert_eq.
  do 3 eexists. split; [reflexivity|]. simpl.
  split; [exact Hs|]. split; [reflexivity|]. done.
Qed.

Lemma createSprite_built w0 w this p x y :
  grown w0 w this p ->
  exists w' s,
    createSprite Math_random createSprite_depth this x y w = Some (tt, w') /\
    built w0 w' this (set_sprite (Some s) p) x y.
Proof.
  intros (Hh & Hb & Hc & Hold).
  assert (Hp : heap w !! this = Some p) by (rewrite Hh; apply lookup_insert_eq).
  destruct (createSprite_spec w this p x y Hp)
    as (w' & s & sv & Hrun & Hn & Hs & Hh' & Hb' & Hc' & Hsp & Hcol & Hx & Hy).
  exists w', s. split; [exact Hrun|]. split.
  - split; [rewrite Hh', Hh, insert_insert_eq; reflexivity|].
    split; [congruence|]. split; [congruence|].
    intros sid v H. rewrite Hs. rewrite lookup_insert_ne; [by apply Hold|].
    intros ->. apply Hold in H. congruence.
  - exists s, sv. split; [reflexivity|]. split.
    { destruct (sprites w0 !! s) eqn:E; [|reflexivity]. apply Hold in E. congruence. }
    split; [rewrite Hs; apply lookup_insert_eq|]. done.
Qed.

Lemma built_grown w0 w this P x y : built w0 w this P x y -> grown w0 w this P.
Proof. intros [H _]. exact H. Qed.

Lemma modify_particle_built w0 w this P x y f :
  built w0 w this P x y -> sprite (f P) = sprite P -> proto (f P) = proto P ->
  exists w', modify_particle this f w = Some (tt, w') /\ built w0 w' this (f P) x y.
Proof.
  intros ((Hh & Hb & Hc & Hold) & sm & svm & Hsm & Hn & Hs & Hrest) Hsp Hpr.
  assert (Hp : heap w !! this = Some P) by (rewrite Hh; apply lookup_insert_eq).
  eexists. split; [apply modify_particle_run; exact Hp|]. split.
  - split; [simpl; rewrite Hh, insert_insert_eq; reflexivity|]. done.
  - exists sm, svm. rewrite Hsp, Hpr. done.
Qed.

Lemma modify_proton_built w0 w this P x y h f :
  built w0 w this P x y -> proton P = Some h ->
  exists w', modify_proton this f w = Some (tt, w') /\
             built w0 w' this (set_proton (f h) P) x y.
Proof.
  intros ((Hh & Hb & Hc & Hold) & sm & svm & Hsm & Hn & Hs & Hrest) Hpr.
  assert (Hp : heap w !! this = Some P) by (rewrite Hh; apply lookup_insert_eq).
  eexists. split; [eapply modify_proton_run; eauto|]. split.
  - split; [simpl; rewrite Hh, insert_insert_eq; reflexivity|]. done.
  - exists sm, svm. done.
Qed.

Lemma ConjugateBase_call_built w0 w this p x y :
  grown w0 w this p ->
  exists w' s,
    ConjugateBase_call Math_random createSprite_depth this x y w = Some (tt, w') /\
    built w0 w' this
      (mkParticle (proto p) (Some s)
         (HasProton (mkProtonHash None 10 (-10) None (0, 5000) 750 None))) x y.
Proof.
  intros Hg. unfold ConjugateBase_call, Particle_call.
  destruct (createSprite_built w0 w this p 0 0 Hg) as (w1 & s1 & Hrun1 & Hb1).
  mrun Hrun1.
  destruct (createSprite_built w0 w1 this _ x y (built_grown _ _ _ _ _ _ Hb1))
    as (w2 & s2 & Hrun2 & Hb2).
  mrun Hrun2.
  destruct (modify_particle_built w0 w2 this _ x y
              (set_proton (mkProtonHash None 10 (-10) None (0, 5000) 750 None)) Hb2)
    as (w3 & Hrun3 & Hb3); [reflexivity|reflexivity|].
  exists w3, s2. split; [exact Hrun3 | exact Hb3].
Qed.

(** [new C(p, x, y)] always returns: the new particle is stored under a
    fresh key with its class's own properties, its sprite is new, placed at
    (x, y), has the class's collider and points back to it; nothing that was
    stored before changes. *)
Lemma new_spec w c x y :
  exists w' s,
    new Math_random createSprite_depth c x y w = Some (fresh (dom (heap w)), w') /\
    heap w !! fresh (dom (heap w)) = None /\
    built w w' (fresh (dom (heap w))) (mkParticle c (Some s) (init_props c)) x y.
Proof.
  set (this := fresh (dom (heap w))).
  assert (Hfresh : heap w !! this = None).
  { apply not_elem_of_dom. apply is_fresh. }
  unfold new. unfold bind at 1. fold this.
  unfold bind at 1. unfold put_particle at 1.
  set (w0 := mkWorld (beaker w) (sprites w)
               (<[this := mkParticle c None NoProps]> (heap w))
               (clock_reads w) (random_reads w)).
  assert (Hg : grown w w0 this (mkParticle c None NoProps)) by done.
  destruct c; cbn match.
  - unfold Particle_call.
    destruct (createSprite_built w w0 this _ x y Hg) as (w1 & s1 & Hrun1 & Hb1).
    mrun Hrun1. exists w1, s1. done.
  - destruct (ConjugateBase_call_built w w0 this _ x y Hg) as (w1 & s1 & Hrun1 & Hb1).
    mrun Hrun1. exists w1, s1. done.
  - unfold Proton_call, Particle_call.
    destruct (createSprite_built w w0 this _ 0 0 Hg) as (w1 & s1 & Hrun1 & Hb1).
    destruct (createSprite_built w w1 this _ x y (built_grown _ _ _ _ _ _ Hb1))
      as (w2 & s2 & Hrun2 & Hb2).
    destruct (modify_particle_built w w2 this _ x y (set_base (mkBaseHash None)) Hb2)
      as (w3 & Hrun3 & Hb3); [reflexivity|reflexivity|].
    erewrite bind_run;
      [|erewrite bind_run by exact Hrun1; erewrite bind_run by exact Hrun2;
        exact Hrun3].
    exists w3, s2. done.
  - unfold StrongConjugateBase_call.
    destruct (ConjugateBase_call_built w w0 this _ 0 0 Hg) as (w1 & s1 & Hrun1 & Hb1).
    destruct (createSprite_built w w1 this _ x y (built_grown _ _ _ _ _ _ Hb1))
      as (w2 & s2 & Hrun2 & Hb2).
    destruct (modify_proton_built w w2 this _ x y _
                (set_release_after_range (5000, 10000)) Hb2 eq_refl)
      as (w3 & Hrun3 & Hb3).
    erewrite bind_run;
      [|erewrite bind_run by exact Hrun1; erewrite bind_run by exact Hrun2;
        exact Hrun3].
    exists w3, s2. done.
  - unfold WeakConjugateBase_call.
    destruct (ConjugateBase_call_built w w0 this _ 0 0 Hg) as (w1 & s1 & Hrun1 & Hb1).
    destruct (createSprite_built w w1 this _ x y (built_grown _ _ _ _ _ _ Hb1))
      as (w2 & s2 & Hrun2 & Hb2).
    destruct (modify_proton_built w w2 this _ x y _
                (set_release_after_range (0, 2000)) Hb2 eq_refl)
      as (w3 & Hrun3 & Hb3).
    erewrite bind_run;
      [|erewrite bind_run by exact Hrun1; erewrite bind_run by exact Hrun2;
        exact Hrun3].
    exists w3, s2. done.
Qed.

(** *** Worlds built through the beaker's operations are good *)

Lemma linked_evolves w w' sid : evolves w w' -> linked w sid -> linked w' sid.
Proof.
  intros (_ & Hs & Hh) H.
  destruct (linked_inv _ _ H) as (sv & pid & pv & H1 & H2 & H3 & H4).
  destruct (Hs _ _ H1) as (sv' & H1' & E & _).
  destruct (Hh _ _ H3) as (pv' & H3' & (_ & Hsp & _)).
  unfold linked. rewrite H1'. simpl. rewrite E, H2. simpl. rewrite H3'. simpl.
  congruence.
Qed.

Lemma particle_ok_evolves w w' pv :
  evolves w w' -> particle_ok w pv = true -> particle_ok w' pv = true.
Proof.
  intros (_ & Hs & Hh) H.
  destruct (particle_ok_inv _ _ H) as ((sid & sv & H1 & H2) & _ & Hbond).
  unfold particle_ok in *.
  apply andb_true_iff in H as [H _]. apply andb_true_iff in H as [_ Hcls].
  rewrite H1. destruct (Hs _ _ H2) as (sv' & -> & _). simpl. rewrite Hcls. simpl.
  eapply bond_ok_mono; [|exact Hbond].
  intros pp ppv Hpp. destruct (Hh _ _ Hpp) as (ppv' & Hpp' & (_ & _ & _ & Hb)).
  eauto.
Qed.

Lemma built_evolves w w' this P x y :
  heap w !! this = None -> built w w' this P x y -> evolves w w'.
Proof.
  intros Hfresh ((Hh & Hb & _ & Hold) & _). split; [exact Hb|]. split.
  - intros sid sv H. exists sv. split; [by apply Hold|done].
  - intros pid pv H. exists pv. split; [|apply same_shape_refl].
    rewrite Hh. rewrite lookup_insert_ne; [exact H|]. intros ->. congruence.
Qed.

Lemma symmetric_insert_fresh h k v :
  symmetric h -> h !! k = None ->
  (r ← proton v; particle r) = None -> (r ← base v; base_particle r) = None ->
  symmetric (<[k := v]> h).
Proof.
  intros Hsym Hk Hp Hb b p.
  assert (Hpk : proton_of h k = None) by (unfold proton_of; rewrite Hk; done).
  assert (Hbk : base_of h k = None) by (unfold base_of; rewrite Hk; done).
  rewrite proton_of_insert, base_of_insert. rewrite Hp, Hb.
  repeat case_decide; subst; try done; try apply Hsym;
    split; intros HH1; try congruence; apply Hsym in HH1; congruence.
Qed.

Lemma init_props_unbonded c s :
  (r ← proton (mkParticle c s (init_props c)); particle r) = None /\
  (r ← base (mkParticle c s (init_props c)); base_particle r) = None.
Proof. destruct c; done. Qed.

Lemma collider_radius_nonneg c : 0 <= collider_radius c.
Proof. destruct c; simpl; discriminate. Qed.

Lemma addParticle_run w name this P sm g :
  particles (beaker w) !! name = Some g ->
  heap w !! this = Some P -> sprite P = Some sm ->
  addParticle name this w =
    Some (tt, mkWorld
                (set_all_particle_sprites
                   (Group_add sm (all_particle_sprites (beaker w)))
                   (set_particles (<[name := Group_add sm g]> (particles (beaker w)))
                                  (beaker w)))
                (sprites w) (heap w) (clock_reads w) (random_reads w)).
Proof.
  intros Hg Hp Hs. unfold addParticle. unfold bind at 1. unfold get_beaker at 1.
  mrun (deref_run _ _ w Hg). mrun (get_particle_run _ _ _ Hp).
  mrun (deref_run _ _ w Hs). reflexivity.
Qed.

Lemma Forall_Group_add {P : nat -> Prop} s g :
  P s -> Forall P g -> Forall P (Group_add s g).
Proof.
  intros Hs Hg. unfold Group_add. case_decide; [exact Hg|].
  apply Forall_app. split; [exact Hg|]. by apply Forall_cons_2.
Qed.

(** Constructing a particle that fits the solution and adding it keeps the
    world good. *)
Lemma add_one_Good w cls name x y g :
  Good w ->
  name = property_key (prototype_name cls) -> registers_protons_only cls ->
  particles (beaker w) !! name = Some g ->
  collider_radius (prototype cls) * 2 < sol_width (solution (beaker w)) ->
  collider_radius (prototype cls) * 2 < sol_height (solution (beaker w)) ->
  exists w',
    (do particle <- new Math_random createSprite_depth (prototype cls) x y;
     addParticle name particle) w = Some (tt, w') /\
    Good w' /\ is_Some (particles (beaker w') !! name) /\
    solution (beaker w') = solution (beaker w).
Proof.
  intros ((Hh & Ha & Hpg) & Hsym & Hpl & Hlk) Hname Hreg Hg Hw Hht.
  destruct (new_spec w (prototype cls) x y) as (w1 & sm & Hrun & Hfresh & Hbuilt).
  set (this := fresh (dom (heap w))) in *.
  pose proof (built_evolves _ _ _ _ _ _ Hfresh Hbuilt) as Hev.
  destruct Hbuilt as ((Hh1 & Hb1 & Hc1 & Hold) & sm' & svm & Hsm & Hnone & Hsv & Hsp & Hcol & _).
  simpl in Hsm. injection Hsm as <-. simpl in Hcol.
  assert (Hthis : heap w1 !! this = Some (mkParticle (prototype cls) (Some sm)
                                           (init_props (prototype cls))))
    by (rewrite Hh1; apply lookup_insert_eq).
  mrun Hrun.
  rewrite (addParticle_run w1 name this
             (mkParticle (prototype cls) (Some sm) (init_props (prototype cls))) sm g);
    [|by rewrite Hb1|exact Hthis|done].
  eexists. split; [reflexivity|].
  match goal with |- Good ?w' /\ _ => set (w2 := w') end.
  assert (Hreg_sm : registered_ok w2 sm = true).
  { unfold registered_ok. simpl. rewrite Hsv, Hsp, Hthis. done. }
  assert (Hlk_sm : linked w2 sm).
  { unfold linked. simpl. rewrite Hsv. simpl. rewrite Hsp. simpl. rewrite Hthis. done. }
  split; [|split; [simpl; rewrite lookup_insert_eq; eauto | simpl; by rewrite Hb1]].
  split; [split; [|split]|split; [|split]].
  - (* particles *)
    simpl. rewrite Hh1. apply map_Forall_insert_2.
    + unfold particle_ok. simpl. rewrite Hsv. simpl.
      destruct (prototype cls); reflexivity.
    + intros pid pv Hpv. change (particle_ok w1 pv = true).
      apply (particle_ok_evolves w w1); [exact Hev|]. exact (Hh pid pv Hpv).
  - (* the all-particles group *)
    simpl. rewrite Hb1. apply Forall_Group_add; [exact Hreg_sm|].
    eapply Forall_impl; [exact Ha|]. intros sid H.
    apply (registered_ok_evolves w w1); done.
  - (* the Proton group *)
    simpl. rewrite Hb1.
    destruct (decide (name = "Proton"%string)) as [Hn|Hn].
    + rewrite Hn, lookup_insert_eq. simpl. rewrite Hn in Hg. rewrite Hg in Hpg.
      simpl in Hpg. apply Forall_Group_add.
      * unfold proton_sprite_ok. simpl. rewrite Hsv, Hsp, Hthis.
        rewrite Hreg by congruence. reflexivity.
      * eapply Forall_impl; [exact Hpg|]. intros sid H.
        apply (proton_sprite_ok_evolves w w1); done.
    + rewrite lookup_insert_ne by done.
      eapply Forall_impl; [exact Hpg|]. intros sid H.
      apply (proton_sprite_ok_evolves w w1); done.
  - (* symmetry *)
    simpl. rewrite Hh1.
    apply symmetric_insert_fresh; [done|done| |]; apply init_props_unbonded.
  - (* fitting sprites *)
    unfold placed. simpl. rewrite Hb1. apply Forall_Group_add.
    + exists svm. split; [exact Hsv|]. unfold fits. rewrite Hcol. simpl.
      split; [apply collider_radius_nonneg|]. done.
    + eapply Forall_impl; [exact Hpl|]. intros sid (sv & H1 & H2).
      exists sv. split; [by apply Hold|exact H2].
  - (* linked groups *)
    intros k g' Hk. simpl in Hk. rewrite Hb1 in Hk.
    assert (Hmono : forall l, Forall (linked w) l -> Forall (linked w2) l).
    { intros l Hl. eapply Forall_impl; [exact Hl|]. intros sid H.
      apply (linked_evolves w w1); done. }
    destruct (decide (name = k)) as [<-|Hn].
    + rewrite lookup_insert_eq in Hk. injection Hk as <-.
      apply Forall_Group_add; [exact Hlk_sm|]. apply Hmono. eapply Hlk; eauto.
    + rewrite lookup_insert_ne in Hk by done. apply Hmono. eapply Hlk; eauto.
Qed.

Lemma Good_same_stores w w' :
  beaker w' = beaker w -> sprites w' = sprites w -> heap w' = heap w ->
  Good w -> Good w'.
Proof.
  destruct w, w'. simpl. intros -> -> ->. done.
Qed.

Lemma Good_initParticleGroup w name :
  Good w ->
  exists w', initParticleGroup name w = Some (tt, w') /\ Good w' /\
             is_Some (particles (beaker w') !! name) /\
             solution (beaker w') = solution (beaker w).
Proof.
  intros HG. unfold initParticleGroup. unfold bind, get_beaker.
  destruct (particles (beaker w) !! name) as [g|] eqn:Hg.
  { exists w. rewrite Hg. split; [reflexivity|]. split; [exact HG|]. eauto. }
  eexists. split; [reflexivity|]. simpl. rewrite lookup_insert_eq.
  split; [|eauto]. destruct HG as ((Hh & Ha & Hpg) & Hsym & Hpl & Hlk).
  split; [split; [exact Hh|split; [exact Ha|]]|split; [exact Hsym|split; [exact Hpl|]]].
  - simpl. destruct (decide (name = "Proton"%string)) as [->|Hn].
    + rewrite lookup_insert_eq. simpl. apply Forall_nil_2.
    + rewrite lookup_insert_ne by done. exact Hpg.
  - intros k g' Hk. simpl in Hk. destruct (decide (name = k)) as [<-|Hn].
    + rewrite lookup_insert_eq in Hk. injection Hk as <-. apply Forall_nil_2.
    + rewrite lookup_insert_ne in Hk by done. exact (Hlk k g' Hk).
Qed.

Lemma randomPoint_run r w :
  randomPoint Math_random r w =
    if Qgeb (r * 2) (sol_width (solution (beaker w))) ||
       Qgeb (r * 2) (sol_height (solution (beaker w)))
    then Some (None, w)
    else Some (Some (sol_x (solution (beaker w)) + r
                     + Math_random (random_reads w)
                       * (sol_width (solution (beaker w)) - 2 * r),
                     sol_y (solution (beaker w)) + r
                     + Math_random (S (random_reads w))
                       * (sol_height (solution (beaker w)) - 2 * r)),
               mkWorld (beaker w) (sprites w) (heap w) (clock_reads w)
                       (S (S (random_reads w)))).
Proof.
  unfold randomPoint, bind, get_beaker. simpl.
  destruct (_ || _); reflexivity.
Qed.

Lemma addParticles_loop_Good cls name quantity :
  name = property_key (prototype_name cls) -> registers_protons_only cls ->
  forall w, Good w -> is_Some (particles (beaker w) !! name) ->
    exists w',
      addParticles_loop Math_random createSprite_depth cls name quantity w
        = Some (tt, w') /\ Good w' /\
      solution (beaker w') = solution (beaker w).
Proof.
  intros Hname Hreg. induction quantity as [|q IH]; intros w HG [g Hg]; simpl.
  - exists w. done.
  - unfold bind at 1. rewrite randomPoint_run.
    destruct (Qgeb (collider_radius (prototype cls) * 2) (sol_width (solution (beaker w))))
      eqn:Ew; simpl.
    { unfold bind at 1. unfold ret at 1. apply IH; eauto. }
    destruct (Qgeb (collider_radius (prototype cls) * 2) (sol_height (solution (beaker w))))
      eqn:Eh; simpl.
    { unfold bind at 1. unfold ret at 1. apply IH; eauto. }
    set (w0 := mkWorld (beaker w) (sprites w) (heap w) (clock_reads w)
                       (S (S (random_reads w)))).
    assert (HG0 : Good w0) by (apply (Good_same_stores w); done).
    assert (Hw : collider_radius (prototype cls) * 2 < sol_width (solution (beaker w0))).
    { apply Qnot_le_lt. intros Hle. apply Qgeb_ge in Hle. simpl in Hle. congruence. }
    assert (Hh : collider_radius (prototype cls) * 2 < sol_height (solution (beaker w0))).
    { apply Qnot_le_lt. intros Hle. apply Qgeb_ge in Hle. simpl in Hle. congruence. }
    match goal with
    | |- context [new _ _ _ ?x ?y] =>
        destruct (add_one_Good w0 cls name x y g HG0 Hname Hreg Hg Hw Hh)
          as (w1 & Hrun & HG1 & Hg1 & Hs1)
    end.
    mrun Hrun. destruct (IH w1 HG1 Hg1) as (w' & Hrun' & HG' & Hs').
    exists w'. split; [exact Hrun'|]. split; [exact HG'|].
    rewrite Hs', Hs1. reflexivity.
Qed.

(** [addParticles] always returns on a good world and leaves it good. *)
Lemma addParticles_Good cls quantity w :
  Good w -> registers_protons_only cls ->
  exists w',
    addParticles Math_random createSprite_depth cls quantity w = Some (tt, w') /\
    Good w' /\ solution (beaker w') = solution (beaker w).
Proof.
  intros HG Hreg. unfold addParticles.
  destruct (Good_initParticleGroup w (property_key (prototype_name cls)) HG)
    as (w1 & Hrun & HG1 & Hg1 & Hs1).
  mrun Hrun.
  destruct (addParticles_loop_Good cls _ quantity eq_refl Hreg w1 HG1 Hg1)
    as (w' & Hrun' & HG' & Hs').
  exists w'. split; [exact Hrun'|]. split; [exact HG'|].
  rewrite Hs', Hs1. reflexivity.
Qed.

Lemma placed_evolves w w' : evolves w w' -> placed w -> placed w'.
Proof.
  intros (Hb & Hs & _) H. unfold placed in *. rewrite Hb.
  eapply Forall_impl; [exact H|]. intros sid (sv & H1 & H2).
  destruct (Hs _ _ H1) as (sv' & H1' & _ & Hc). exists sv'. split; [exact H1'|].
  unfold fits in *. rewrite Hc. exact H2.
Qed.

Lemma groups_linked_evolves w w' : evolves w w' -> groups_linked w -> groups_linked w'.
Proof.
  intros Hev H k g Hk. pose proof Hev as (Hb & _). rewrite Hb in Hk.
  eapply Forall_impl; [exact (H k g Hk)|]. intros sid Hl.
  eapply linked_evolves; eauto.
Qed.

(** A step that returns leaves a good world good (and it does return). *)
Lemma step_Good w :
  Good w ->
  exists w',
    step Date_now Math_random overlapPoint overlap_test w = Some (tt, w') /\
    Good w' /\ beaker w' = beaker w.
Proof.
  intros (Hwf & Hsym & Hpl & Hlk).
  destruct (step_total w Hwf) as (w' & Hrun & Hwf' & Hev).
  exists w'. split; [exact Hrun|]. split; [|exact (proj1 Hev)].
  split; [exact Hwf'|].
  split; [eapply step_symmetric; eauto|].
  split; [eapply placed_evolves; eauto | eapply groups_linked_evolves; eauto].
Qed.

Lemma Good_remove w sid sv c r :
  Good w -> sprites w !! sid = Some sv ->
  Good (mkWorld (Beaker_without [sid] (beaker w))
                (<[sid := set_sprite_particle None sv]> (sprites w)) (heap w) c r).
Proof.
  intros ((Hh & Ha & Hpg) & Hsym & Hpl & Hlk) Hsv.
  assert (Hother : forall s0, s0 ∉ [sid] ->
            <[sid := set_sprite_particle None sv]> (sprites w) !! s0 = sprites w !! s0).
  { intros s0 Hs0. apply lookup_insert_ne. intros ->. apply Hs0. left. }
  assert (Hfilter : forall (P Q : nat -> Prop) l,
            (forall s0, s0 ∉ [sid] -> P s0 -> Q s0) ->
            Forall P l -> Forall Q (filter (λ t, t ∉ [sid]) l)).
  { intros P Q l HPQ Hl. apply Forall_forall. intros s0 Hs0.
    apply list_elem_of_filter in Hs0 as [Hn Hin].
    apply HPQ; [exact Hn|]. eapply Forall_forall in Hl; eauto. }
  split; [split; [|split]|split; [exact Hsym|split]].
  - intros pid pv Hpv. specialize (Hh pid pv Hpv). cbn beta in Hh.
    unfold particle_ok in *. cbn [sprites heap] in *.
    destruct (sprite pv) as [s0|]; [|done].
    destruct (decide (sid = s0)) as [<-|Hne].
    + rewrite lookup_insert_eq. rewrite Hsv in Hh. exact Hh.
    + rewrite lookup_insert_ne by done. exact Hh.
  - cbn [beaker Beaker_without all_particle_sprites set_all_particle_sprites].
    eapply Hfilter; [|exact Ha]. intros s0 Hs0 H.
    unfold registered_ok in *. cbn [sprites heap].
    rewrite (Hother s0 Hs0). exact H.
  - cbn [beaker Beaker_without particles set_all_particle_sprites set_particles].
    rewrite lookup_fmap.
    destruct (particles (beaker w) !! "Proton"%string) as [g|];
      cbn [fmap option_fmap option_map default] in *; [|apply Forall_nil_2].
    eapply Hfilter; [|exact Hpg]. intros s0 Hs0 H.
    unfold proton_sprite_ok in *. cbn [sprites heap].
    rewrite (Hother s0 Hs0). exact H.
  - unfold placed in *.
    cbn [beaker Beaker_without all_particle_sprites set_all_particle_sprites
         set_particles solution sprites] in *.
    eapply Hfilter; [|exact Hpl].
    intros s0 Hs0 (sv0 & H1 & H2). exists sv0.
    split; [|exact H2]. rewrite <- H1. apply (Hother s0 Hs0).
  - intros k g' Hk.
    cbn [beaker Beaker_without particles set_all_particle_sprites set_particles] in Hk.
    rewrite lookup_fmap in Hk.
    destruct (particles (beaker w) !! k) as [g|] eqn:Hg; [|done].
    cbn in Hk. injection Hk as <-.
    eapply Hfilter; [|exact (Hlk k g Hg)]. intros s0 Hs0 H.
    unfold linked in *. cbn [sprites heap]. rewrite (Hother s0 Hs0). exact H.
Qed.

Lemma removeParticles_loop_Good name i :
  forall w w', Good w -> removeParticles_loop name i w = Some (tt, w') ->
    Good w' /\ solution (beaker w') = solution (beaker w).
Proof.
  induction i as [|i IH]; intros w w' HG H.
  - injection H as <-. done.
  - assert (Hinv : exists g sid sv, particles (beaker w) !! name = Some g /\
                     g !! i = Some sid /\ sprites w !! sid = Some sv).
    { simpl in H. apply bind_Some in H as (b & w1 & [= <- <-] & H).
      apply bind_Some in H as (g & w2 & H1 & H).
      apply deref_Some in H1 as (? & Hg & [= <- <-]).
      apply bind_Some in H as (sid & w3 & H1 & H).
      apply deref_Some in H1 as (? & Hsid & [= <- <-]).
      apply bind_Some in H as (sv & w4 & H1 & H).
      apply get_sprite_Some in H1 as (? & Hsv & [= <- <-]). eauto 10. }
    destruct Hinv as (g & sid & sv & Hg & Hsid & Hsv).
    assert (Hl : linked w sid).
    { destruct HG as (_ & _ & _ & Hlk). specialize (Hlk name g Hg).
      eapply Forall_forall in Hlk; [exact Hlk|].
      eapply list_elem_of_lookup_2; eauto. }
    rewrite (removeParticles_loop_S name i w g sid sv Hg Hsid Hl Hsv) in H.
    apply IH in H; [exact H|]. apply Good_remove; done.
Qed.

(** [removeParticles], when it returns, leaves a good world good. *)
Lemma removeParticles_Good cls quantity w w' :
  Good w -> removeParticles cls quantity w = Some (tt, w') ->
  Good w' /\ solution (beaker w') = solution (beaker w).
Proof.
  intros HG H. unfold removeParticles in H.
  apply bind_Some in H as (b & w1 & [= <- <-] & H).
  apply bind_Some in H as (g & w2 & H1 & H).
  apply deref_Some in H1 as (? & Hg & [= <- <-]).
  eapply removeParticles_loop_Good; eauto.
Qed.

Lemma Good_empty_world b :
  all_particle_sprites b = [] -> particles b = ∅ -> Good (empty_world b).
Proof.
  intros Ha Hp. unfold Good, WF, placed, groups_linked, empty_world. simpl.
  rewrite Ha, Hp. split; [split; [|split]|split; [|split]].
  - apply map_Forall_empty.
  - apply Forall_nil_2.
  - rewrite lookup_empty. apply Forall_nil_2.
  - intros b0 p0. unfold proton_of, base_of. rewrite !lookup_empty. done.
  - apply Forall_nil_2.
  - intros k g Hk. rewrite lookup_empty in Hk. done.
Qed.

(** Moving a sprite keeps a good world good. *)
Lemma Good_moved w sid sv x y :
  Good w -> sprites w !! sid = Some sv ->
  Good (mkWorld (beaker w)
                (<[sid := set_position_x x (set_position_y y sv)]> (sprites w))
                (heap w) (clock_reads w) (random_reads w)).
Proof.
  intros (Hwf & Hsym & Hpl & Hlk) Hsv.
  pose proof (evolves_sprite_update w sid sv (set_position_x x (set_position_y y sv))
                (clock_reads w) (random_reads w) Hsv eq_refl eq_refl) as Hev.
  split; [eapply WF_sprite_update; eauto|].
  split; [exact Hsym|].
  split; [eapply placed_evolves; eauto | eapply groups_linked_evolves; eauto].
Qed.

(** Every world a sketch reaches from a new beaker by [addParticles] (of
    classes that put only protons in the "Proton" group), [removeParticles],
    [step] and the engine's moves is good: well-formed, with symmetric bond
    references, every registered sprite fitting the solution and linked to
    its particle; and the solution keeps the edges the constructor gave it. *)
Lemma reachable_Good w :
  reachable Date_now Math_random createSprite_depth overlapPoint overlap_test w ->
  Good w /\ solution_sized (solution (beaker w)).
Proof.
  induction 1 as [sw sh x y sx sy | w cls q w' _ [IH IHs] Hreg Hrun
                 | w cls q w' _ [IH IHs] Hrun | w w' _ [IH IHs] Hrun
                 | w sid sv x y _ [IH IHs] Hsv].
  - split; [apply Good_empty_world; reflexivity|].
    split; reflexivity.
  - destruct (addParticles_Good cls q w IH Hreg) as (w'' & Hrun' & HG & Hs).
    assert (w'' = w') as -> by congruence.
    split; [exact HG | rewrite Hs; exact IHs].
  - destruct (removeParticles_Good cls q w w' IH Hrun) as (HG & Hs).
    split; [exact HG | rewrite Hs; exact IHs].
  - destruct (step_Good w IH) as (w'' & Hrun' & HG & Hs).
    assert (w'' = w') as -> by congruence.
    split; [exact HG | rewrite Hs; exact IHs].
  - split; [apply Good_moved; done | exact IHs].
Qed.

End Properties.

(** ** The engine's circle colliders and the solution's edges *)

(** A circle collider of radius [r] cannot overlap two points of one
    horizontal line that are [2 r] or more apart; [randomPoint] places a
    particle only when its diameter is below the solution's width, so a
    placed sprite overlaps at most one of the left and right edges. *)
Lemma square_lt_bound u v r :
  0 <= r -> u * u + v * v < r * r -> u < r.
Proof.
  intros Hr H. destruct (Qlt_le_dec u r) as [Hlt|Hle]; [exact Hlt|]. exfalso.
  assert (H1 : 0 <= (u - r) * (u - r)) by (apply Qmult_le_0_compat; lra).
  assert (H2 : 0 <= (u - r) * r) by (apply Qmult_le_0_compat; lra).
  assert (H3 : 0 <= v * v).
  { destruct (Qlt_le_dec v 0).
    - assert (Heq : (v * v) == ((- v) * (- v))) by ring.
      rewrite Heq.
      apply Qmult_le_0_compat; lra.
    - apply Qmult_le_0_compat; lra. }
  lra.
Qed.

Lemma square_ge_bound t r : 0 <= r -> r <= t -> r * r <= t * t.
Proof.
  intros Hr H.
  assert (H1 : 0 <= (t - r) * (t - r)) by (apply Qmult_le_0_compat; lra).
  assert (H2 : 0 <= (t - r) * r) by (apply Qmult_le_0_compat; lra).
  lra.
Qed.

Lemma square_nonneg v : 0 <= v * v.
Proof.
  destruct (Qlt_le_dec v 0).
  - assert (Heq : (v * v) == ((- v) * (- v))) by ring.
    rewrite Heq.
    apply Qmult_le_0_compat; lra.
  - apply Qmult_le_0_compat; lra.
Qed.

Lemma circle_overlapPoint_not_both_x x y ox oy r a b py :
  0 <= r -> r * 2 <= b - a ->
  circle_overlapPoint (x, y, (ox, oy, r)) a py &&
  circle_overlapPoint (x, y, (ox, oy, r)) b py = false.
Proof.
  intros Hr Hw. apply andb_false_iff.
  destruct (circle_overlapPoint (x, y, (ox, oy, r)) a py) eqn:Ea; [|by left].
  right. apply Qltb_ge. apply Qltb_lt in Ea.
  pose proof (square_lt_bound _ _ _ Hr Ea) as Hu.
  pose proof (square_nonneg (y + oy - py)) as Hv.
  assert (H1 : r * r <= (b - (x + ox)) * (b - (x + ox)))
    by (apply square_ge_bound; lra).
  assert (Heq : ((x + ox - b) * (x + ox - b)) == ((b - (x + ox)) * (b - (x + ox)))) by ring.
  rewrite Heq.
  lra.
Qed.

Lemma circle_overlapPoint_not_both_y x y ox oy r a b px :
  0 <= r -> r * 2 <= b - a ->
  circle_overlapPoint (x, y, (ox, oy, r)) px a &&
  circle_overlapPoint (x, y, (ox, oy, r)) px b = false.
Proof.
  intros Hr Hw. apply andb_false_iff.
  destruct (circle_overlapPoint (x, y, (ox, oy, r)) px a) eqn:Ea; [|by left].
  right. apply Qltb_ge. apply Qltb_lt in Ea.
  assert (Ea' : (y + oy - a) * (y + oy - a) + (x + ox - px) * (x + ox - px) < r * r)
    by lra.
  pose proof (square_lt_bound _ _ _ Hr Ea') as Hu.
  pose proof (square_nonneg (x + ox - px)) as Hv.
  assert (H1 : r * r <= (b - (y + oy)) * (b - (y + oy)))
    by (apply square_ge_bound; lra).
  assert (Heq : ((y + oy - b) * (y + oy - b)) == ((b - (y + oy)) * (b - (y + oy)))) by ring.
  rewrite Heq.
  lra.
Qed.


(** ** The theorems at concrete worlds *)

(** A heap none of whose particles holds a reference is symmetric. *)
Lemma symmetric_unbonded (h : gmap nat Particle) :
  map_Forall (λ _ v, (r ← proton v; particle r) = None /\
                     (r ← base v; base_particle r) = None) h ->
  symmetric h.
Proof.
  intros H b p. unfold proton_of, base_of. split; intros E.
  - destruct (h !! b) as [v|] eqn:Hb; [|done]. simpl in E.
    destruct (H b v Hb) as [E1 _]. congruence.
  - destruct (h !! p) as [v|] eqn:Hp; [|done]. simpl in E.
    destruct (H p v Hp) as [_ E2]. congruence.
Qed.

(** Decide well-formedness of a concrete world by evaluation. *)
Ltac wf_compute :=
  split; [apply map_Forall_to_list | split]; vm_compute; repeat constructor.

Lemma pair_world_WF : WF pair_world.
Proof. wf_compute. Qed.

Lemma bases_only_WF : WF bases_only.
Proof. wf_compute. Qed.

Lemma pair_world_symmetric : symmetric (heap pair_world).
Proof.
  apply symmetric_unbonded, map_Forall_to_list. vm_compute. repeat constructor.
Defined.

(** The base of [pair_world] (particle 1, sprite 4) meets its proton
    (particle 0, sprite 1): both are free, so the bond forms. *)
Lemma reaction_bonds_iff_both_free_witness :
  exists w',
    reacts_with_Proton (always 1000) (always (1 # 2)) 4 1 pair_world = Some (tt, w') /\
    ((bonded (heap w') 1 0 /\ ~ bonded (heap pair_world) 1 0) <->
     (base_particle (mkBaseHash None) = None /\
      particle (mkProtonHash None 10 (-10) None (0, 2000) 750 None) = None)) /\
    (~ (base_particle (mkBaseHash None) = None /\
        particle (mkProtonHash None 10 (-10) None (0, 2000) 750 None) = None) ->
     w' = pair_world).
Proof.
  eapply (reaction_bonds_iff_both_free (always 1000) (always (1 # 2)) pair_world 4 1
            _ _ 1 0 _ _ (mkProtonHash None 10 (-10) None (0, 2000) 750 None)
            (mkBaseHash None));
    vm_compute; reflexivity.
Defined.

(** [pair_world]: the base (sprite 4, particle 1) captures the proton
    (sprite 1, particle 0) at clock time 1000 with the fraction 1/2, so the
    release is due at 2000; the update at clock time 5000, past 2750, ends
    the bond. *)
Lemma bond_releases_on_schedule_witness :
  exists w1 w3,
    reacts_with_Proton late_clock (always (1 # 2)) 4 1 pair_world = Some (tt, w1) /\
    bonded (heap w1) 1 0 /\
    ConjugateBase_update late_clock 1 w1 = Some (tt, w3) /\
    proton_of (heap w3) 1 = None /\ base_of (heap w3) 0 = None.
Proof.
  edestruct (bond_releases_on_schedule late_clock (always (1 # 2)) pair_world 4 1)
    as (w1 & bp1 & bh1 & pp1 & Hrun & Hb1 & _ & _ & _ & Hp1 & Hbond & Hlater);
    [first [vm_compute; reflexivity | vm_compute; discriminate] ..|].
  assert (E : w1 = pair_world_bonded).
  { assert (H : reacts_with_Proton late_clock (always (1 # 2)) 4 1 pair_world
                = Some (tt, pair_world_bonded)) by (vm_compute; reflexivity).
    congruence. }
  subst w1.
  edestruct (Hlater pair_world_bonded) as (_ & _ & _ & H);
    [exact Hb1 | exact Hp1 | vm_compute; reflexivity | vm_compute; reflexivity |].
  destruct H as (w3 & bp3 & bh3 & Hupd & H1 & H2 & _); [vm_compute; discriminate|].
  exists pair_world_bonded, w3.
  split; [exact Hrun|]. split; [exact Hbond|]. split; [exact Hupd|].
  split; [exact H1 | exact H2].
Defined.

(** The bonded pair of [pair_world_bonded], release due at 2000: at clock
    time 1500 the update holds the proton at the base's position plus
    (10, -10); at 2500 it only reads the clock; at 3000, past 2750, it ends
    the bond. *)
Lemma update_follows_release_timer_witness :
  (exists w' ps,
     ConjugateBase_update (always 1500) 1 pair_world_bonded = Some (tt, w') /\
     sprites w' !! 1%nat = Some ps /\
     position_x ps = 16 + 10 /\ position_y ps = 16 + - (10)) /\
  ConjugateBase_update (always 2500) 1 pair_world_bonded =
    Some (tt, mkWorld (beaker pair_world_bonded) (sprites pair_world_bonded)
                      (heap pair_world_bonded) (S (clock_reads pair_world_bonded))
                      (random_reads pair_world_bonded)) /\
  (exists w',
     ConjugateBase_update (always 3000) 1 pair_world_bonded = Some (tt, w') /\
     proton_of (heap w') 1 = None /\ base_of (heap w') 0 = None).
Proof.
  split; [|split].
  - edestruct (update_follows_release_timer (always 1500) pair_world_bonded 1) as (H & _ & _);
      [first [vm_compute; reflexivity | vm_compute; discriminate] ..|].
    eexists _, _. split; [apply H; vm_compute; reflexivity|].
    cbn [sprites]. rewrite lookup_insert_eq. split; [reflexivity|].
    split; vm_compute; reflexivity.
  - edestruct (update_follows_release_timer (always 2500) pair_world_bonded 1) as (_ & H & _);
      [first [vm_compute; reflexivity | vm_compute; discriminate] ..|].
    apply H; [vm_compute; discriminate | vm_compute; reflexivity].
  - edestruct (update_follows_release_timer (always 3000) pair_world_bonded 1) as (_ & _ & H);
      [first [vm_compute; reflexivity | vm_compute; discriminate] ..|].
    destruct H as (w' & Hrun & _ & _ & _ & H1 & H2); [vm_compute; discriminate|].
    exists w'. split; [exact Hrun|]. split; [exact H1 | exact H2].
Defined.

(** Stepping [pair_world] keeps the references symmetric. *)
Lemma bond_symmetry_preserved_witness :
  symmetric (heap pair_world) /\
  forall w',
    step (always 0) (always 0) circle_overlapPoint circle_overlap pair_world
      = Some (tt, w') ->
    symmetric (heap w').
Proof.
  split; [exact pair_world_symmetric|].
  exact (proj1 (proj2 (proj2
           (bond_symmetry_preserved (always 0) (always 0) circle_overlapPoint
              circle_overlap pair_world pair_world_symmetric)))).
Defined.

(** Removing two of three protons (sprites 1, 3, 5, in this order): the
    first turn takes sprite 3, at index 1, and the call leaves sprite 5, the
    one added last. *)
Lemma removeParticles_removes_lowest_indices_witness :
  exists w1 w',
    removeParticles_turn "Proton" 1 three_protons = Some (tt, w1) /\
    particles (beaker w1) !! "Proton"%string = Some [1; 5]%nat /\
    removeParticles Proton 2 three_protons = Some (tt, w') /\
    particles (beaker w') !! "Proton"%string = Some [5]%nat /\
    all_particle_sprites (beaker w') = [5]%nat.
Proof.
  destruct (removeParticles_removes_lowest_indices Proton 2 three_protons [1; 3; 5]%nat)
    as (w' & Hrun & Hg & _ & Hall & _ & _ & _ & Hturns & _).
  - reflexivity.
  - compute_done.
  - repeat constructor; vm_compute; reflexivity.
  - destruct (Hturns 1%nat) as (wS & wj & sid & _ & Hfirst & _ & _ & Hturn & _ & Hgj & _);
      [vm_compute; lia|].
    rewrite (Hfirst eq_refl) in Hturn.
    exists wj, w'. split; [exact Hturn|]. split; [exact Hgj|].
    split; [exact Hrun|]. split; [exact Hg | exact Hall].
Defined.

(** C6 (counterexample). With three protons added in the order 1, 3, 5,
    [removeParticles(Proton, 1)] returns and leaves [3; 5]: the most recently
    added proton (5) is still there and the first added (1) is gone, whereas
    removing the most recently added one would leave [1; 3]. *)
Lemma removeParticles_keeps_most_recent :
  particles (beaker three_protons) !! "Proton"%string = Some [1; 3; 5]%nat /\
  exists w',
    removeParticles Proton 1 three_protons = Some (tt, w') /\
    particles (beaker w') !! "Proton"%string = Some [3; 5]%nat /\
    particles (beaker w') !! "Proton"%string <> Some (take (3 - 1) [1; 3; 5]%nat).
Proof.
  split; [reflexivity|].
  eexists. split; [vm_compute; reflexivity|].
  split; [reflexivity|]. vm_compute. discriminate.
Qed.



(** Weak conjugate bases added through the mangled class land under
    "WeakConjugateBase"; removing them through the same class looks under
    "e" and throws. *)
Lemma add_and_remove_use_different_keys_witness :
  addParticles (always (1 # 2)) creation_order mangled_WeakConjugateBase 2
               fresh_world = Some (tt, mangled_world) /\
  particles (beaker mangled_world) !! "WeakConjugateBase"%string = Some [2; 5]%nat /\
  particles (beaker mangled_world) !! "e"%string = None /\
  removeParticles mangled_WeakConjugateBase 1 mangled_world = None.
Proof.
  assert (Hne : fn_name mangled_WeakConjugateBase
                <> property_key (prototype_name mangled_WeakConjugateBase))
    by discriminate.
  destruct (add_and_remove_use_different_keys (always (1 # 2)) creation_order
              mangled_WeakConjugateBase Hne) as (_ & _ & Hfresh & _).
  assert (Hadd : addParticles (always (1 # 2)) creation_order
                   mangled_WeakConjugateBase 2 fresh_world = Some (tt, mangled_world))
    by (vm_compute; reflexivity).
  split; [exact Hadd|]. split; [reflexivity|]. split; [reflexivity|].
  exact (Hfresh _ 2%nat 1%nat mangled_world Hadd eq_refl).
Defined.


(** * Further properties of the code *)

Section Instances.

Variable Date_now : nat -> Q.
Variable Math_random : nat -> Q.
Variable createSprite_depth : nat -> Q.
Variable overlapPoint : Q * Q * (Q * Q * Q) -> Q -> Q -> bool.
Variable overlap_test : Sprite -> Sprite -> bool.

(** ** Constructors and their sprites *)

Lemma max_velocity_nonneg c : 0 <= max_velocity c.
Proof. destruct c; simpl; discriminate. Qed.


Lemma createSprite_run w this p x y :
  heap w !! this = Some p ->
  let s := fresh (dom (sprites w)) in
  createSprite Math_random createSprite_depth this x y w =
    Some (tt, mkWorld (beaker w)
                (<[s := created_sprite (createSprite_depth s)
                          (velocity_of (proto p) (Math_random (3 + random_reads w)))
                          (velocity_of (proto p) (Math_random (4 + random_reads w)))
                          (proto p) this x y]> (sprites w))
                (<[this := set_sprite (Some s) p]> (heap w))
                (clock_reads w) (5 + random_reads w)).
Proof.
  intros Hp s. unfold createSprite.
  mrun (get_particle_run _ _ _ Hp).
  unfold bind at 1. fold s.
  unfold bind at 1. unfold put_sprite at 1.
  cbn [beaker sprites heap clock_reads random_reads].
  do 3 (unfold bind at 1; unfold Math_random_ at 1;
        cbn [beaker sprites heap clock_reads random_reads]).
  erewrite bind_run; [|apply modify_particle_run; simpl; exact Hp].
  erewrite bind_run; [|apply modify_sprite_run; simpl; apply lookup_insert_eq].
  unfold randomVelocity.
  unfold bind at 1. unfold bind at 1. unfold Math_random_ at 1. unfold ret at 1.
  erewrite bind_run; [|apply modify_sprite_run; simpl; apply lookup_insert_eq].
  unfold bind at 1. unfold bind at 1. unfold Math_random_ at 1. unfold ret at 1.
  erewrite bind_run; [|apply modify_sprite_run; simpl; apply lookup_insert_eq].
  erewrite modify_sprite_run by (simpl; apply lookup_insert_eq).
  simpl. rewrite !insert_insert_eq. reflexivity.
Qed.

(** X2. [createSprite(x, y)] on a stored particle always returns.  It makes
    one new sprite, at (x, y), with the class's circle collider and with both
    velocity components within the class's [max_velocity], ties sprite and
    particle to each other, and leaves every other sprite, including the one
    the particle had before, where it was.  It reads the random source five
    times: three reads by the engine for the new sprite, then the fourth and
    the fifth for the two velocity components. *)
Theorem createSprite_makes_sprite w this p x y :
  heap w !! this = Some p ->
  0 <= Math_random (3 + random_reads w) < 1 ->
  0 <= Math_random (4 + random_reads w) < 1 ->
  exists w' s sv,
    createSprite Math_random createSprite_depth this x y w = Some (tt, w') /\
    sprites w !! s = None /\
    sprites w' = <[s := sv]> (sprites w) /\
    heap w' = <[this := set_sprite (Some s) p]> (heap w) /\
    beaker w' = beaker w /\ clock_reads w' = clock_reads w /\
    random_reads w' = (5 + random_reads w)%nat /\
    position_x sv = x /\ position_y sv = y /\
    collider sv = (collider_offset_x (proto p), collider_offset_y (proto p),
                   collider_radius (proto p)) /\
    sprite_particle sv = Some this /\
    - max_velocity (proto p) <= velocity_x sv <= max_velocity (proto p) /\
    - max_velocity (proto p) <= velocity_y sv <= max_velocity (proto p).
Proof.
  intros Hp [Hx0 Hx1] [Hy0 Hy1].
  pose proof (createSprite_run w this p x y Hp) as Hrun. cbv zeta in Hrun.
  pose proof (max_velocity_nonneg (proto p)) as Hm.
  do 3 eexists. split; [exact Hrun|].
  cbn [beaker sprites heap clock_reads random_reads].
  split; [apply not_elem_of_dom; apply is_fresh|].
  do 9 (split; [reflexivity|]).
  unfold created_sprite, velocity_of. cbn [velocity_x velocity_y].
  set (m := max_velocity (proto p)) in *.
  repeat split; nra.
Qed.

Lemma constructed_start w this c x y :
  heap w !! this = None ->
  constructed w (mkWorld (beaker w) (sprites w)
                         (<[this := mkParticle c None NoProps]> (heap w))
                         (clock_reads w) (random_reads w))
              this (mkParticle c None NoProps) 0 x y.
Proof.
  intros _. unfold constructed. cbn [beaker sprites heap clock_reads random_reads].
  split; [reflexivity|]. split; [reflexivity|]. split; [reflexivity|].
  split; [lia|]. split; [lia|]. split; [done|].
  intros sid sv H1 H2. congruence.
Qed.

Lemma createSprite_constructed w0 w this P k x y :
  constructed w0 w this P k 0 0 ->
  exists w' s,
    createSprite Math_random createSprite_depth this x y w = Some (tt, w') /\
    constructed w0 w' this (set_sprite (Some s) P) (S k) x y.
Proof.
  intros (Hh & Hb & Hc & Hr & Hsz & Hold & Hnew).
  assert (Hp : heap w !! this = Some P) by (rewrite Hh; apply lookup_insert_eq).
  pose proof (createSprite_run w this P x y Hp) as Hrun. cbv zeta in Hrun.
  set (s := fresh (dom (sprites w))) in *.
  assert (Hs : sprites w !! s = None) by (apply not_elem_of_dom; apply is_fresh).
  do 2 eexists. split; [exact Hrun|].
  unfold constructed. cbn [beaker sprites heap clock_reads random_reads].
  split; [rewrite Hh, insert_insert_eq; reflexivity|].
  split; [exact Hb|]. split; [exact Hc|]. split; [lia|].
  split; [rewrite map_size_insert_None by exact Hs; lia|].
  split.
  - intros sid sv H. rewrite lookup_insert_ne; [by apply Hold|].
    intros <-. apply Hold in H. congruence.
  - intros sid sv H0 H. cbn [sprite set_sprite proto].
    destruct (decide (s = sid)) as [<-|Hne].
    + rewrite lookup_insert_eq in H. injection H as <-.
      rewrite decide_True by reflexivity. done.
    + rewrite lookup_insert_ne in H by done.
      rewrite decide_False by congruence.
      destruct (Hnew sid sv H0 H) as (H1 & H2 & H3).
      split; [exact H1|]. split; [exact H2|]. by destruct (decide _).
Qed.

Lemma modify_particle_constructed w0 w this P k x y f :
  constructed w0 w this P k x y -> sprite (f P) = sprite P -> proto (f P) = proto P ->
  exists w', modify_particle this f w = Some (tt, w') /\
             constructed w0 w' this (f P) k x y.
Proof.
  intros (Hh & Hb & Hc & Hr & Hsz & Hold & Hnew) Hsp Hpr.
  assert (Hp : heap w !! this = Some P) by (rewrite Hh; apply lookup_insert_eq).
  eexists. split; [apply modify_particle_run; exact Hp|].
  unfold constructed. cbn [beaker sprites heap clock_reads random_reads].
  rewrite Hsp, Hpr. rewrite Hh, insert_insert_eq. done.
Qed.

Lemma modify_proton_constructed w0 w this P k x y h f :
  constructed w0 w this P k x y -> proton P = Some h ->
  exists w', modify_proton this f w = Some (tt, w') /\
             constructed w0 w' this (set_proton (f h) P) k x y.
Proof.
  intros (Hh & Hb & Hc & Hr & Hsz & Hold & Hnew) Hpr.
  assert (Hp : heap w !! this = Some P) by (rewrite Hh; apply lookup_insert_eq).
  eexists. split; [eapply modify_proton_run; eauto|].
  unfold constructed. cbn [beaker sprites heap clock_reads random_reads].
  cbn [sprite proto set_proton]. rewrite Hh, insert_insert_eq. done.
Qed.

Lemma ConjugateBase_call_constructed w0 w this p x y :
  constructed w0 w this p 0 0 0 ->
  exists w' s,
    ConjugateBase_call Math_random createSprite_depth this x y w = Some (tt, w') /\
    constructed w0 w' this
      (mkParticle (proto p) (Some s)
         (HasProton (mkProtonHash None 10 (-10) None (0, 5000) 750 None))) 2 x y.
Proof.
  intros Hg. unfold ConjugateBase_call, Particle_call.
  destruct (createSprite_constructed w0 w this p 0 0 0 Hg) as (w1 & s1 & Hrun1 & Hb1).
  mrun Hrun1.
  destruct (createSprite_constructed w0 w1 this _ 1 x y Hb1) as (w2 & s2 & Hrun2 & Hb2).
  mrun Hrun2.
  destruct (modify_particle_constructed w0 w2 this _ 2 x y
              (set_proton (mkProtonHash None 10 (-10) None (0, 5000) 750 None)) Hb2)
    as (w3 & Hrun3 & Hb3); [reflexivity|reflexivity|].
  exists w3, s2. split; [exact Hrun3 | exact Hb3].
Qed.

Lemma new_constructed w c x y :
  exists w' s,
    new Math_random createSprite_depth c x y w = Some (fresh (dom (heap w)), w') /\
    heap w !! fresh (dom (heap w)) = None /\
    constructed w w' (fresh (dom (heap w))) (mkParticle c (Some s) (init_props c))
                (sprites_per_instance c) x y.
Proof.
  set (this := fresh (dom (heap w))).
  assert (Hfresh : heap w !! this = None).
  { apply not_elem_of_dom. apply is_fresh. }
  pose proof (constructed_start w this c 0 0 Hfresh) as Hg.
  set (w0 := mkWorld _ _ _ _ _) in Hg.
  unfold new. unfold bind at 1. fold this.
  unfold bind at 1. unfold put_particle at 1. fold w0.
  destruct c; cbn match.
  - unfold Particle_call.
    destruct (createSprite_constructed w w0 this _ 0 x y Hg) as (w1 & s1 & Hrun1 & Hb1).
    mrun Hrun1. exists w1, s1. done.
  - destruct (ConjugateBase_call_constructed w w0 this _ x y Hg)
      as (w1 & s1 & Hrun1 & Hb1).
    mrun Hrun1. exists w1, s1. done.
  - unfold Proton_call, Particle_call.
    destruct (createSprite_constructed w w0 this _ 0 0 0 Hg) as (w1 & s1 & Hrun1 & Hb1).
    destruct (createSprite_constructed w w1 this _ 1 x y Hb1) as (w2 & s2 & Hrun2 & Hb2).
    destruct (modify_particle_constructed w w2 this _ 2 x y
                (set_base (mkBaseHash None)) Hb2)
      as (w3 & Hrun3 & Hb3); [reflexivity|reflexivity|].
    erewrite bind_run;
      [|erewrite bind_run by exact Hrun1; erewrite bind_run by exact Hrun2;
        exact Hrun3].
    exists w3, s2. done.
  - unfold StrongConjugateBase_call.
    destruct (ConjugateBase_call_constructed w w0 this _ 0 0 Hg)
      as (w1 & s1 & Hrun1 & Hb1).
    destruct (createSprite_constructed w w1 this _ 2 x y Hb1) as (w2 & s2 & Hrun2 & Hb2).
    destruct (modify_proton_constructed w w2 this _ 3 x y _
                (set_release_after_range (5000, 10000)) Hb2 eq_refl)
      as (w3 & Hrun3 & Hb3).
    erewrite bind_run;
      [|erewrite bind_run by exact Hrun1; erewrite bind_run by exact Hrun2;
        exact Hrun3].
    exists w3, s2. done.
  - unfold WeakConjugateBase_call.
    destruct (ConjugateBase_call_constructed w w0 this _ 0 0 Hg)
      as (w1 & s1 & Hrun1 & Hb1).
    destruct (createSprite_constructed w w1 this _ 2 x y Hb1) as (w2 & s2 & Hrun2 & Hb2).
    destruct (modify_proton_constructed w w2 this _ 3 x y _
                (set_release_after_range (0, 2000)) Hb2 eq_refl)
      as (w3 & Hrun3 & Hb3).
    erewrite bind_run;
      [|erewrite bind_run by exact Hrun1; erewrite bind_run by exact Hrun2;
        exact Hrun3].
    exists w3, s2. done.
Qed.

(** X3. [new C(p, x, y)] always returns.  Every constructor on the chain
    calls [createSprite], so a Particle makes one sprite, a Proton or a
    ConjugateBase two and a Strong/WeakConjugateBase three, reading the
    random source five times for each (three reads by the engine, two for
    the velocity); all of them point back to the new particle,
    but the particle keeps only the last one, placed at (x, y): the others
    stay at the origin, in no group of the beaker. *)
Theorem new_leaves_stray_sprites w c x y :
  let this := fresh (dom (heap w)) in
  exists w' s,
    new Math_random createSprite_depth c x y w = Some (this, w') /\
    heap w !! this = None /\
    heap w' = <[this := mkParticle c (Some s) (init_props c)]> (heap w) /\
    beaker w' = beaker w /\
    size (sprites w') = (size (sprites w) + sprites_per_instance c)%nat /\
    random_reads w' = (random_reads w + 5 * sprites_per_instance c)%nat /\
    (forall sid sv, sprites w !! sid = Some sv -> sprites w' !! sid = Some sv) /\
    (forall sid sv, sprites w !! sid = None -> sprites w' !! sid = Some sv ->
       sprite_particle sv = Some this /\
       if decide (sid = s)
       then position_x sv = x /\ position_y sv = y
       else position_x sv = 0 /\ position_y sv = 0).
Proof.
  intros this.
  destruct (new_constructed w c x y)
    as (w' & s & Hrun & Hfresh & (Hh & Hb & _ & Hr & Hsz & Hold & Hnew)).
  exists w', s. split; [exact Hrun|].
  split; [exact Hfresh|]. split; [exact Hh|]. split; [exact Hb|]. split; [exact Hsz|].
  split; [exact Hr|]. split; [exact Hold|].
  intros sid sv H0 H. destruct (Hnew sid sv H0 H) as (H1 & _ & H3).
  split; [exact H1|]. cbn [sprite] in H3.
  destruct (decide (sid = s)) as [->|Hne].
  - rewrite decide_True in H3 by reflexivity. exact H3.
  - rewrite decide_False in H3 by congruence. exact H3.
Qed.

(** ** The bond from capture to release *)

(** X4. The reaction handler on a free base and a free proton: it reads the
    clock and the random source once each, stores [release_after = now +
    range[0] + range[1] * r], both references, and the proton sprite's depth
    in [restore_depth], and raises that sprite's depth to the base sprite's
    depth plus one half.  No position or velocity, no other sprite or
    particle and no group changes. *)
Theorem capture_sets_timer_and_depth w bsid psid bs ps b p bp pp bh pb :
  sprites w !! bsid = Some bs -> sprite_particle bs = Some b ->
  heap w !! b = Some bp -> proton bp = Some bh ->
  sprites w !! psid = Some ps -> sprite_particle ps = Some p ->
  heap w !! p = Some pp -> base pp = Some pb ->
  base_particle pb = None -> particle bh = None ->
  let now := Date_now (clock_reads w) in
  let r := Math_random (random_reads w) in
  reacts_with_Proton Date_now Math_random bsid psid w =
    Some (tt,
      mkWorld (beaker w)
        (<[psid := set_depth (Some (to_number (depth bs) + (1 # 2))) ps]> (sprites w))
        (<[b := set_proton
                  (mkProtonHash (Some p) (offset_x bh) (offset_y bh) (depth ps)
                     (release_after_range bh) (post_release_duration bh)
                     (Some (now + fst (release_after_range bh)
                            + snd (release_after_range bh) * r))) bp]>
           (<[p := set_base (mkBaseHash (Some b)) pp]> (heap w)))
        (S (clock_reads w)) (S (random_reads w))).
Proof.
  intros Hbs Hb Hbp Hbh Hps Hp Hpp Hpb E1 E2 now r.
  rewrite (reacts_with_Proton_eq Date_now Math_random w bsid psid bs ps p pp pb)
    by assumption.
  rewrite Hb, Hbp, Hbh, E1, E2. reflexivity.
Qed.

(** X5. While the clock is before a non-zero [release_after], the update
    reads the clock once and moves the bonded proton's sprite to the base
    sprite's position plus the offset; the sprite's velocity and depth, every
    other sprite and all particles stay as they are. *)
Theorem update_holds_proton_at_offset w this p h ra pp ppv psid bsid bs ps :
  heap w !! this = Some p -> proton p = Some h ->
  release_after h = Some ra -> ~ ra == 0 ->
  Date_now (clock_reads w) < ra ->
  particle h = Some pp -> heap w !! pp = Some ppv -> sprite ppv = Some psid ->
  sprite p = Some bsid -> sprites w !! bsid = Some bs -> sprites w !! psid = Some ps ->
  ConjugateBase_update Date_now this w =
    Some (tt,
      mkWorld (beaker w)
        (<[psid := mkSprite (position_x bs + offset_x h) (position_y bs + offset_y h)
                            (velocity_x ps) (velocity_y ps) (depth ps) (collider ps)
                            (sprite_particle ps)]> (sprites w))
        (heap w) (S (clock_reads w)) (random_reads w)).
Proof.
  intros Hp Hh Hra Hnz Hlt Hpp Hppv Hps Hbs Hbsv Hpsv.
  rewrite (ConjugateBase_update_eq Date_now w this p h) by assumption.
  rewrite Hra. rewrite (proj2 (truthy_num_Some ra) Hnz). cbv zeta. simpl to_number.
  rewrite (proj2 (Qltb_lt _ _) Hlt).
  rewrite Hpp; simpl. rewrite Hppv; simpl. rewrite Hps; simpl.
  rewrite Hbs; simpl. rewrite Hbsv; simpl. rewrite Hpsv; simpl. reflexivity.
Qed.

(** X6. The update writes nothing when [release_after] is falsy (null or 0)
    and nothing between [release_after] and [release_after +
    post_release_duration]: sprites, particles and groups are unchanged.  It
    reads the clock in the second case only. *)
Theorem update_writes_nothing_unless_due w this p h :
  heap w !! this = Some p -> proton p = Some h ->
  truthy_num (release_after h) = false \/
  (to_number (release_after h) <= Date_now (clock_reads w) /\
   Date_now (clock_reads w) < to_number (release_after h) + post_release_duration h) ->
  ConjugateBase_update Date_now this w =
    Some (tt, mkWorld (beaker w) (sprites w) (heap w)
                (if truthy_num (release_after h)
                 then S (clock_reads w) else clock_reads w)
                (random_reads w)).
Proof.
  intros Hp Hh Hcase.
  rewrite (ConjugateBase_update_eq Date_now w this p h) by assumption.
  destruct (truthy_num (release_after h)) eqn:Et.
  - destruct Hcase as [?|[Hle Hlt]]; [discriminate|]. cbv zeta.
    rewrite (proj2 (Qltb_ge _ _) Hle). rewrite (proj2 (Qltb_lt _ _) Hlt).
    reflexivity.
  - destruct w; reflexivity.
Qed.

(** X7. From [release_after + post_release_duration] on (for a non-zero
    [release_after]) the update reads the clock once, gives the proton's
    sprite the depth saved in [restore_depth], and clears [restore_depth],
    [release_after] and both references; offsets, range and duration of the
    bond record stay. *)
Theorem update_completes_release w this p h ra pp ppv psid ps pb :
  heap w !! this = Some p -> proton p = Some h ->
  release_after h = Some ra -> ~ ra == 0 ->
  ra <= Date_now (clock_reads w) ->
  ra + post_release_duration h <= Date_now (clock_reads w) ->
  particle h = Some pp -> heap w !! pp = Some ppv -> sprite ppv = Some psid ->
  sprites w !! psid = Some ps -> base ppv = Some pb ->
  ConjugateBase_update Date_now this w =
    Some (tt,
      mkWorld (beaker w)
        (<[psid := set_depth (restore_depth h) ps]> (sprites w))
        (<[this := set_proton
                     (mkProtonHash None (offset_x h) (offset_y h) None
                        (release_after_range h) (post_release_duration h) None) p]>
           (<[pp := set_base (mkBaseHash None) ppv]> (heap w)))
        (S (clock_reads w)) (random_reads w)).
Proof.
  intros Hp Hh Hra Hnz H1 Hle Hpp Hppv Hps Hpsv Hpb.
  rewrite (ConjugateBase_update_eq Date_now w this p h) by assumption.
  rewrite Hra. rewrite (proj2 (truthy_num_Some ra) Hnz). cbv zeta. simpl to_number.
  rewrite (proj2 (Qltb_ge _ _) H1). rewrite (proj2 (Qltb_ge _ _) Hle).
  rewrite Hpp; simpl. rewrite Hppv; simpl. rewrite Hps; simpl.
  rewrite Hpsv; simpl. rewrite Hpb; simpl. reflexivity.
Qed.

(** X9. A capture followed by an update at or after the end of the bond
    (release time non-zero) gives back the sprites exactly as they were,
    the proton's sprite at its old depth, and the particles as they were up
    to the base's bond record, which is now cleared; for a record that was
    clear before, the particle store is exactly as before. *)
Theorem capture_then_release_restores w bsid psid bs ps b p bp pp bh pb :
  sprites w !! bsid = Some bs -> sprite_particle bs = Some b ->
  heap w !! b = Some bp -> proton bp = Some bh ->
  sprites w !! psid = Some ps -> sprite_particle ps = Some p ->
  heap w !! p = Some pp -> base pp = Some pb -> sprite pp = Some psid ->
  base_particle pb = None -> particle bh = None ->
  let ra := Date_now (clock_reads w) + fst (release_after_range bh)
            + snd (release_after_range bh) * Math_random (random_reads w) in
  ~ ra == 0 ->
  ra <= Date_now (S (clock_reads w)) ->
  ra + post_release_duration bh <= Date_now (S (clock_reads w)) ->
  (exec reacts_with_Proton Date_now Math_random bsid psid;
   ConjugateBase_update Date_now b) w =
    Some (tt, mkWorld (beaker w) (sprites w)
                (<[b := set_proton (released bh) bp]> (heap w))
                (S (S (clock_reads w))) (S (random_reads w))) /\
  (restore_depth bh = None -> release_after bh = None ->
   <[b := set_proton (released bh) bp]> (heap w) = heap w).
Proof.
  intros Hbs Hb Hbp Hbh Hps Hp Hpp Hpb Hsp E1 E2 ra Hnz H1 H2.
  assert (Hne : b <> p).
  { intros ->. rewrite Hbp in Hpp. injection Hpp as ->.
    eapply proton_base_disjoint; eauto. }
  split.
  - erewrite bind_run;
      [|rewrite (reacts_with_Proton_eq Date_now Math_random w bsid psid bs ps p pp pb)
          by assumption;
        rewrite Hb, Hbp, Hbh, E1, E2; reflexivity].
    unfold bond_world, captured.
    erewrite ConjugateBase_update_eq;
      [|cbn [heap]; apply lookup_insert_eq | reflexivity].
    cbv zeta.
    cbn [release_after post_release_duration particle restore_depth to_number
         clock_reads heap sprites beaker random_reads].
    fold ra.
    rewrite (proj2 (truthy_num_Some ra) Hnz).
    rewrite (proj2 (Qltb_ge _ _) H1). rewrite (proj2 (Qltb_ge _ _) H2).
    cbn [mbind option_bind].
    rewrite lookup_insert_ne by done. rewrite lookup_insert_eq.
    cbn [mbind option_bind sprite set_base]. rewrite Hsp.
    cbn [mbind option_bind]. rewrite lookup_insert_eq.
    cbn [mbind option_bind base set_base props restore_depth].
    do 2 f_equal. f_equal.
    + rewrite insert_insert_eq. apply insert_id. rewrite Hps. f_equal.
      destruct ps; reflexivity.
    + assert (Hpp' : forall X, set_base (mkBaseHash None) (set_base X pp) = pp).
      { intros X. destruct pp as [c sp pr]. unfold base in Hpb. simpl in *.
        destruct pr; try discriminate. injection Hpb as ->.
        destruct pb; simpl in E1; subst; reflexivity. }
      rewrite Hpp'.
      apply map_eq. intros k.
      destruct (decide (k = b)) as [->|Hkb].
      { rewrite !lookup_insert_eq. reflexivity. }
      rewrite (lookup_insert_ne _ b k) by done.
      rewrite (lookup_insert_ne _ b k) by done.
      destruct (decide (k = p)) as [->|Hkp].
      { rewrite lookup_insert_eq. done. }
      rewrite (lookup_insert_ne _ p k) by done.
      rewrite (lookup_insert_ne _ b k) by done.
      rewrite (lookup_insert_ne _ p k) by done. reflexivity.
  - intros Hrd Hra. apply insert_id. rewrite Hbp. f_equal.
    destruct bp as [c sp pr]. unfold proton in Hbh. simpl in *.
    destruct pr; try discriminate. injection Hbh as ->.
    destruct bh; simpl in *; subst. reflexivity.
Qed.

(** ** What a step keeps *)

Lemma same_speed_refl a : same_speed a a.
Proof. repeat split; reflexivity. Qed.

Lemma stores_kept_refl w : stores_kept w w.
Proof.
  split; [reflexivity|]. split.
  - intros sid. destruct (sprites w !! sid); constructor. apply same_speed_refl.
  - intros pid. destruct (heap w !! pid); constructor. apply same_shape_refl.
Qed.

Lemma stores_kept_sprite w0 w s v v' c r :
  stores_kept w0 w -> sprites w !! s = Some v ->
  (forall a, same_speed a v -> same_speed a v') ->
  stores_kept w0 (mkWorld (beaker w) (<[s := v']> (sprites w)) (heap w) c r).
Proof.
  intros (Hb & Hs & Hh) Hv Hf. split; [exact Hb|]. split; [|exact Hh].
  intros sid. cbn [sprites]. destruct (decide (s = sid)) as [<-|Hne].
  - rewrite lookup_insert_eq. specialize (Hs s). rewrite Hv in Hs.
    inversion Hs as [a b Hab|]; subst. constructor. by apply Hf.
  - rewrite lookup_insert_ne by done. apply Hs.
Qed.

Lemma stores_kept_particle w0 w p v v' c r :
  stores_kept w0 w -> heap w !! p = Some v -> same_shape v v' ->
  stores_kept w0 (mkWorld (beaker w) (sprites w) (<[p := v']> (heap w)) c r).
Proof.
  intros (Hb & Hs & Hh) Hv Hf. split; [exact Hb|]. split; [exact Hs|].
  intros pid. cbn [heap]. destruct (decide (p = pid)) as [<-|Hne].
  - rewrite lookup_insert_eq. specialize (Hh p). rewrite Hv in Hh.
    inversion Hh as [a b Hab|]; subst. constructor.
    eapply same_shape_trans; eauto.
  - rewrite lookup_insert_ne by done. apply Hh.
Qed.

Lemma kept_modify_sprite w0 s f :
  (forall a b, same_speed a b -> same_speed a (f b)) ->
  preserves (stores_kept w0) (modify_sprite s f).
Proof.
  intros Hf w a w' HK H. unfold modify_sprite in H.
  apply bind_Some in H as (v & w1 & H1 & H2).
  apply get_sprite_Some in H1 as (? & Hv & [= <- <-]).
  injection H2 as <- <-. eapply stores_kept_sprite; eauto.
Qed.

Lemma kept_modify_proton w0 p f : preserves (stores_kept w0) (modify_proton p f).
Proof.
  intros w a w' HK H. unfold modify_proton in H.
  apply bind_Some in H as (v & w1 & H1 & H).
  apply get_particle_Some in H1 as (? & Hv & [= <- <-]).
  apply bind_Some in H as (h & w2 & H1 & H).
  apply deref_Some in H1 as (? & Hh & [= <- <-]).
  injection H as <- <-. eapply stores_kept_particle; eauto.
  eapply same_shape_set_proton; eauto.
Qed.

Lemma kept_assign_base_particle w0 p r :
  preserves (stores_kept w0) (assign_base_particle p r).
Proof.
  intros w a w' HK H. unfold assign_base_particle in H.
  apply bind_Some in H as (v & w1 & H1 & H).
  apply get_particle_Some in H1 as (? & Hv & [= <- <-]).
  apply bind_Some in H as (h & w2 & H1 & H).
  apply deref_Some in H1 as (? & Hh & [= <- <-]).
  injection H as <- <-. eapply stores_kept_particle; eauto.
  eapply same_shape_set_base; eauto.
Qed.

Lemma kept_Date_now w0 : preserves (stores_kept w0) (Date_now_ Date_now).
Proof. intros w a w' HK [= <- <-]. exact HK. Qed.

Lemma kept_Math_random w0 : preserves (stores_kept w0) (Math_random_ Math_random).
Proof. intros w a w' HK [= <- <-]. exact HK. Qed.

Lemma Qabs_Qabs v : Qabs (Qabs v) == Qabs v.
Proof. apply Qabs_pos. apply Qabs_nonneg. Qed.

Lemma Qabs_opp_Qabs v : Qabs (- Qabs v) == Qabs v.
Proof. rewrite Qabs_opp. apply Qabs_Qabs. Qed.

Lemma kept_sprite_boundary_update w0 sprite min_x min_y max_x max_y :
  preserves (stores_kept w0)
    (sprite_boundary_update overlapPoint sprite min_x min_y max_x max_y).
Proof.
  intros w a w' HK H.
  destruct (sprites w !! sprite) as [s|] eqn:Hs.
  - destruct (sprite_boundary_update_run overlapPoint w sprite s
                min_x min_y max_x max_y Hs)
      as (s' & Hrun & Hvx & Hvy & Hg & Hd & Hp).
    rewrite Hrun in H. injection H as _ <-.
    eapply stores_kept_sprite; eauto.
    intros a0 (H1 & H2 & H3 & H4). unfold geometry in Hg.
    split; [|split; [|split]].
    + rewrite Hvx. repeat case_match;
        rewrite ?Qabs_Qabs, ?Qabs_opp_Qabs; exact H1.
    + rewrite Hvy. repeat case_match;
        rewrite ?Qabs_Qabs, ?Qabs_opp_Qabs; exact H2.
    + congruence.
    + congruence.
  - unfold sprite_boundary_update in H.
    apply bind_Some in H as (v & w1 & H1 & _).
    apply get_sprite_Some in H1 as (? & Hv & _). congruence.
Qed.

End Instances.

Ltac kept_step w0 :=
  lazymatch goal with
  | |- preserves _ (bind _ _) => apply preserves_bind; [|intros ?]
  | |- preserves _ (ret _) => apply preserves_ret
  | |- preserves _ throw => apply preserves_throw
  | |- preserves _ (deref _) => apply preserves_deref
  | |- preserves _ (get_sprite _) => apply preserves_get_sprite
  | |- preserves _ (get_particle _) => apply preserves_get_particle
  | |- preserves _ get_beaker => apply preserves_get_beaker
  | |- preserves _ (modify_sprite _ _) =>
      apply (kept_modify_sprite w0);
      let H := fresh in
      intros ? ? H; destruct H as (? & ? & ? & ?); repeat split; assumption
  | |- preserves _ (modify_proton _ _) => apply (kept_modify_proton w0)
  | |- preserves _ (assign_base_particle _ _) => apply (kept_assign_base_particle w0)
  | |- preserves _ (Date_now_ _) => apply kept_Date_now
  | |- preserves _ (Math_random_ _) => apply kept_Math_random
  | |- preserves _ (if _ then _ else _) => case_match
  end.

Section Steps.

Variable Date_now : nat -> Q.
Variable Math_random : nat -> Q.
Variable createSprite_depth : nat -> Q.
Variable overlapPoint : Q * Q * (Q * Q * Q) -> Q -> Q -> bool.
Variable overlap_test : Sprite -> Sprite -> bool.

Lemma kept_reacts_with_Proton w0 a b :
  preserves (stores_kept w0) (reacts_with_Proton Date_now Math_random a b).
Proof. unfold reacts_with_Proton. repeat kept_step w0. Qed.

Lemma kept_ConjugateBase_update w0 this :
  preserves (stores_kept w0) (ConjugateBase_update Date_now this).
Proof. unfold ConjugateBase_update. repeat kept_step w0. Qed.

Lemma kept_update w0 this : preserves (stores_kept w0) (update Date_now this).
Proof.
  unfold update. repeat kept_step w0.
  case_match; try apply preserves_ret; apply kept_ConjugateBase_update.
Qed.

Lemma kept_update_sprite w0 sid min_x min_y max_x max_y :
  preserves (stores_kept w0)
    (update_sprite Date_now Math_random overlapPoint overlap_test
                   sid min_x min_y max_x max_y).
Proof.
  unfold update_sprite. repeat kept_step w0.
  - apply kept_sprite_boundary_update.
  - apply sprite_resolve_collisions_preserves.
    match goal with |- context [proto ?pv] => destruct (proto pv) end;
      simpl; try apply Forall_nil_2;
      (apply Forall_cons_2; [|apply Forall_nil_2]); simpl; intros;
      apply kept_reacts_with_Proton.
  - apply kept_update.
Qed.

Lemma kept_update_particles_loop w0 l min_x min_y max_x max_y :
  preserves (stores_kept w0)
    (update_particles_loop Date_now Math_random overlapPoint overlap_test
                           l min_x min_y max_x max_y).
Proof.
  induction l as [|sid rest IH]; simpl.
  - apply preserves_ret.
  - apply preserves_bind; [apply kept_update_sprite | intros _; exact IH].
Qed.

Lemma step_stores_kept w w' :
  step Date_now Math_random overlapPoint overlap_test w = Some (tt, w') ->
  stores_kept w w'.
Proof.
  intros H. unfold step, update_particles in H.
  apply bind_Some in H as (b & w1 & [= <- <-] & H).
  eapply kept_update_particles_loop; [|exact H]. apply stores_kept_refl.
Qed.

(** X14. A step that returns leaves the beaker (all groups, the solution)
    as it was, creates and deletes no sprite and no particle, and keeps the
    prototype and the sprite of every particle. *)
Theorem step_creates_and_deletes_nothing w w' :
  step Date_now Math_random overlapPoint overlap_test w = Some (tt, w') ->
  beaker w' = beaker w /\
  dom (sprites w') = dom (sprites w) /\
  dom (heap w') = dom (heap w) /\
  (forall pid pv pv', heap w !! pid = Some pv -> heap w' !! pid = Some pv' ->
     proto pv' = proto pv /\ sprite pv' = sprite pv).
Proof.
  intros H. apply step_stores_kept in H as (Hb & Hs & Hh).
  split; [exact Hb|]. split; [|split].
  - apply set_eq. intros sid. rewrite !elem_of_dom.
    specialize (Hs sid). inversion Hs; split; intros [? ?]; eauto; congruence.
  - apply set_eq. intros pid. rewrite !elem_of_dom.
    specialize (Hh pid). inversion Hh; split; intros [? ?]; eauto; congruence.
  - intros pid pv pv' H1 H2. specialize (Hh pid). rewrite H1, H2 in Hh.
    inversion Hh as [a b (Ha & Hb' & _)|]; subst. done.
Qed.

(** X15. A step that returns keeps, for every sprite, the absolute value of
    each velocity component, the collider and the particle: reflection at
    the boundary changes signs only, and reactions and updates touch neither
    velocities nor colliders. *)
Theorem step_conserves_speed w w' sid sv sv' :
  step Date_now Math_random overlapPoint overlap_test w = Some (tt, w') ->
  sprites w !! sid = Some sv -> sprites w' !! sid = Some sv' ->
  Qabs (velocity_x sv') == Qabs (velocity_x sv) /\
  Qabs (velocity_y sv') == Qabs (velocity_y sv) /\
  collider sv' = collider sv /\ sprite_particle sv' = sprite_particle sv.
Proof.
  intros H H1 H2. apply step_stores_kept in H as (_ & Hs & _).
  specialize (Hs sid). rewrite H1, H2 in Hs. inversion Hs; subst. assumption.
Qed.

(** X11. Only conjugate bases react: for a sprite whose particle is a
    Proton or a plain Particle, one turn of the beaker's loop is the boundary
    reflection alone, whatever the sprite overlaps. *)
Theorem only_bases_react w sid sv p pv min_x min_y max_x max_y :
  sprites w !! sid = Some sv -> sprite_particle sv = Some p ->
  heap w !! p = Some pv -> is_base_class (proto pv) = false ->
  update_sprite Date_now Math_random overlapPoint overlap_test
                sid min_x min_y max_x max_y w =
  sprite_boundary_update overlapPoint sid min_x min_y max_x max_y w.
Proof.
  intros Hs Hp Hpv Hcls. unfold update_sprite.
  mrun (get_sprite_run _ _ _ Hs).
  destruct (sprite_boundary_update_run overlapPoint w sid sv
              min_x min_y max_x max_y Hs) as (s' & Hrun & _).
  rewrite Hrun. mrun Hrun.
  erewrite bind_run; [|apply deref_run; exact Hp].
  erewrite bind_run; [|apply get_particle_run; exact Hpv].
  assert (Hr : reacts_with Date_now Math_random (proto pv) = [])
    by (destruct (proto pv); done || discriminate).
  rewrite Hr. cbn [sprite_resolve_collisions]. unfold bind at 1. unfold ret at 1.
  unfold update.
  erewrite bind_run; [|apply get_particle_run; exact Hpv].
  destruct (proto pv); done || discriminate.
Qed.

Lemma Qabs_Qabs_eq v : Qabs (Qabs v) = Qabs v.
Proof. destruct v as [n d]. simpl. by rewrite Z.abs_idemp. Qed.

Lemma Qabs_opp_Qabs_eq v : Qabs (- Qabs v) = Qabs v.
Proof.
  destruct v as [n d]. unfold Qabs, Qopp. simpl.
  by rewrite Z.abs_opp, Z.abs_idemp.
Qed.

(** X12. The boundary reflection is idempotent: applied again to a sprite
    that has not moved it changes nothing, so a sprite still overlapping an
    edge on the next step keeps heading away from it. *)
Theorem sprite_boundary_update_idempotent w sprite min_x min_y max_x max_y :
  (exec sprite_boundary_update overlapPoint sprite min_x min_y max_x max_y;
   sprite_boundary_update overlapPoint sprite min_x min_y max_x max_y) w =
  sprite_boundary_update overlapPoint sprite min_x min_y max_x max_y w.
Proof.
  destruct (sprites w !! sprite) as [s|] eqn:Hs.
  - destruct (sprite_boundary_update_run overlapPoint w sprite s
                min_x min_y max_x max_y Hs)
      as (s' & Hrun & Hvx & Hvy & Hg & Hd & Hp).
    mrun Hrun. rewrite Hrun.
    match goal with |- context [sprite_boundary_update _ _ _ _ _ _ ?w1] =>
      destruct (sprite_boundary_update_run overlapPoint w1 sprite s'
                  min_x min_y max_x max_y (lookup_insert_eq _ _ _))
        as (s'' & Hrun' & Hvx' & Hvy' & Hg' & Hd' & Hp')
    end.
    rewrite Hrun'. cbn [beaker sprites heap clock_reads random_reads].
    rewrite insert_insert_eq. do 4 f_equal.
    unfold geometry in *.
    injection Hg as Hpx Hpy Hc. injection Hg' as Hpx' Hpy' Hc'.
    rewrite Hpx, Hpy, Hc in Hvx', Hvy'.
    set (g := (position_x s, position_y s, collider s)) in *.
    set (at_left := overlapPoint g min_x (position_y s)) in *.
    set (at_right := overlapPoint g max_x (position_y s)) in *.
    set (at_top := overlapPoint g (position_x s) min_y) in *.
    set (at_bottom := overlapPoint g (position_x s) max_y) in *.
    assert (Ex : velocity_x s'' = velocity_x s').
    { rewrite Hvx', Hvx. destruct at_left, at_right;
        rewrite ?Qabs_Qabs_eq, ?Qabs_opp_Qabs_eq; reflexivity. }
    assert (Ey : velocity_y s'' = velocity_y s').
    { rewrite Hvy', Hvy. destruct at_top, at_bottom;
        rewrite ?Qabs_Qabs_eq, ?Qabs_opp_Qabs_eq; reflexivity. }
    destruct s', s''. simpl in *. f_equal; congruence.
  - assert (Hfail : sprite_boundary_update overlapPoint sprite
                      min_x min_y max_x max_y w = None).
    { unfold sprite_boundary_update. apply bind_fail.
      unfold get_sprite. rewrite Hs. reflexivity. }
    rewrite Hfail. apply bind_fail. exact Hfail.
Qed.

(** ** Adding particles *)

Lemma Qgeb_lt a b : a < b -> Qgeb a b = false.
Proof.
  intros H. destruct (Qgeb a b) eqn:E; [|reflexivity]. apply Qgeb_ge in E. lra.
Qed.

Lemma Good_group_stored w k g s :
  Good w -> particles (beaker w) !! k = Some g -> s ∈ g -> is_Some (sprites w !! s).
Proof.
  intros (_ & _ & _ & Hlk) Hg Hs. specialize (Hlk k g Hg).
  eapply Forall_forall in Hlk; [|exact Hs].
  destruct (linked_inv _ _ Hlk) as (sv & _ & _ & Hsv & _). eauto.
Qed.

Lemma Good_all_stored w s :
  Good w -> s ∈ all_particle_sprites (beaker w) -> is_Some (sprites w !! s).
Proof.
  intros ((_ & Ha & _) & _) Hs. eapply Forall_forall in Ha; [|exact Hs].
  destruct (registered_ok_inv _ _ Ha) as (sv & _ & _ & Hsv & _). eauto.
Qed.

Lemma add_one_appends w cls name x y g :
  Good w ->
  name = property_key (prototype_name cls) -> registers_protons_only cls ->
  particles (beaker w) !! name = Some g ->
  collider_radius (prototype cls) * 2 < sol_width (solution (beaker w)) ->
  collider_radius (prototype cls) * 2 < sol_height (solution (beaker w)) ->
  exists w' sm,
    (do particle <- new Math_random createSprite_depth (prototype cls) x y;
     addParticle name particle) w = Some (tt, w') /\
    Good w' /\ sprites w !! sm = None /\ is_Some (sprites w' !! sm) /\
    (forall s, is_Some (sprites w !! s) -> is_Some (sprites w' !! s)) /\
    beaker w' =
      set_all_particle_sprites (all_particle_sprites (beaker w) ++ [sm])
        (set_particles (<[name := g ++ [sm]]> (particles (beaker w))) (beaker w)) /\
    size (sprites w') = (size (sprites w) + sprites_per_instance (prototype cls))%nat /\
    random_reads w' = (random_reads w + 5 * sprites_per_instance (prototype cls))%nat.
Proof.
  intros HG Hname Hreg Hg Hw Hht.
  destruct (new_constructed Math_random createSprite_depth w (prototype cls) x y)
    as (wc & sc & Hnewc & _ & (_ & _ & _ & Hrc & Hszc & _)).
  destruct (add_one_Good Math_random createSprite_depth w cls name x y g
              HG Hname Hreg Hg Hw Hht) as (w' & Hrun & HG' & _ & _).
  destruct (new_spec Math_random createSprite_depth w (prototype cls) x y)
    as (w1 & sm & Hnew & Hfresh & Hbuilt).
  destruct Hbuilt as ((Hh1 & Hb1 & Hc1 & Hold) & sm' & svm & Hsm & Hnone & Hsv & _).
  simpl in Hsm. injection Hsm as <-.
  assert (Hthis : heap w1 !! fresh (dom (heap w))
                  = Some (mkParticle (prototype cls) (Some sm)
                            (init_props (prototype cls))))
    by (rewrite Hh1; apply lookup_insert_eq).
  assert (Hrun' := Hrun).
  erewrite bind_run in Hrun' by exact Hnew.
  rewrite (addParticle_run w1 name (fresh (dom (heap w)))
             (mkParticle (prototype cls) (Some sm) (init_props (prototype cls)))
             sm g) in Hrun';
    [|by rewrite Hb1|exact Hthis|done].
  injection Hrun' as <-.
  exists (mkWorld
            (set_all_particle_sprites
               (Group_add sm (all_particle_sprites (beaker w1)))
               (set_particles (<[name:=Group_add sm g]> (particles (beaker w1)))
                  (beaker w1)))
            (sprites w1) (heap w1) (clock_reads w1) (random_reads w1)), sm.
  split; [exact Hrun|]. split; [exact HG'|]. split; [exact Hnone|].
  assert (wc = w1) as -> by congruence.
  cbn [sprites beaker random_reads]. split; [eauto|]. split.
  { intros s [v Hv]. exists v. by apply Hold. }
  split; [|done].
  rewrite Hb1. unfold Group_add.
  rewrite decide_False.
  2:{ intros Hin. apply (Good_all_stored w sm HG) in Hin as [? ?]. congruence. }
  rewrite decide_False.
  2:{ intros Hin. apply (Good_group_stored w name g sm HG Hg) in Hin as [? ?].
      congruence. }
  reflexivity.
Qed.

Lemma addParticles_loop_appends cls name quantity :
  name = property_key (prototype_name cls) -> registers_protons_only cls ->
  forall w g, Good w -> particles (beaker w) !! name = Some g ->
    collider_radius (prototype cls) * 2 < sol_width (solution (beaker w)) ->
    collider_radius (prototype cls) * 2 < sol_height (solution (beaker w)) ->
    exists w' added,
      addParticles_loop Math_random createSprite_depth cls name quantity w
        = Some (tt, w') /\ Good w' /\
      length added = quantity /\ NoDup added /\
      Forall (λ s, sprites w !! s = None /\ is_Some (sprites w' !! s)) added /\
      (forall s, is_Some (sprites w !! s) -> is_Some (sprites w' !! s)) /\
      beaker w' =
        set_all_particle_sprites (all_particle_sprites (beaker w) ++ added)
          (set_particles (<[name := g ++ added]> (particles (beaker w))) (beaker w)) /\
      size (sprites w') =
        (size (sprites w) + quantity * sprites_per_instance (prototype cls))%nat /\
      random_reads w' =
        (random_reads w
         + quantity * (2 + 5 * sprites_per_instance (prototype cls)))%nat.
Proof.
  intros Hname Hreg. induction quantity as [|q IH]; intros w g HG Hg Hw Hh.
  - exists w, []. simpl. split; [reflexivity|]. split; [exact HG|].
    split; [reflexivity|]. split; [constructor|]. split; [constructor|].
    split; [done|]. split; [|lia].
    rewrite !app_nil_r. rewrite insert_id by exact Hg.
    destruct (beaker w); reflexivity.
  - cbn [addParticles_loop]. unfold bind at 1. rewrite randomPoint_run.
    rewrite (Qgeb_lt _ _ Hw), (Qgeb_lt _ _ Hh). cbn [orb].
    set (w0 := mkWorld (beaker w) (sprites w) (heap w) (clock_reads w)
                       (S (S (random_reads w)))).
    assert (HG0 : Good w0) by (apply (Good_same_stores w); done).
    match goal with
    | |- context [new _ _ _ ?x ?y] =>
        destruct (add_one_appends w0 cls name x y g HG0 Hname Hreg Hg Hw Hh)
          as (w1 & sm & Hrun & HG1 & Hnone & Hsome & Hmono & Hb1 & Hsz1 & Hr1)
    end.
    mrun Hrun.
    assert (Hg1 : particles (beaker w1) !! name = Some (g ++ [sm])).
    { rewrite Hb1. cbn. apply lookup_insert_eq. }
    assert (Hsol : solution (beaker w1) = solution (beaker w)).
    { rewrite Hb1. reflexivity. }
    destruct (IH w1 (g ++ [sm]) HG1 Hg1) as
      (w' & added & Hrun' & HG' & Hlen & Hnd & Hfr & Hmono' & Hb' & Hsz' & Hr');
      [rewrite Hsol; exact Hw | rewrite Hsol; exact Hh |].
    exists w', (sm :: added). split; [exact Hrun'|]. split; [exact HG'|].
    split; [simpl; lia|]. split.
    { constructor; [|exact Hnd]. intros Hin.
      eapply Forall_forall in Hfr; [|exact Hin]. destruct Hfr as [Hn _].
      destruct Hsome as [? ?]. congruence. }
    split.
    { constructor; [split; [exact Hnone | by apply Hmono']|].
      eapply Forall_impl; [exact Hfr|]. intros s [Hn Hs]. split; [|exact Hs].
      destruct (sprites w !! s) eqn:E; [|reflexivity].
      destruct (Hmono s) as [? ?]; [cbn; eauto|]. congruence. }
    split.
    { intros s Hs. apply Hmono'. apply Hmono. exact Hs. }
    split; [|cbn [sprites random_reads] in Hsz1, Hr1;
             rewrite Hsz', Hr', Hsz1, Hr1; split; simpl; lia].
    rewrite Hb', Hb1. unfold set_all_particle_sprites, set_particles. cbn.
    rewrite insert_insert_eq. rewrite <- !app_assoc. reflexivity.
Qed.

Lemma addParticles_shape cls quantity w :
  Good w -> registers_protons_only cls ->
  let key := property_key (prototype_name cls) in
  let fits := Qgeb (collider_radius (prototype cls) * 2)
                   (sol_width (solution (beaker w))) ||
              Qgeb (collider_radius (prototype cls) * 2)
                   (sol_height (solution (beaker w))) = false in
  exists w' added,
    addParticles Math_random createSprite_depth cls quantity w = Some (tt, w') /\
    NoDup added /\
    Forall (λ s, sprites w !! s = None /\ is_Some (sprites w' !! s)) added /\
    beaker w' =
      set_all_particle_sprites (all_particle_sprites (beaker w) ++ added)
        (set_particles
           (<[key := default [] (particles (beaker w) !! key) ++ added]>
              (particles (beaker w))) (beaker w)) /\
    (fits -> length added = quantity /\
             size (sprites w') =
               (size (sprites w)
                + quantity * sprites_per_instance (prototype cls))%nat /\
             random_reads w' =
               (random_reads w
                + quantity * (2 + 5 * sprites_per_instance (prototype cls)))%nat) /\
    (~ fits -> added = [] /\ sprites w' = sprites w /\
               random_reads w' = random_reads w).
Proof.
  intros HG Hreg key fits.
  destruct (Good_initParticleGroup w key HG) as (w1 & Hrun & HG1 & _ & _).
  assert (Hshape : exists g1, particles (beaker w1) !! key = Some g1 /\
            g1 = default [] (particles (beaker w) !! key) /\
            sprites w1 = sprites w /\ random_reads w1 = random_reads w /\
            beaker w1 = set_particles (<[key := g1]> (particles (beaker w))) (beaker w)).
  { unfold initParticleGroup, bind, get_beaker in Hrun.
    destruct (particles (beaker w) !! key) as [g|] eqn:Hg.
    - injection Hrun as <-. exists g. split; [exact Hg|]. split; [reflexivity|].
      split; [reflexivity|]. split; [reflexivity|]. rewrite insert_id by exact Hg.
      destruct (beaker w); reflexivity.
    - injection Hrun as <-. exists []. cbn. rewrite lookup_insert_eq. done. }
  destruct Hshape as (g1 & Hg1 & Hdef & Hsp1 & Hrr1 & Hb1).
  assert (Hsol : solution (beaker w1) = solution (beaker w)) by (rewrite Hb1; reflexivity).
  destruct (Qgeb (collider_radius (prototype cls) * 2)
                 (sol_width (solution (beaker w))) ||
            Qgeb (collider_radius (prototype cls) * 2)
                 (sol_height (solution (beaker w)))) eqn:Efit.
  - (* the class does not fit: only the group is created *)
    exists w1, []. split.
    { unfold addParticles. fold key. mrun Hrun.
      apply addParticles_loop_rejected. rewrite Hsol. exact Efit. }
    split; [constructor|]. split; [constructor|].
    split; [|split; [subst fits; discriminate | done]].
    rewrite !app_nil_r, <- Hdef, Hb1.
    unfold set_all_particle_sprites, set_particles. reflexivity.
  - apply orb_false_iff in Efit as [Ew Eh].
    assert (Hw : collider_radius (prototype cls) * 2 < sol_width (solution (beaker w))).
    { apply Qnot_le_lt. intros Hle. apply Qgeb_ge in Hle. congruence. }
    assert (Hh : collider_radius (prototype cls) * 2 < sol_height (solution (beaker w))).
    { apply Qnot_le_lt. intros Hle. apply Qgeb_ge in Hle. congruence. }
    destruct (addParticles_loop_appends cls key quantity eq_refl Hreg w1 g1 HG1 Hg1)
      as (w' & added & Hrun' & _ & Hlen & Hnd & Hfr & _ & Hb' & Hsz' & Hr');
      [rewrite Hsol; exact Hw | rewrite Hsol; exact Hh |].
    exists w', added. split.
    { unfold addParticles. fold key. mrun Hrun. exact Hrun'. }
    split; [exact Hnd|]. split; [rewrite Hsp1 in Hfr; exact Hfr|].
    split; [|split; [intros _; rewrite <- Hsp1, <- Hrr1; done
                    | intros Hn; exfalso; apply Hn; reflexivity]].
    rewrite Hb', Hb1. cbn. rewrite insert_insert_eq. rewrite <- Hdef. done.
Qed.

(** X18. For a class that fits the solution and whose prototype name is
    not a key inherited from [Object.prototype], [addParticles(class,
    quantity)] on a reachable world appends exactly [quantity] new, pairwise
    different sprites to the all-particles group and to the class's group
    (created if missing), in creation order; it creates [quantity] times the
    class's number of sprites and reads the random source [quantity * (2 + 5
    * that number)] times: two reads for the point and five for each sprite,
    three of them the engine's. *)
Theorem addParticles_appends_quantity cls quantity w :
  reachable Date_now Math_random createSprite_depth overlapPoint overlap_test w ->
  registers_protons_only cls ->
  inherited_key (property_key (prototype_name cls)) = false ->
  collider_radius (prototype cls) * 2 < sol_width (solution (beaker w)) ->
  collider_radius (prototype cls) * 2 < sol_height (solution (beaker w)) ->
  let key := property_key (prototype_name cls) in
  exists w' added,
    addParticles Math_random createSprite_depth cls quantity w = Some (tt, w') /\
    length added = quantity /\ NoDup added /\
    Forall (λ s, sprites w !! s = None /\ is_Some (sprites w' !! s)) added /\
    all_particle_sprites (beaker w') = all_particle_sprites (beaker w) ++ added /\
    particles (beaker w') =
      <[key := default [] (particles (beaker w) !! key) ++ added]>
        (particles (beaker w)) /\
    solution (beaker w') = solution (beaker w) /\
    size (sprites w') =
      (size (sprites w) + quantity * sprites_per_instance (prototype cls))%nat /\
    random_reads w' =
      (random_reads w + quantity * (2 + 5 * sprites_per_instance (prototype cls)))%nat.
Proof.
  intros Hr Hreg _ Hw Hh key.
  apply reachable_Good in Hr as [HG _].
  destruct (addParticles_shape cls quantity w HG Hreg)
    as (w' & added & Hrun & Hnd & Hfr & Hb & Hfit & _).
  destruct Hfit as (Hlen & Hsz & Hrr);
    [rewrite (Qgeb_lt _ _ Hw), (Qgeb_lt _ _ Hh); reflexivity|].
  exists w', added. split; [exact Hrun|]. split; [exact Hlen|].
  split; [exact Hnd|]. split; [exact Hfr|]. rewrite Hb. done.
Qed.

End Steps.

(** ** Groups *)

Lemma partitioned_empty b :
  all_particle_sprites b = [] -> particles b = ∅ -> partitioned b.
Proof.
  intros Ha Hp. unfold partitioned. rewrite Ha, Hp.
  split; [constructor|]. split.
  { intros k g H. rewrite lookup_empty in H. done. }
  split.
  { intros s. split.
    - intros H. by apply elem_of_nil in H.
    - intros (k & g & H & _). rewrite lookup_empty in H. done. }
  intros k1 k2 g1 g2 s H. rewrite lookup_empty in H. done.
Qed.

Lemma partitioned_append b key added :
  partitioned b -> NoDup added ->
  (forall s, s ∈ added -> s ∉ all_particle_sprites b) ->
  partitioned
    (set_all_particle_sprites (all_particle_sprites b ++ added)
       (set_particles
          (<[key := default [] (particles b !! key) ++ added]> (particles b)) b)).
Proof.
  intros (Hnd & Hg & Hiff & Hdisj) Hna Hfresh.
  set (g0 := default [] (particles b !! key)).
  assert (Hg0 : forall s, s ∈ g0 -> particles b !! key = Some g0).
  { intros s Hs. unfold g0 in *. destruct (particles b !! key); [done|].
    by apply elem_of_nil in Hs. }
  assert (Hg0all : forall s, s ∈ g0 -> s ∈ all_particle_sprites b).
  { intros s Hs. apply Hiff. exists key, g0. split; [by eapply Hg0|exact Hs]. }
  assert (Hg0nd : NoDup g0).
  { unfold g0. destruct (particles b !! key) eqn:E; [by eapply Hg|constructor]. }
  unfold partitioned, set_all_particle_sprites, set_particles.
  cbn [all_particle_sprites particles].
  split; [|split; [|split]].
  - apply NoDup_app. split; [exact Hnd|]. split; [|exact Hna].
    intros s Hs Hin. by apply (Hfresh s Hin).
  - intros k g. destruct (decide (key = k)) as [<-|Hne].
    + rewrite lookup_insert_eq. intros [= <-]. apply NoDup_app.
      split; [exact Hg0nd|]. split; [|exact Hna].
      intros s Hs Hin. apply (Hfresh s Hin). by apply Hg0all.
    + rewrite lookup_insert_ne by done. apply Hg.
  - intros s. rewrite elem_of_app. split.
    + intros [Hs|Hs].
      * apply Hiff in Hs as (k & g & Hk & Hin).
        destruct (decide (key = k)) as [<-|Hne].
        { exists key, (g0 ++ added). rewrite lookup_insert_eq. split; [done|].
          apply elem_of_app. left. unfold g0. rewrite Hk. exact Hin. }
        { exists k, g. rewrite lookup_insert_ne by done. done. }
      * exists key, (g0 ++ added). rewrite lookup_insert_eq. split; [done|].
        apply elem_of_app. by right.
    + intros (k & g & Hk & Hin). destruct (decide (key = k)) as [<-|Hne].
      * rewrite lookup_insert_eq in Hk. injection Hk as <-.
        apply elem_of_app in Hin as [Hin|Hin]; [left; by apply Hg0all | by right].
      * rewrite lookup_insert_ne in Hk by done. left. apply Hiff. eauto.
  - intros k1 k2 g1 g2 s H1 H2 Hs1 Hs2.
    destruct (decide (key = k1)) as [<-|Hn1], (decide (key = k2)) as [<-|Hn2];
      [reflexivity| | |].
    + rewrite lookup_insert_eq in H1. injection H1 as <-.
      rewrite lookup_insert_ne in H2 by done.
      apply elem_of_app in Hs1 as [Hs1|Hs1].
      * eapply Hdisj; [by eapply Hg0 | exact H2 | exact Hs1 | exact Hs2].
      * exfalso. apply (Hfresh s Hs1). apply Hiff. eauto.
    + rewrite lookup_insert_eq in H2. injection H2 as <-.
      rewrite lookup_insert_ne in H1 by done.
      apply elem_of_app in Hs2 as [Hs2|Hs2].
      * eapply Hdisj; [exact H1 | by eapply Hg0 | exact Hs1 | exact Hs2].
      * exfalso. apply (Hfresh s Hs2). apply Hiff. eauto.
    + rewrite lookup_insert_ne in H1 by done.
      rewrite lookup_insert_ne in H2 by done. eapply Hdisj; eauto.
Qed.

Lemma partitioned_without L b : partitioned b -> partitioned (Beaker_without L b).
Proof.
  intros (Hnd & Hg & Hiff & Hdisj).
  unfold partitioned, Beaker_without, set_all_particle_sprites, set_particles.
  cbn [all_particle_sprites particles].
  assert (Hlk : forall k g', (filter (λ t, t ∉ L) <$> particles b) !! k = Some g' ->
            exists g, particles b !! k = Some g /\ g' = filter (λ t, t ∉ L) g).
  { intros k g' H. rewrite lookup_fmap in H.
    destruct (particles b !! k) as [g|]; [|done]. injection H as <-. eauto. }
  split; [|split; [|split]].
  - by apply NoDup_filter.
  - intros k g' H. apply Hlk in H as (g & H & ->). apply NoDup_filter. eauto.
  - intros s. rewrite list_elem_of_filter. split.
    + intros [Hn Hs]. apply Hiff in Hs as (k & g & Hk & Hin).
      exists k, (filter (λ t, t ∉ L) g). rewrite lookup_fmap, Hk.
      split; [done|]. apply list_elem_of_filter. done.
    + intros (k & g' & H & Hin). apply Hlk in H as (g & H & ->).
      apply list_elem_of_filter in Hin as [Hn Hin]. split; [exact Hn|].
      apply Hiff. eauto.
  - intros k1 k2 g1' g2' s H1 H2 Hs1 Hs2.
    apply Hlk in H1 as (g1 & H1 & ->). apply Hlk in H2 as (g2 & H2 & ->).
    apply list_elem_of_filter in Hs1 as [_ Hs1].
    apply list_elem_of_filter in Hs2 as [_ Hs2]. eapply Hdisj; eauto.
Qed.

Lemma removeParticles_shape cls quantity w g :
  Good w -> NoDup g -> particles (beaker w) !! fn_name cls = Some g ->
  exists w',
    removeParticles cls quantity w = Some (tt, w') /\
    beaker w' = Beaker_without (take (quantity `min` length g) g) (beaker w) /\
    heap w' = heap w /\ dom (sprites w') = dom (sprites w).
Proof.
  intros HG Hnd Hg.
  assert (Hlk : Forall (linked w) g).
  { destruct HG as (_ & _ & _ & Hl). eapply Hl; eauto. }
  set (m := quantity `min` length g).
  destruct (removeParticles_loop_steps (fn_name cls) w g m Hg Hnd Hlk
              (Nat.le_min_r _ _) m 0%nat eq_refl)
    as (w' & Hrun & Hb & Hh & Hother & Hrem & _).
  exists w'. split.
  - unfold removeParticles. unfold bind at 1. unfold get_beaker at 1.
    erewrite bind_run; [|apply deref_run; exact Hg].
    replace (if (length g <? quantity)%nat then length g else quantity) with m.
    + rewrite Hrun. reflexivity.
    + unfold m. destruct (Nat.ltb_spec (length g) quantity); lia.
  - rewrite drop_0 in Hb, Hother, Hrem. split; [exact Hb|]. split; [exact Hh|].
    apply set_eq. intros s. rewrite !elem_of_dom.
    destruct (decide (s ∈ take m g)) as [Hin|Hn].
    + destruct (Hrem s Hin) as (sv & -> & _). split; [|eauto]. intros _.
      eapply Forall_forall in Hlk;
        [|eapply elem_of_sublist; [exact Hin | apply sublist_take]].
      destruct (linked_inv _ _ Hlk) as (sv0 & _ & _ & Hsv0 & _). eauto.
    + rewrite (Hother s Hn). reflexivity.
Qed.

Section Population.

Variable Date_now : nat -> Q.
Variable Math_random : nat -> Q.
Variable createSprite_depth : nat -> Q.
Variable overlapPoint : Q * Q * (Q * Q * Q) -> Q -> Q -> bool.
Variable overlap_test : Sprite -> Sprite -> bool.

Lemma reachable_partitioned w :
  reachable Date_now Math_random createSprite_depth overlapPoint overlap_test w ->
  partitioned (beaker w).
Proof.
  induction 1 as [sw sh x y sx sy | w cls q w' Hr IH Hreg Hrun
                 | w cls q w' Hr IH Hrun | w w' Hr IH Hrun
                 | w sid sv x y Hr IH Hsv].
  - apply partitioned_empty; reflexivity.
  - apply reachable_Good in Hr as [HG _].
    destruct (addParticles_shape Math_random createSprite_depth cls q w HG Hreg)
      as (w'' & added & Hrun' & Hnd & Hfr & Hb & _).
    assert (w'' = w') as -> by congruence.
    rewrite Hb. apply partitioned_append; [exact IH | exact Hnd |].
    intros s Hs Hin. eapply Forall_forall in Hfr; [|exact Hs].
    destruct Hfr as [Hn _].
    apply (Good_all_stored w s HG) in Hin as [? ?]. congruence.
  - apply reachable_Good in Hr as [HG _].
    destruct (particles (beaker w) !! fn_name cls) as [g|] eqn:Hg.
    + destruct (removeParticles_shape cls q w g HG) as (w'' & Hrun' & Hb & _);
        [destruct IH as (_ & Hgnd & _); by eapply Hgnd | exact Hg |].
      assert (w'' = w') as -> by congruence.
      rewrite Hb. by apply partitioned_without.
    + rewrite (removeParticles_no_group cls q w Hg) in Hrun. discriminate.
  - apply step_stores_kept in Hrun as (Hb & _). rewrite Hb. exact IH.
  - exact IH.
Qed.

(** X21. In every reachable world the groups partition the all-particles
    group: it lists no sprite twice, neither does a per-type group, a sprite
    is in the all-particles group exactly when it is in some per-type group,
    and it is in one per-type group only. *)
Theorem reachable_groups_partition w :
  reachable Date_now Math_random createSprite_depth overlapPoint overlap_test w ->
  NoDup (all_particle_sprites (beaker w)) /\
  (forall k g, particles (beaker w) !! k = Some g -> NoDup g) /\
  (forall s, s ∈ all_particle_sprites (beaker w) <->
             exists k g, particles (beaker w) !! k = Some g /\ s ∈ g) /\
  (forall k1 k2 g1 g2 s,
     particles (beaker w) !! k1 = Some g1 -> particles (beaker w) !! k2 = Some g2 ->
     s ∈ g1 -> s ∈ g2 -> k1 = k2).
Proof. intros Hr. exact (reachable_partitioned w Hr). Qed.

(** X20. On a reachable world [removeParticles(class, quantity)] returns
    exactly when the beaker has a group under the class's function name.
    ([Particle.prototype.remove] is modelled from the spec.) *)
Theorem removeParticles_returns_iff_group_exists cls quantity w :
  reachable Date_now Math_random createSprite_depth overlapPoint overlap_test w ->
  (exists w', removeParticles cls quantity w = Some (tt, w')) <->
  is_Some (particles (beaker w) !! fn_name cls).
Proof.
  intros Hr. split.
  - intros [w' Hrun]. destruct (particles (beaker w) !! fn_name cls) eqn:Hg; [eauto|].
    rewrite (removeParticles_no_group cls quantity w Hg) in Hrun. discriminate.
  - intros [g Hg]. pose proof (reachable_partitioned w Hr) as (_ & Hnd & _).
    apply reachable_Good in Hr as [HG _].
    destruct (removeParticles_shape cls quantity w g HG (Hnd _ _ Hg) Hg)
      as (w' & Hrun & _). eauto.
Qed.

(** X16. On every world reached from a new beaker by [addParticles],
    [removeParticles], [step] and sprite moves, [step] returns (no
    TypeError), whatever the clock, the random source and the overlap tests
    answer. *)
Theorem step_returns_on_reachable
    (clock rnd : nat -> Q) (op : Q * Q * (Q * Q * Q) -> Q -> Q -> bool)
    (ot : Sprite -> Sprite -> bool) w :
  reachable Date_now Math_random createSprite_depth overlapPoint overlap_test w ->
  exists w', step clock rnd op ot w = Some (tt, w').
Proof.
  intros Hr. apply reachable_Good in Hr as [(HWF & _) _].
  destruct (step_total clock rnd op ot w HWF) as (w' & Hrun & _). eauto.
Qed.

(** X17. On every such world [addParticles] returns, for every quantity and
    every random source and for every class that registers only protons
    under "Proton" and whose prototype name is not one of the keys a plain
    object inherits from [Object.prototype] (under such a key the code
    creates no group and [addParticle] throws). *)
Theorem addParticles_returns_on_reachable (rnd depth_ : nat -> Q) cls quantity w :
  reachable Date_now Math_random createSprite_depth overlapPoint overlap_test w ->
  registers_protons_only cls ->
  inherited_key (property_key (prototype_name cls)) = false ->
  exists w', addParticles rnd depth_ cls quantity w = Some (tt, w').
Proof.
  intros Hr Hreg _. apply reachable_Good in Hr as [HG _].
  destruct (addParticles_Good rnd depth_ cls quantity w HG Hreg) as (w' & Hrun & _).
  eauto.
Qed.

(** X22. In every reachable world bond references are symmetric, and no two
    bases reference the same proton. *)
Theorem reachable_bonds_symmetric w b p :
  reachable Date_now Math_random createSprite_depth overlapPoint overlap_test w ->
  (proton_of (heap w) b = Some p <-> base_of (heap w) p = Some b) /\
  (forall b', proton_of (heap w) b = Some p -> proton_of (heap w) b' = Some p -> b' = b).
Proof.
  intros Hr. apply reachable_Good in Hr as [(_ & Hsym & _) _].
  split; [apply Hsym|].
  intros b' H1 H2. apply Hsym in H1, H2. congruence.
Qed.

(** X23. In every reachable world each sprite of a per-type group is stored
    and carries a stored particle whose sprite it is
    ([sprite.particle.sprite === sprite]). *)
Theorem reachable_group_sprites_linked w k g s :
  reachable Date_now Math_random createSprite_depth overlapPoint overlap_test w ->
  particles (beaker w) !! k = Some g -> s ∈ g ->
  exists sv p pv,
    sprites w !! s = Some sv /\ sprite_particle sv = Some p /\
    heap w !! p = Some pv /\ sprite pv = Some s.
Proof.
  intros Hr Hg Hs. apply reachable_Good in Hr as [(_ & _ & _ & Hlk) _].
  specialize (Hlk k g Hg). eapply Forall_forall in Hlk; [|exact Hs].
  by apply linked_inv.
Qed.

(** X8. A capture followed by the base's update, as in one turn of the
    beaker's loop: when the clock read by the update is still before the
    release time just stored, the update does not throw and the proton's
    sprite ends at the base sprite's position plus the offset, with its
    raised depth and its own velocity. *)
Theorem capture_then_update_places_proton w bsid psid bs ps b p bp pp bh pb :
  sprites w !! bsid = Some bs -> sprite_particle bs = Some b ->
  heap w !! b = Some bp -> proton bp = Some bh -> sprite bp = Some bsid ->
  sprites w !! psid = Some ps -> sprite_particle ps = Some p ->
  heap w !! p = Some pp -> base pp = Some pb -> sprite pp = Some psid ->
  base_particle pb = None -> particle bh = None ->
  let ra := Date_now (clock_reads w) + fst (release_after_range bh)
            + snd (release_after_range bh) * Math_random (random_reads w) in
  ~ ra == 0 ->
  Date_now (S (clock_reads w)) < ra ->
  (exec reacts_with_Proton Date_now Math_random bsid psid;
   ConjugateBase_update Date_now b) w =
    Some (tt,
      mkWorld (beaker w)
        (<[psid := mkSprite (position_x bs + offset_x bh) (position_y bs + offset_y bh)
                            (velocity_x ps) (velocity_y ps)
                            (Some (to_number (depth bs) + (1 # 2)))
                            (collider ps) (sprite_particle ps)]> (sprites w))
        (<[b := set_proton
                  (mkProtonHash (Some p) (offset_x bh) (offset_y bh) (depth ps)
                     (release_after_range bh) (post_release_duration bh) (Some ra)) bp]>
           (<[p := set_base (mkBaseHash (Some b)) pp]> (heap w)))
        (S (S (clock_reads w))) (S (random_reads w))).
Proof.
  intros Hbs Hb Hbp Hbh Hsb Hps Hp Hpp Hpb Hsp E1 E2 ra Hnz Hlt.
  assert (Hne : b <> p).
  { intros ->. rewrite Hbp in Hpp. injection Hpp as ->.
    eapply proton_base_disjoint; eauto. }
  assert (Hsne : psid <> bsid).
  { intros ->. rewrite Hbs in Hps. injection Hps as ->. congruence. }
  erewrite bind_run;
    [|rewrite (reacts_with_Proton_eq Date_now Math_random w bsid psid bs ps p pp pb)
        by assumption;
      rewrite Hb, Hbp, Hbh, E1, E2; reflexivity].
  unfold bond_world, captured.
  erewrite ConjugateBase_update_eq;
    [|cbn [heap]; apply lookup_insert_eq | reflexivity].
  cbv zeta.
  cbn [release_after post_release_duration particle restore_depth to_number
       clock_reads heap sprites beaker random_reads offset_x offset_y].
  fold ra.
  rewrite (proj2 (truthy_num_Some ra) Hnz).
  rewrite (proj2 (Qltb_lt _ _) Hlt).
  cbn [mbind option_bind].
  rewrite lookup_insert_ne by done. rewrite lookup_insert_eq.
  cbn [mbind option_bind sprite set_base set_proton]. rewrite Hsp, Hsb.
  cbn [mbind option_bind]. rewrite (lookup_insert_ne _ psid bsid) by done.
  rewrite Hbs.
  cbn [mbind option_bind]. rewrite lookup_insert_eq.
  cbn [mbind option_bind]. rewrite insert_insert_eq. reflexivity.
Qed.

(** X19. [removeParticles] throws on a class whose group is missing, and
    returns, changing nothing else, once [addParticles(class, 0)] has created
    the (empty) group, provided the class's two names agree and are not a
    key that a plain object inherits from [Object.prototype] (under such a
    key [addParticles] creates no group). *)
Theorem addParticles_zero_makes_removal_safe (rnd depth_ : nat -> Q) cls quantity w :
  fn_name cls = property_key (prototype_name cls) ->
  inherited_key (fn_name cls) = false ->
  particles (beaker w) !! fn_name cls = None ->
  removeParticles cls quantity w = None /\
  (exec addParticles rnd depth_ cls 0; removeParticles cls quantity) w =
    Some (tt, mkWorld (set_particles (<[fn_name cls := []]> (particles (beaker w)))
                                     (beaker w))
                      (sprites w) (heap w) (clock_reads w) (random_reads w)).
Proof.
  intros Hname _ Hg. split; [by apply removeParticles_no_group|].
  unfold addParticles. rewrite <- Hname. cbn [addParticles_loop].
  unfold initParticleGroup, removeParticles, bind, get_beaker, ret. rewrite Hg.
  cbn. rewrite lookup_insert_eq. cbn. destruct quantity; reflexivity.
Qed.

Lemma overlap_bonded_base_noop w bsid bs b bp bh g :
  sprites w !! bsid = Some bs -> sprite_particle bs = Some b ->
  heap w !! b = Some bp -> proton bp = Some bh -> is_Some (particle bh) ->
  Forall (λ s, proton_sprite_ok w s = true) g ->
  overlap overlap_test bsid g (reacts_with_Proton Date_now Math_random) w
  = Some (tt, w).
Proof.
  intros Hbs Hb Hbp Hbh [p0 Hp0] Hg.
  induction Hg as [|s rest Hs _ IH]; [reflexivity|].
  cbn [overlap].
  destruct (proton_sprite_ok_inv _ _ Hs) as (sv & q & qv & qb & Hsv & Hq & Hqv & Hqb).
  mrun (get_sprite_run _ _ _ Hbs). mrun (get_sprite_run _ _ _ Hsv).
  erewrite bind_run; [exact IH|].
  destruct (negb (bsid =? s)%nat && overlap_test bs sv); [|reflexivity].
  rewrite (reacts_with_Proton_eq Date_now Math_random w bsid s bs sv q qv qb)
    by assumption.
  destruct (truthy_ref (base_particle qb)); [reflexivity|].
  rewrite Hb, Hbp, Hbh, Hp0. reflexivity.
Qed.

(** X10. One collision pass of a free base over the proton group captures
    the first proton of the group that overlaps it and is free, and nothing
    else: sprites before it that are the base's own, do not overlap or are
    bonded are passed over, and whatever comes after it finds the base
    bonded.  The pass has exactly the effect of the one handler call. *)
Theorem base_captures_first_free_proton
    w bsid bs b bp bh pre psid post ps p pp pb :
  sprites w !! bsid = Some bs -> sprite_particle bs = Some b ->
  heap w !! b = Some bp -> proton bp = Some bh -> particle bh = None ->
  sprites w !! psid = Some ps -> sprite_particle ps = Some p ->
  heap w !! p = Some pp -> base pp = Some pb -> base_particle pb = None ->
  overlap_test bs ps = true ->
  Forall (λ s, exists sv, sprites w !! s = Some sv /\
            (s = bsid \/ overlap_test bs sv = false \/
             exists q qv qb, sprite_particle sv = Some q /\ heap w !! q = Some qv /\
                             base qv = Some qb /\ is_Some (base_particle qb))) pre ->
  Forall (λ s, proton_sprite_ok w s = true) post ->
  overlap overlap_test bsid (pre ++ psid :: post)
          (reacts_with_Proton Date_now Math_random) w
  = reacts_with_Proton Date_now Math_random bsid psid w /\
  exists w', reacts_with_Proton Date_now Math_random bsid psid w = Some (tt, w') /\
             bonded (heap w') b p.
Proof.
  intros Hbs Hb Hbp Hbh E2 Hps Hp Hpp Hpb E1 Hov Hpre Hpost.
  assert (Hne : b <> p).
  { intros ->. rewrite Hbp in Hpp. injection Hpp as ->.
    eapply proton_base_disjoint; eauto. }
  assert (Hsne : bsid <> psid).
  { intros ->. rewrite Hbs in Hps. injection Hps as ->. congruence. }
  assert (Hrun : reacts_with_Proton Date_now Math_random bsid psid w =
            Some (tt, bond_world (Date_now (clock_reads w))
                        (Math_random (random_reads w)) w bsid psid b p bs ps bp pp bh)).
  { rewrite (reacts_with_Proton_eq Date_now Math_random w bsid psid bs ps p pp pb)
      by assumption.
    rewrite Hb, Hbp, Hbh, E1, E2. reflexivity. }
  split.
  2:{ eexists. split; [exact Hrun|]. unfold bonded, proton_of, base_of, bond_world.
      cbn [heap]. rewrite lookup_insert_eq. rewrite lookup_insert_ne by done.
      rewrite lookup_insert_eq. done. }
  induction Hpre as [|s rest (sv & Hsv & Hcase) _ IH].
  - cbn [app overlap].
    mrun (get_sprite_run _ _ _ Hbs). mrun (get_sprite_run _ _ _ Hps).
    rewrite Hov. replace (bsid =? psid)%nat with false
      by (symmetry; by apply Nat.eqb_neq).
    cbn [negb andb]. rewrite Hrun. mrun Hrun.
    set (w1 := bond_world _ _ _ _ _ _ _ _ _ _ _ _).
    assert (Hev : evolves w w1).
    { unfold w1, bond_world.
      eapply evolves_trans;
        [apply (evolves_heap_update w p pp (set_base (mkBaseHash (Some b)) pp)
                  (clock_reads w) (random_reads w) Hpp);
         eapply same_shape_set_base; eauto|].
      eapply evolves_trans;
        [eapply (evolves_heap_update _ b bp
                   (set_proton (captured (Date_now (clock_reads w))
                                  (Math_random (random_reads w)) p (depth ps) bh) bp)
                   (clock_reads w) (random_reads w));
         [cbn [heap]; rewrite lookup_insert_ne by done; exact Hbp
         |eapply same_shape_set_proton; eauto]|].
      cbn [beaker sprites heap].
      eapply (evolves_sprite_update
                (mkWorld (beaker w) (sprites w) _ (clock_reads w) (random_reads w))
                psid ps); [exact Hps | reflexivity | reflexivity]. }
    apply (overlap_bonded_base_noop w1 bsid bs b
             (set_proton (captured (Date_now (clock_reads w))
                            (Math_random (random_reads w)) p (depth ps) bh) bp)
             (captured (Date_now (clock_reads w))
                (Math_random (random_reads w)) p (depth ps) bh)).
    + unfold w1, bond_world. cbn [sprites]. rewrite lookup_insert_ne by done. exact Hbs.
    + exact Hb.
    + unfold w1, bond_world. cbn [heap]. apply lookup_insert_eq.
    + reflexivity.
    + cbn. eauto.
    + eapply Forall_impl; [exact Hpost|]. intros s Hs.
      eapply proton_sprite_ok_evolves; eauto.
  - cbn [app overlap]. rewrite <- IH.
    mrun (get_sprite_run _ _ _ Hbs). mrun (get_sprite_run _ _ _ Hsv).
    erewrite bind_run; [reflexivity|].
    destruct Hcase as [->|[Hno|(q & qv & qb & Hq & Hqv & Hqb & [b0 Hb0])]].
    + rewrite Nat.eqb_refl. reflexivity.
    + rewrite Hno, andb_false_r. reflexivity.
    + destruct (negb (bsid =? s)%nat && overlap_test bs sv); [|reflexivity].
      rewrite (reacts_with_Proton_eq Date_now Math_random w bsid s bs sv q qv qb)
        by assumption.
      rewrite Hb0. reflexivity.
Qed.

End Population.

(** ** Reflection at the edges of the solution *)

Lemma moving_modify_sprite sid vx vy s f :
  (forall v, velocity_x (f v) = velocity_x v /\ velocity_y (f v) = velocity_y v) ->
  preserves (moving sid vx vy) (modify_sprite s f).
Proof.
  intros Hf w a w' (sv & Hsv & Hx & Hy) H. unfold modify_sprite in H.
  apply bind_Some in H as (v & w1 & H1 & H2).
  apply get_sprite_Some in H1 as (? & Hv & [= <- <-]).
  injection H2 as <- <-. unfold moving. cbn [sprites].
  destruct (decide (s = sid)) as [->|Hne].
  - rewrite lookup_insert_eq. eexists. split; [reflexivity|].
    destruct (Hf v) as [-> ->]. split; congruence.
  - rewrite lookup_insert_ne by done. eauto.
Qed.

Lemma moving_same_sprites sid vx vy {A} (m : M A) :
  (forall w a w', m w = Some (a, w') -> sprites w' = sprites w) ->
  preserves (moving sid vx vy) m.
Proof.
  intros Hm w a w' (sv & Hsv & Hx & Hy) H. apply Hm in H.
  exists sv. rewrite H. done.
Qed.

Lemma moving_modify_proton sid vx vy p f :
  preserves (moving sid vx vy) (modify_proton p f).
Proof.
  apply moving_same_sprites. intros w a w' H. unfold modify_proton in H.
  apply bind_Some in H as (v & w1 & H1 & H).
  apply get_particle_Some in H1 as (? & Hv & [= <- <-]).
  apply bind_Some in H as (h & w2 & H1 & H).
  apply deref_Some in H1 as (? & Hh & [= <- <-]).
  by injection H as <- <-.
Qed.

Lemma moving_assign_base_particle sid vx vy p r :
  preserves (moving sid vx vy) (assign_base_particle p r).
Proof.
  apply moving_same_sprites. intros w a w' H. unfold assign_base_particle in H.
  apply bind_Some in H as (v & w1 & H1 & H).
  apply get_particle_Some in H1 as (? & Hv & [= <- <-]).
  apply bind_Some in H as (h & w2 & H1 & H).
  apply deref_Some in H1 as (? & Hh & [= <- <-]).
  by injection H as <- <-.
Qed.

Lemma moving_Date_now sid vx vy f : preserves (moving sid vx vy) (Date_now_ f).
Proof. apply moving_same_sprites. by intros w a w' [= <- <-]. Qed.

Lemma moving_Math_random sid vx vy f : preserves (moving sid vx vy) (Math_random_ f).
Proof. apply moving_same_sprites. by intros w a w' [= <- <-]. Qed.

Ltac moving_step :=
  lazymatch goal with
  | |- preserves _ (bind _ _) => apply preserves_bind; [|intros ?]
  | |- preserves _ (ret _) => apply preserves_ret
  | |- preserves _ throw => apply preserves_throw
  | |- preserves _ (deref _) => apply preserves_deref
  | |- preserves _ (get_sprite _) => apply preserves_get_sprite
  | |- preserves _ (get_particle _) => apply preserves_get_particle
  | |- preserves _ get_beaker => apply preserves_get_beaker
  | |- preserves _ (modify_sprite _ _) =>
      apply moving_modify_sprite; intros ?; split; reflexivity
  | |- preserves _ (modify_proton _ _) => apply moving_modify_proton
  | |- preserves _ (assign_base_particle _ _) => apply moving_assign_base_particle
  | |- preserves _ (Date_now_ _) => apply moving_Date_now
  | |- preserves _ (Math_random_ _) => apply moving_Math_random
  | |- preserves _ (if _ then _ else _) => case_match
  end.

Section Turns.

Variable Date_now : nat -> Q.
Variable Math_random : nat -> Q.
Variable overlapPoint : Q * Q * (Q * Q * Q) -> Q -> Q -> bool.
Variable overlap_test : Sprite -> Sprite -> bool.

Lemma moving_reacts_with_Proton sid vx vy a b :
  preserves (moving sid vx vy) (reacts_with_Proton Date_now Math_random a b).
Proof. unfold reacts_with_Proton. repeat moving_step. Qed.

Lemma moving_ConjugateBase_update sid vx vy this :
  preserves (moving sid vx vy) (ConjugateBase_update Date_now this).
Proof. unfold ConjugateBase_update. repeat moving_step. Qed.

Lemma moving_update sid vx vy this :
  preserves (moving sid vx vy) (update Date_now this).
Proof.
  unfold update. repeat moving_step.
  case_match; try apply preserves_ret; apply moving_ConjugateBase_update.
Qed.

Lemma moving_reactions sid vx vy sprite c :
  preserves (moving sid vx vy)
    (sprite_resolve_collisions overlap_test sprite (reacts_with Date_now Math_random c)).
Proof.
  apply sprite_resolve_collisions_preserves.
  destruct c; simpl; try apply Forall_nil_2;
    (apply Forall_cons_2; [|apply Forall_nil_2]); simpl; intros;
    apply moving_reacts_with_Proton.
Qed.

(** The turn of a sprite leaves the velocity of every other sprite as it is
    and reflects its own at the edges. *)
Lemma update_sprite_velocity w w' sprite min_x min_y max_x max_y :
  update_sprite Date_now Math_random overlapPoint overlap_test
                sprite min_x min_y max_x max_y w = Some (tt, w') ->
  (exists s,
     sprites w !! sprite = Some s /\
     moving sprite
       (reflected (overlapPoint (geometry s) min_x (position_y s))
                  (overlapPoint (geometry s) max_x (position_y s)) (velocity_x s))
       (reflected (overlapPoint (geometry s) (position_x s) min_y)
                  (overlapPoint (geometry s) (position_x s) max_y) (velocity_y s))
       w') /\
  (forall sid vx vy, sid <> sprite -> moving sid vx vy w -> moving sid vx vy w').
Proof.
  intros H. unfold update_sprite in H.
  apply bind_Some in H as (s & w0 & H0 & H).
  apply get_sprite_Some in H0 as (s1 & Hs & E). injection E as <- ->.
  destruct (sprite_boundary_update_run overlapPoint w sprite s min_x min_y max_x max_y Hs)
    as (s' & Hrun & Hvx & Hvy & _).
  apply bind_Some in H as ([] & w1 & H1 & H). rewrite Hrun in H1.
  injection H1 as <-.
  assert (Hrest : forall sid vx vy,
            moving sid vx vy
              (mkWorld (beaker w) (<[sprite := s']> (sprites w)) (heap w)
                       (clock_reads w) (random_reads w)) ->
            moving sid vx vy w').
  { intros sid vx vy Hm. revert Hm H.
    generalize (mkWorld (beaker w) (<[sprite := s']> (sprites w)) (heap w)
                        (clock_reads w) (random_reads w)).
    intros w1 Hm H.
    assert (Hp : preserves (moving sid vx vy)
              (do particle <- deref (sprite_particle s);
               do pv <- get_particle particle;
               exec sprite_resolve_collisions overlap_test sprite
                      (reacts_with Date_now Math_random (proto pv));
               update Date_now particle)).
    { repeat moving_step; [apply moving_reactions | apply moving_update]. }
    exact (Hp _ _ _ Hm H). }
  split.
  - exists s. split; [exact Hs|]. apply Hrest.
    exists s'. cbn [sprites]. rewrite lookup_insert_eq. done.
  - intros sid vx vy Hne (sv & Hsv & Hx & Hy). apply Hrest.
    exists sv. cbn [sprites]. rewrite lookup_insert_ne by done. done.
Qed.

Lemma update_particles_loop_others l min_x min_y max_x max_y sid vx vy :
  sid ∉ l ->
  preserves (moving sid vx vy)
    (update_particles_loop Date_now Math_random overlapPoint overlap_test
                           l min_x min_y max_x max_y).
Proof.
  induction l as [|s0 rest IH]; intros Hnin; simpl.
  - apply preserves_ret.
  - apply not_elem_of_cons in Hnin as [Hne Hnin].
    apply preserves_bind; [|intros _; by apply IH].
    intros w [] w' Hm H. apply update_sprite_velocity in H as [_ H]. by apply H.
Qed.

(** The loop of a step, turn by turn. *)
Lemma update_particles_loop_turn l min_x min_y max_x max_y :
  forall w w' i sid,
    NoDup l ->
    update_particles_loop Date_now Math_random overlapPoint overlap_test
                          l min_x min_y max_x max_y w = Some (tt, w') ->
    l !! i = Some sid ->
    exists wi s s',
      update_particles_loop Date_now Math_random overlapPoint overlap_test
                            (take i l) min_x min_y max_x max_y w = Some (tt, wi) /\
      sprites wi !! sid = Some s /\ sprites w' !! sid = Some s' /\
      velocity_x s' =
        reflected (overlapPoint (geometry s) min_x (position_y s))
                  (overlapPoint (geometry s) max_x (position_y s)) (velocity_x s) /\
      velocity_y s' =
        reflected (overlapPoint (geometry s) (position_x s) min_y)
                  (overlapPoint (geometry s) (position_x s) max_y) (velocity_y s) /\
      (forall s0, sprites w !! sid = Some s0 ->
         velocity_x s = velocity_x s0 /\ velocity_y s = velocity_y s0).
Proof.
  induction l as [|s0 rest IH]; intros w w' i sid Hnd Hrun Hi; [done|].
  apply NoDup_cons in Hnd as [Hnin Hnd].
  cbn [update_particles_loop] in Hrun.
  apply bind_Some in Hrun as ([] & w1 & H1 & Hrun).
  destruct i as [|j]; cbn in Hi.
  - injection Hi as ->. cbn [take update_particles_loop].
    pose proof (update_sprite_velocity _ _ _ _ _ _ _ H1) as [(s & Hs & Hm) _].
    destruct (update_particles_loop_others rest min_x min_y max_x max_y sid _ _
                Hnin _ _ _ Hm Hrun) as (s' & Hs' & Hx & Hy).
    exists w, s, s'. split; [reflexivity|]. split; [exact Hs|].
    split; [exact Hs'|]. split; [exact Hx|]. split; [exact Hy|].
    intros s1 E. rewrite Hs in E. by injection E as <-.
  - destruct (IH w1 w' j sid Hnd Hrun Hi) as (wj & s & s' & Hpre & Hs & Hs' & Hx & Hy & H0).
    exists wj, s, s'. split.
    { cbn [take update_particles_loop]. rewrite (bind_run _ _ _ _ _ H1). exact Hpre. }
    split; [exact Hs|]. split; [exact Hs'|]. split; [exact Hx|]. split; [exact Hy|].
    intros s1 E.
    assert (Hne : sid <> s0).
    { intros ->. apply Hnin. eapply list_elem_of_lookup_2; eauto. }
    pose proof (update_sprite_velocity _ _ _ _ _ _ _ H1) as [_ Hoth].
    destruct (Hoth sid (velocity_x s1) (velocity_y s1) Hne) as (s2 & E2 & Hx2 & Hy2).
    { exists s1. done. }
    destruct (H0 s2 E2) as [-> ->]. done.
Qed.

End Turns.

Lemma reflected_near at_far v : 0 <= reflected true at_far v.
Proof. simpl. apply Qabs_nonneg. Qed.

Lemma reflected_far v : reflected false true v <= 0.
Proof. simpl. pose proof (Qabs_nonneg v). lra. Qed.


(** ** When the reaction handler throws *)

Section HandlerErrors.

Variable Date_now : nat -> Q.
Variable Math_random : nat -> Q.

(** X24. The reaction handler returns exactly when both sprites are stored,
    the target sprite carries a stored particle with a [base] record, and
    either that proton is bonded or the source sprite carries a stored
    particle with a [proton] record; otherwise it throws.  A bonded target
    makes it return before the source's particle is looked at. *)
Theorem handler_returns_iff w bsid psid :
  (exists w', reacts_with_Proton Date_now Math_random bsid psid w = Some (tt, w')) <->
  exists bs ps p pp pb,
    sprites w !! bsid = Some bs /\ sprites w !! psid = Some ps /\
    sprite_particle ps = Some p /\ heap w !! p = Some pp /\ base pp = Some pb /\
    (is_Some (base_particle pb) \/
     exists b bp bh, sprite_particle bs = Some b /\ heap w !! b = Some bp /\
                     proton bp = Some bh).
Proof.
  split.
  - intros [w' Hrun].
    destruct (reacts_with_Proton_inv Date_now Math_random w bsid psid _ Hrun)
      as (bs & ps & p & pp & pb & Hbs & Hps & Hp & Hpp & Hpb).
    exists bs, ps, p, pp, pb. do 5 (split; [assumption|]).
    rewrite (reacts_with_Proton_eq Date_now Math_random w bsid psid bs ps p pp pb)
      in Hrun by assumption.
    destruct (base_particle pb) as [b0|]; [left; eauto|]. right.
    cbn [truthy_ref] in Hrun.
    destruct (sprite_particle bs) as [b|]; [|discriminate].
    destruct (heap w !! b) as [bp|] eqn:Hbp; [|discriminate].
    destruct (proton bp) as [bh|] eqn:Hbh; [|discriminate].
    exists b, bp, bh. split; [reflexivity|]. split; [exact Hbp | exact Hbh].
  - intros (bs & ps & p & pp & pb & Hbs & Hps & Hp & Hpp & Hpb & Hcase).
    rewrite (reacts_with_Proton_eq Date_now Math_random w bsid psid bs ps p pp pb)
      by assumption.
    destruct Hcase as [[b0 Hb0]|(b & bp & bh & Hb & Hbp & Hbh)].
    + rewrite Hb0. eauto.
    + destruct (truthy_ref (base_particle pb)); [eauto|].
      rewrite Hb, Hbp, Hbh. destruct (truthy_ref (particle bh)); eauto.
Qed.

End HandlerErrors.

(** ** The further properties at concrete worlds *)

Lemma Proton_registers_protons_only : registers_protons_only Proton.
Proof. intros _. reflexivity. Defined.

Lemma WeakConjugateBase_registers_protons_only :
  registers_protons_only WeakConjugateBase.
Proof. intros H. vm_compute in H. discriminate. Defined.

Lemma pair_world_reachable :
  reachable (always 0) (always 0) creation_order circle_overlapPoint circle_overlap
            pair_world.
Proof.
  eapply (reachable_addParticles _ _ _ _ _ _ WeakConjugateBase 1);
    [eapply (reachable_addParticles _ _ _ _ _ _ Proton 1);
       [apply (reachable_new _ _ _ _ _ 100 100 0 0 None None)
       |exact Proton_registers_protons_only
       |vm_compute; reflexivity]
    |exact WeakConjugateBase_registers_protons_only
    |vm_compute; reflexivity].
Defined.

(** [edge_world] is reached by adding a proton and moving its sprite. *)
Lemma edge_world_reachable :
  reachable (always 0) (always (3 # 4)) creation_order circle_overlapPoint circle_overlap
            edge_world.
Proof.
  set (w0 := world_after (addParticles (always (3 # 4)) creation_order Proton 1)
                         fresh_world).
  assert (Hr : reachable (always 0) (always (3 # 4)) creation_order
                 circle_overlapPoint circle_overlap w0).
  { eapply (reachable_addParticles _ _ _ _ _ _ Proton 1);
      [apply (reachable_new _ _ _ _ _ 100 100 0 0 None None)
      |exact Proton_registers_protons_only
      |vm_compute; reflexivity]. }
  eassert (E : sprites w0 !! 1%nat = Some _) by (vm_compute; reflexivity).
  unfold edge_world. fold w0. cbv zeta. rewrite E.
  exact (reachable_moved _ _ _ _ _ w0 1 _ 3 3 Hr E).
Defined.



(** A second sprite made for the proton of [pair_world]. *)
Lemma createSprite_makes_sprite_witness :
  exists w' s sv,
    createSprite (always (1 # 4)) creation_order 0 20 30 pair_world = Some (tt, w') /\
    sprites pair_world !! s = None /\
    sprites w' = <[s := sv]> (sprites pair_world) /\
    position_x sv = 20 /\ position_y sv = 30 /\
    collider sv = (0, 0, 6) /\ sprite_particle sv = Some 0%nat /\
    - (3) <= velocity_x sv <= 3 /\ - (3) <= velocity_y sv <= 3.
Proof.
  destruct (createSprite_makes_sprite (always (1 # 4)) creation_order pair_world 0
              (mkParticle Proton_ (Some 1%nat) (HasBase (mkBaseHash None))) 20 30)
    as (w' & s & sv & H1 & H2 & H3 & _ & _ & _ & _ & H4 & H5 & H6 & H7 & H8 & H9);
    [vm_compute; reflexivity
    |vm_compute; split; [discriminate | reflexivity]
    |vm_compute; split; [discriminate | reflexivity]|].
  exists w', s, sv.
  split; [exact H1|]. split; [exact H2|]. split; [exact H3|].
  split; [exact H4|]. split; [exact H5|]. split; [exact H6|].
  split; [exact H7|]. split; [exact H8 | exact H9].
Defined.

(** The base of [pair_world] captures its proton at clock time 1000 with
    random fraction 1/2. *)
Lemma capture_sets_timer_and_depth_witness :
  exists w' bp bh ps,
    reacts_with_Proton (always 1000) (always (1 # 2)) 4 1 pair_world = Some (tt, w') /\
    heap w' !! 1%nat = Some bp /\ proton bp = Some bh /\
    release_after bh = Some (1000 + 0 + 2000 * (1 # 2)) /\
    restore_depth bh = Some 1 /\
    sprites w' !! 1%nat = Some ps /\ depth ps = Some (4 + (1 # 2)).
Proof.
  eexists _, _, _, _. split.
  - apply (capture_sets_timer_and_depth (always 1000) (always (1 # 2)) pair_world 4 1
             (mkSprite 16 16 (2 # 4) (2 # 4) (Some 4) (0, 0, 16) (Some 1%nat))
             (mkSprite 6 6 3 3 (Some 1) (0, 0, 6) (Some 0%nat))
             1 0
             (mkParticle WeakConjugateBase_ (Some 4%nat)
                (HasProton (mkProtonHash None 10 (-10) None (0, 2000) 750 None)))
             (mkParticle Proton_ (Some 1%nat) (HasBase (mkBaseHash None)))
             (mkProtonHash None 10 (-10) None (0, 2000) 750 None)
             (mkBaseHash None));
      vm_compute; reflexivity.
  - vm_compute. repeat split; reflexivity.
Defined.

(** At clock time 1500, before the release due at 2000, the update puts the
    proton's sprite at (16 + 10, 16 - 10). *)
Lemma update_holds_proton_at_offset_witness :
  exists w' ps,
    ConjugateBase_update (always 1500) 1 pair_world_bonded = Some (tt, w') /\
    sprites w' !! 1%nat = Some ps /\
    position_x ps = 16 + 10 /\ position_y ps = 16 + - (10) /\
    velocity_x ps = 3 /\ heap w' = heap pair_world_bonded.
Proof.
  eexists _, _. split.
  - apply (update_holds_proton_at_offset (always 1500) pair_world_bonded 1
             (mkParticle WeakConjugateBase_ (Some 4%nat)
                (HasProton (mkProtonHash (Some 0%nat) 10 (-10) (Some 1) (0, 2000) 750
                              (Some (4000 # 2)))))
             (mkProtonHash (Some 0%nat) 10 (-10) (Some 1) (0, 2000) 750
                (Some (4000 # 2)))
             (4000 # 2) 0
             (mkParticle Proton_ (Some 1%nat) (HasBase (mkBaseHash (Some 1%nat))))
             1 4
             (mkSprite 16 16 (2 # 4) (2 # 4) (Some 4) (0, 0, 16) (Some 1%nat))
             (mkSprite 6 6 3 3 (Some (9 # 2)) (0, 0, 6) (Some 0%nat)));
      try (vm_compute; reflexivity).
    vm_compute. discriminate.
  - vm_compute. repeat split; reflexivity.
Defined.

(** At clock time 2500, between the release at 2000 and its completion at
    2750, the update only reads the clock. *)
Lemma update_writes_nothing_unless_due_witness :
  ConjugateBase_update (always 2500) 1 pair_world_bonded =
    Some (tt, mkWorld (beaker pair_world_bonded) (sprites pair_world_bonded)
                (heap pair_world_bonded) (S (clock_reads pair_world_bonded))
                (random_reads pair_world_bonded)).
Proof.
  apply (update_writes_nothing_unless_due (always 2500) pair_world_bonded 1
           (mkParticle WeakConjugateBase_ (Some 4%nat)
              (HasProton (mkProtonHash (Some 0%nat) 10 (-10) (Some 1) (0, 2000) 750
                            (Some (4000 # 2)))))
           (mkProtonHash (Some 0%nat) 10 (-10) (Some 1) (0, 2000) 750
              (Some (4000 # 2))));
    [vm_compute; reflexivity | reflexivity |].
  right. vm_compute. split; [discriminate | reflexivity].
Defined.

(** At clock time 3000, past 2750, the update ends the bond and gives the
    proton's sprite its depth 1 back. *)
Lemma update_completes_release_witness :
  exists w' ps,
    ConjugateBase_update (always 3000) 1 pair_world_bonded = Some (tt, w') /\
    sprites w' !! 1%nat = Some ps /\ depth ps = Some 1 /\
    proton_of (heap w') 1 = None /\ base_of (heap w') 0 = None.
Proof.
  eexists _, _. split.
  - apply (update_completes_release (always 3000) pair_world_bonded 1
             (mkParticle WeakConjugateBase_ (Some 4%nat)
                (HasProton (mkProtonHash (Some 0%nat) 10 (-10) (Some 1) (0, 2000) 750
                              (Some (4000 # 2)))))
             (mkProtonHash (Some 0%nat) 10 (-10) (Some 1) (0, 2000) 750
                (Some (4000 # 2)))
             (4000 # 2) 0
             (mkParticle Proton_ (Some 1%nat) (HasBase (mkBaseHash (Some 1%nat))))
             1
             (mkSprite 6 6 3 3 (Some (9 # 2)) (0, 0, 6) (Some 0%nat))
             (mkBaseHash (Some 1%nat)));
      try (vm_compute; reflexivity); vm_compute; discriminate.
  - vm_compute. repeat split; reflexivity.
Defined.

(** Capture at clock time 1000 and update at the same time, before the
    release due at 2000: the proton is bonded and placed at (26, 6). *)
Lemma capture_then_update_places_proton_witness :
  exists w' ps,
    (exec reacts_with_Proton (always 1000) (always (1 # 2)) 4 1;
     ConjugateBase_update (always 1000) 1) pair_world = Some (tt, w') /\
    sprites w' !! 1%nat = Some ps /\
    position_x ps = 16 + 10 /\ position_y ps = 16 + - (10) /\
    bonded (heap w') 1 0.
Proof.
  eexists _, _. split.
  - apply (capture_then_update_places_proton (always 1000) (always (1 # 2))
             pair_world 4 1
             (mkSprite 16 16 (2 # 4) (2 # 4) (Some 4) (0, 0, 16) (Some 1%nat))
             (mkSprite 6 6 3 3 (Some 1) (0, 0, 6) (Some 0%nat))
             1 0
             (mkParticle WeakConjugateBase_ (Some 4%nat)
                (HasProton (mkProtonHash None 10 (-10) None (0, 2000) 750 None)))
             (mkParticle Proton_ (Some 1%nat) (HasBase (mkBaseHash None)))
             (mkProtonHash None 10 (-10) None (0, 2000) 750 None)
             (mkBaseHash None));
      try (vm_compute; reflexivity); vm_compute; discriminate.
  - vm_compute. repeat split; reflexivity.
Defined.

(** Capture at clock time 1000 (release due at 1000, complete at 1750) and
    update at 5000: sprites and particles are as before the capture. *)
Lemma capture_then_release_restores_witness :
  (exec reacts_with_Proton late_clock (always 0) 4 1;
   ConjugateBase_update late_clock 1) pair_world =
    Some (tt, mkWorld (beaker pair_world) (sprites pair_world) (heap pair_world)
                (S (S (clock_reads pair_world))) (S (random_reads pair_world))).
Proof.
  destruct (capture_then_release_restores late_clock (always 0) pair_world 4 1
             (mkSprite 16 16 (2 # 4) (2 # 4) (Some 4) (0, 0, 16) (Some 1%nat))
             (mkSprite 6 6 3 3 (Some 1) (0, 0, 6) (Some 0%nat))
             1 0
             (mkParticle WeakConjugateBase_ (Some 4%nat)
                (HasProton (mkProtonHash None 10 (-10) None (0, 2000) 750 None)))
             (mkParticle Proton_ (Some 1%nat) (HasBase (mkBaseHash None)))
             (mkProtonHash None 10 (-10) None (0, 2000) 750 None)
             (mkBaseHash None)) as [Hrun Hheap];
    [first [vm_compute; reflexivity | vm_compute; discriminate] .. |].
  rewrite Hrun. rewrite Hheap by reflexivity. reflexivity.
Defined.

Lemma StrongConjugateBase_registers_protons_only :
  registers_protons_only StrongConjugateBase.
Proof. intros H. vm_compute in H. discriminate. Defined.

(** [pair_world] can be stepped with any clock. *)
Lemma step_returns_on_reachable_witness :
  exists w', step (always 7) (always 0) circle_overlapPoint circle_overlap pair_world
             = Some (tt, w').
Proof.
  exact (step_returns_on_reachable (always 0) (always 0) creation_order
           circle_overlapPoint circle_overlap
           (always 7) (always 0) circle_overlapPoint circle_overlap
           pair_world pair_world_reachable).
Defined.

(** Five strong conjugate bases can be added to [pair_world]. *)
Lemma addParticles_returns_on_reachable_witness :
  exists w', addParticles (always (1 # 3)) creation_order StrongConjugateBase 5
                          pair_world = Some (tt, w').
Proof.
  exact (addParticles_returns_on_reachable (always 0) (always 0) creation_order
           circle_overlapPoint circle_overlap
           (always (1 # 3)) creation_order StrongConjugateBase 5
           pair_world pair_world_reachable
           StrongConjugateBase_registers_protons_only eq_refl).
Defined.

(** [pair_world] has a "Proton" group and no "StrongConjugateBase" group. *)
Lemma removeParticles_returns_iff_group_exists_witness :
  (exists w', removeParticles Proton 1 pair_world = Some (tt, w')) /\
  ~ (exists w', removeParticles StrongConjugateBase 1 pair_world = Some (tt, w')).
Proof.
  split.
  - apply (removeParticles_returns_iff_group_exists (always 0) (always 0)
             creation_order circle_overlapPoint circle_overlap
             Proton 1 pair_world pair_world_reachable).
    vm_compute. eauto.
  - intros H.
    apply (removeParticles_returns_iff_group_exists (always 0) (always 0)
             creation_order circle_overlapPoint circle_overlap
             StrongConjugateBase 1 pair_world pair_world_reachable) in H.
    vm_compute in H. destruct H as [? H]. discriminate.
Defined.

(** The step that bonds the pair of [pair_world] keeps groups and stores. *)
Lemma step_creates_and_deletes_nothing_witness :
  beaker pair_world_stepped = beaker pair_world /\
  dom (sprites pair_world_stepped) = dom (sprites pair_world) /\
  dom (heap pair_world_stepped) = dom (heap pair_world).
Proof.
  destruct (step_creates_and_deletes_nothing (always 0) (always 0)
              circle_overlapPoint circle_overlap pair_world pair_world_stepped)
    as (H1 & H2 & H3 & _); [vm_compute; reflexivity|].
  split; [exact H1|]. split; [exact H2 | exact H3].
Defined.

(** The proton's sprite (sprite 1) keeps its speed of 3 along both axes. *)
Lemma step_conserves_speed_witness :
  exists sv',
    sprites pair_world_stepped !! 1%nat = Some sv' /\
    Qabs (velocity_x sv') == Qabs 3 /\ Qabs (velocity_y sv') == Qabs 3.
Proof.
  eexists. split; [vm_compute; reflexivity|].
  destruct (step_conserves_speed (always 0) (always 0)
              circle_overlapPoint circle_overlap pair_world pair_world_stepped 1
              (mkSprite 6 6 3 3 (Some 1) (0, 0, 6) (Some 0%nat))
              (mkSprite 6 6 3 3 (Some (9 # 2)) (0, 0, 6) (Some 0%nat)))
    as (H1 & H2 & _); [vm_compute; reflexivity ..|].
  split; [exact H1 | exact H2].
Defined.

(** Visiting the proton's sprite of [pair_world] forms no bond although it
    overlaps the free base. *)
Lemma only_bases_react_witness :
  circle_overlap (mkSprite 6 6 3 3 (Some 1) (0, 0, 6) (Some 0%nat))
                 (mkSprite 16 16 (2 # 4) (2 # 4) (Some 4) (0, 0, 16) (Some 1%nat))
    = true /\
  update_sprite (always 0) (always 0) circle_overlapPoint circle_overlap
                1 0 0 100 100 pair_world =
  sprite_boundary_update circle_overlapPoint 1 0 0 100 100 pair_world.
Proof.
  split; [vm_compute; reflexivity|].
  apply (only_bases_react (always 0) (always 0) circle_overlapPoint circle_overlap
           pair_world 1 (mkSprite 6 6 3 3 (Some 1) (0, 0, 6) (Some 0%nat)) 0
           (mkParticle Proton_ (Some 1%nat) (HasBase (mkBaseHash None))));
    vm_compute; reflexivity.
Defined.

(** Three more protons for [pair_world]: three registered sprites, six new
    sprites, eighteen random numbers. *)
Lemma addParticles_appends_quantity_witness :
  exists w' added,
    addParticles (always 0) creation_order Proton 3 pair_world = Some (tt, w') /\
    length added = 3%nat /\
    all_particle_sprites (beaker w') = all_particle_sprites (beaker pair_world) ++ added /\
    size (sprites w') = (size (sprites pair_world) + 3 * 2)%nat /\
    random_reads w' = (random_reads pair_world + 3 * (2 + 5 * 2))%nat.
Proof.
  destruct (addParticles_appends_quantity (always 0) (always 0) creation_order
              circle_overlapPoint circle_overlap Proton 3 pair_world
              pair_world_reachable Proton_registers_protons_only eq_refl)
    as (w' & added & H1 & H2 & _ & _ & H3 & _ & _ & H4 & H5);
    [vm_compute; reflexivity ..|].
  exists w', added.
  split; [exact H1|]. split; [exact H2|]. split; [exact H3|].
  split; [exact H4 | exact H5].
Defined.

(** On a new beaker [removeParticles(Proton, 2)] throws, and returns once
    [addParticles(Proton, 0)] has run. *)
Lemma addParticles_zero_makes_removal_safe_witness :
  removeParticles Proton 2 fresh_world = None /\
  exists w',
    (exec addParticles (always 0) creation_order Proton 0;
     removeParticles Proton 2) fresh_world = Some (tt, w').
Proof.
  destruct (addParticles_zero_makes_removal_safe (always 0) creation_order
              Proton 2 fresh_world) as [H1 H2];
    [reflexivity | reflexivity | vm_compute; reflexivity |].
  split; [exact H1|]. eexists. exact H2.
Defined.

(** The groups of [pair_world]. *)
Lemma reachable_groups_partition_witness :
  NoDup (all_particle_sprites (beaker pair_world)) /\
  (forall s, s ∈ all_particle_sprites (beaker pair_world) <->
             exists k g, particles (beaker pair_world) !! k = Some g /\ s ∈ g).
Proof.
  destruct (reachable_groups_partition (always 0) (always 0) creation_order
              circle_overlapPoint circle_overlap pair_world pair_world_reachable)
    as (H1 & _ & H2 & _).
  split; [exact H1 | exact H2].
Defined.

(** The bond formed by stepping [pair_world] is symmetric. *)
Lemma pair_world_stepped_reachable :
  reachable (always 0) (always 0) creation_order circle_overlapPoint circle_overlap
            pair_world_stepped.
Proof.
  eapply reachable_step; [exact pair_world_reachable | vm_compute; reflexivity].
Defined.

Lemma reachable_bonds_symmetric_witness :
  proton_of (heap pair_world_stepped) 1 = Some 0%nat /\
  base_of (heap pair_world_stepped) 0 = Some 1%nat.
Proof.
  assert (H : proton_of (heap pair_world_stepped) 1 = Some 0%nat)
    by (vm_compute; reflexivity).
  split; [exact H|].
  apply (reachable_bonds_symmetric (always 0) (always 0) creation_order
           circle_overlapPoint circle_overlap pair_world_stepped 1 0
           pair_world_stepped_reachable).
  exact H.
Defined.

(** Sprite 1 of the "Proton" group of [pair_world]. *)
Lemma reachable_group_sprites_linked_witness :
  exists sv p pv,
    sprites pair_world !! 1%nat = Some sv /\ sprite_particle sv = Some p /\
    heap pair_world !! p = Some pv /\ sprite pv = Some 1%nat.
Proof.
  apply (reachable_group_sprites_linked (always 0) (always 0) creation_order
           circle_overlapPoint circle_overlap pair_world "Proton" [1%nat] 1
           pair_world_reachable).
  - vm_compute. reflexivity.
  - left.
Defined.

(** The base of [crowded_world] overlaps both protons and captures the
    first of the group, sprite 1; sprite 3 stays free. *)
Lemma base_captures_first_free_proton_witness :
  overlap circle_overlap 6 [1%nat; 3%nat]
          (reacts_with_Proton (always 1000) (always (1 # 2))) crowded_world
  = reacts_with_Proton (always 1000) (always (1 # 2)) 6 1 crowded_world /\
  exists w', reacts_with_Proton (always 1000) (always (1 # 2)) 6 1 crowded_world
             = Some (tt, w') /\ bonded (heap w') 2 0.
Proof.
  apply (base_captures_first_free_proton (always 1000) (always (1 # 2)) circle_overlap
           crowded_world 6
           (mkSprite 16 16 (2 # 4) (2 # 4) (Some 6) (0, 0, 16) (Some 2%nat))
           2
           (mkParticle WeakConjugateBase_ (Some 6%nat)
              (HasProton (mkProtonHash None 10 (-10) None (0, 2000) 750 None)))
           (mkProtonHash None 10 (-10) None (0, 2000) 750 None)
           [] 1 [3%nat]
           (mkSprite 6 6 3 3 (Some 1) (0, 0, 6) (Some 0%nat))
           0
           (mkParticle Proton_ (Some 1%nat) (HasBase (mkBaseHash None)))
           (mkBaseHash None));
    try (vm_compute; reflexivity).
  - constructor.
  - repeat constructor.
Defined.


(** In [crowded_world] the handler returns for the base's sprite meeting a
    proton's, and throws for one proton's sprite meeting another free
    proton's: the first has no [proton] record. *)
Lemma handler_returns_iff_witness :
  (exists w', reacts_with_Proton (always 0) (always 0) 6 1 crowded_world
              = Some (tt, w')) /\
  ~ (exists w', reacts_with_Proton (always 0) (always 0) 1 3 crowded_world
                = Some (tt, w')).
Proof.
  split.
  - apply (handler_returns_iff (always 0) (always 0) crowded_world 6 1).
    exists (mkSprite 16 16 (2 # 4) (2 # 4) (Some 6) (0, 0, 16) (Some 2%nat)),
           (mkSprite 6 6 3 3 (Some 1) (0, 0, 6) (Some 0%nat)),
           0%nat,
           (mkParticle Proton_ (Some 1%nat) (HasBase (mkBaseHash None))),
           (mkBaseHash None).
    do 5 (split; [vm_compute; reflexivity|]).
    right.
    exists 2%nat,
           (mkParticle WeakConjugateBase_ (Some 6%nat)
              (HasProton (mkProtonHash None 10 (-10) None (0, 2000) 750 None))),
           (mkProtonHash None 10 (-10) None (0, 2000) 750 None).
    split; [reflexivity|]. split; [vm_compute; reflexivity | reflexivity].
  - intros H.
    apply (handler_returns_iff (always 0) (always 0) crowded_world 1 3) in H
      as (bs & ps & p & pp & pb & Hbs & Hps & Hp & Hpp & Hpb & Hcase).
    vm_compute in Hbs, Hps. injection Hbs as <-. injection Hps as <-.
    vm_compute in Hp. injection Hp as <-.
    vm_compute in Hpp. injection Hpp as <-.
    vm_compute in Hpb. injection Hpb as <-.
    destruct Hcase as [[b0 Hb0]|(b & bp & bh & Hb & Hbp & Hbh)].
    + vm_compute in Hb0. discriminate.
    + vm_compute in Hb. injection Hb as <-.
      vm_compute in Hbp. injection Hbp as <-.
      vm_compute in Hbh. discriminate.
Defined.
